(** * obsidian-s3-attachments: the attachment conversion pipeline

    A shallow embedding of [convertAttachments.ts] and of [helper.ts],
    with the properties of the specification that concern them and
    further properties of the code.

    Conventions of the embedding.
    - A JavaScript string is the list of its UTF-16 code units, each a
      number ([N]); string literals of the source are written with [lit].
    - Indices into strings ([m.index], [start], [end]) are natural numbers.
    - [undefined] / [null] results are [None].
    - A promise that may reject is a [Res]: [Ok v] or [Err e], where [e] is
      the text [String(e)] of the thrown value.
    - Everything the plugin obtains from Obsidian, the browser or the S3
      client is a field of the class [Host]; the model records each call of
      such an operation as an [Event]. *)

From Stdlib Require Import ZArith NArith List Ascii String Lia Bool.
From Stdlib Require Import Decimal DecimalString.
From stdpp Require Import base option list gmap.

Import ListNotations.
Local Open Scope nat_scope.

(* ===================================================================== *)
(** ** JavaScript strings *)
(* ===================================================================== *)

Module Js.

(** A string: UTF-16 code units. *)
Abbreviation str := (list N).

(** The code unit of an ASCII character, and the string of a literal. *)
Definition ch (a : ascii) : N := N_of_ascii a.
Definition lit (s : string) : str := List.map ch (list_ascii_of_string s).
Arguments ch : simpl never.
Arguments lit : simpl never.

(** Truthiness of a string value: only the empty string is falsy. *)
Definition truthy (s : str) : bool :=
  match s with [] => false | _ :: _ => true end.

(** Truthiness of [string | undefined | null]. *)
Definition truthy_opt (o : option str) : bool :=
  match o with Some s => truthy s | None => false end.

Definition str_eqb (a b : str) : bool := bool_decide (a = b).

(** ECMAScript LineTerminator: LF, CR, LS, PS. *)
Definition is_line_terminator (c : N) : bool :=
  ((c =? 10) || (c =? 13) || (c =? 8232) || (c =? 8233))%N.

(** ECMAScript WhiteSpace and LineTerminator code points: what
    [String.prototype.trim] removes and what [\s] matches. *)
Definition is_space (c : N) : bool :=
  ((c =? 9) || (c =? 11) || (c =? 12) || (c =? 32) || (c =? 160)
   || (c =? 5760) || ((8192 <=? c) && (c <=? 8202))
   || (c =? 8239) || (c =? 8287) || (c =? 12288) || (c =? 65279)
   || is_line_terminator c)%N.

(** The longest prefix whose code units satisfy [p], and the rest. *)
Fixpoint span (p : N -> bool) (s : str) : str * str :=
  match s with
  | [] => ([], [])
  | c :: s' =>
      if p c then let '(a, b) := span p s' in (c :: a, b) else ([], s)
  end.

Definition trimStart (s : str) : str := snd (span is_space s).
Definition trimEnd (s : str) : str := rev (trimStart (rev s)).

(** [s.trim()] *)
Definition trim (s : str) : str := trimEnd (trimStart s).

(** [s.startsWith(p)] *)
Fixpoint startsWith (p s : str) : bool :=
  match p, s with
  | [], _ => true
  | _ :: _, [] => false
  | a :: p', b :: s' => (a =? b)%N && startsWith p' s'
  end.

(** [s.split(c)] for a separator of one code unit: never empty. *)
Fixpoint split (c : N) (s : str) : list str :=
  match s with
  | [] => [[]]
  | x :: s' =>
      if (x =? c)%N then [] :: split c s'
      else match split c s' with
           | [] => [[x]]
           | seg :: segs => (x :: seg) :: segs
           end
  end.

(** [s.split(c)[0]]: always defined. *)
Definition split_first (c : N) (s : str) : str :=
  match split c s with [] => [] | seg :: _ => seg end.

(** [s.indexOf(c)], [None] for -1. *)
Fixpoint indexOf (c : N) (s : str) : option nat :=
  match s with
  | [] => None
  | x :: s' => if (x =? c)%N then Some 0 else option_map S (indexOf c s')
  end.

(** [s.lastIndexOf(c)], [None] for -1. *)
Fixpoint lastIndexOf (c : N) (s : str) : option nat :=
  match s with
  | [] => None
  | x :: s' =>
      match lastIndexOf c s' with
      | Some i => Some (S i)
      | None => if (x =? c)%N then Some 0 else None
      end
  end.

(** [s.slice(i)] and [s.slice(i, j)] for non-negative integers. *)
Definition slice_from (i : nat) (s : str) : str := drop i s.
Definition slice (i j : nat) (s : str) : str := take (j - i) (drop i s).

(** The decimal text of a non-negative integer, as a template literal
    prints it. *)
Definition of_N (n : N) : str := lit (NilZero.string_of_uint (N.to_uint n)).

(** [x.toString(16).padStart(2, '0')] for a byte. *)
Definition hex_digit (n : N) : N :=
  (if n <? 10 then 48 + n else 87 + n)%N.
Definition hex2 (b : N) : str := [hex_digit (b / 16); hex_digit (b mod 16)].

(** [Array.prototype.sort(cmp)]: the sort is stable, and [cmp a b > 0]
    places [a] after [b]. *)
Section Sort.
Context {A : Type} (cmp : A -> A -> Z).

Fixpoint insert_sorted (x : A) (l : list A) : list A :=
  match l with
  | [] => [x]
  | y :: l' => if (0 <? cmp x y)%Z then y :: insert_sorted x l' else x :: l
  end.

Definition sort (l : list A) : list A := foldr insert_sorted [] l.

End Sort.

End Js.

Import Js.

(* ===================================================================== *)
(** ** helper.ts *)
(* ===================================================================== *)

(** [buf2hex]: two lower-case hexadecimal digits per byte. *)
Definition buf2hex (buffer : list Byte.byte) : str :=
  concat (List.map (fun x => hex2 (Byte.to_N x)) buffer).

(** The text a template literal prints for [string | undefined]. *)
Definition template_opt (o : option str) : str :=
  match o with Some s => s | None => lit "undefined" end.

(** [generateResourceName(fileName, parent, hash)]; [now] is the value of
    [Date.now()].  [const [name, type] = fileName.split('.')] takes the
    first two segments; [type] is undefined when there is no dot. *)
Definition generateResourceName
    (now : N) (fileName : str) (parent hash : option str) : str :=
  let parts := split (ch ".") fileName in
  let name := parts !! 0 in
  let type := parts !! 1 in
  if truthy_opt hash then
    template_opt name ++ lit "-" ++ template_opt hash ++ lit "."
      ++ template_opt type
  else
    (if truthy_opt parent then template_opt parent ++ lit "-" else [])
      ++ template_opt name ++ lit "-" ++ of_N now ++ lit "."
      ++ template_opt type.

(* ===================================================================== *)
(** ** convertAttachments.ts: the target classifier *)
(* ===================================================================== *)

(** [isProbablyRemoteLink] *)
Definition isProbablyRemoteLink (target : str) : bool :=
  let t := trim target in
  startsWith (lit "http://") t
  || startsWith (lit "https://") t
  || startsWith (lit "data:") t
  || startsWith (lit "mailto:") t
  || startsWith (lit "file:") t.

Section Classifier.

(** [String.prototype.toLowerCase], the Unicode case conversion of the
    runtime, and [mimeType.includeEXT] of settings.ts, the membership test
    of the configured extension table. *)
Variable toLowerCase : str -> str.
Variable includeEXT : str -> bool.

(** [extractExtFromTarget] *)
Definition extractExtFromTarget (target : str) : option str :=
  let t := trim (split_first (ch "?") (split_first (ch "#") target)) in
  if negb (truthy t) then None
  else
    let last := default t (last (split (ch "/") t)) in
    match lastIndexOf (ch ".") last with
    | None => None
    | Some dot =>
        let ext := toLowerCase (slice_from (dot + 1) last) in
        if negb (truthy ext) then None else Some ext
    end.

(** [isAttachmentCandidate] *)
Definition isAttachmentCandidate (target : str) : bool :=
  match extractExtFromTarget target with
  | None => false
  | Some ext =>
      if str_eqb ext (lit "md") then false else includeEXT ext
  end.

End Classifier.

(* ===================================================================== *)
(** ** convertAttachments.ts: the reference scanner *)
(* ===================================================================== *)

Inductive RefKind := ObsidianEmbed | ObsidianLink | MdEmbed | MdLink.

#[global] Instance RefKind_eq_dec : EqDecision RefKind.
Proof. solve_decision. Defined.

(** [interface AttachmentRef]; [end] is a keyword here, hence [end_]. *)
Record AttachmentRef := mkRef {
  kind : RefKind;
  start : nat;
  end_ : nat;
  raw : str;
  target : str;
  label : option str;
  suffix : option str;
}.

(** [interface Replacement] *)
Record Replacement := mkReplacement {
  r_start : nat;
  r_end : nat;
  newText : str;
}.

(** [parseMarkdownDest], the title pattern
    [/^(.*?)(?:\s+(".*"|'.*'))\s*$/]: [title_tail] decides whether the text
    after group 1 is white space, a quoted title and white space up to the
    end of the input.  The opening quote is the first code unit after the
    white space, the closing one the last code unit before the trailing
    white space, and [.] matches no line terminator.  34 is the code unit
    of the double quote. *)
Definition quoted_title (s : str) : bool :=
  match s with
  | q :: s' =>
      ((q =? 34)%N || (q =? ch "'")%N)
      && match rev s' with
         | q' :: mid => (q' =? q)%N && forallb (fun c => negb (is_line_terminator c)) mid
         | [] => false
         end
  | [] => false
  end.

Definition title_tail (s : str) : bool :=
  match span is_space s with
  | (_ :: _, s') => quoted_title (trimEnd s')
  | ([], _) => false
  end.

(** Group 1 of the title pattern: lazy, so the shortest prefix (free of line
    terminators) after which [title_tail] holds. *)
Fixpoint match_title (d : str) : option str :=
  if title_tail d then Some []
  else match d with
       | [] => None
       | c :: d' =>
           if is_line_terminator c then None
           else option_map (cons c) (match_title d')
       end.

(** [/^([^#?]+)([?#].+)?$/]: groups 1 and 2. *)
Definition match_dest_suffix (d : str) : option (str * option str) :=
  let is_mark c := ((c =? ch "#") || (c =? ch "?"))%N in
  match span (fun c => negb (is_mark c)) d with
  | ([], _) => None
  | (pre, []) => Some (pre, None)
  | (pre, m :: tl) =>
      if truthy tl && forallb (fun c => negb (is_line_terminator c)) tl
      then Some (pre, Some (m :: tl))
      else None
  end.

(** [parseMarkdownDest]: [(dest, suffix)]. *)
Definition parseMarkdownDest (destRaw : str) : str * option str :=
  let d := trim destRaw in
  let d :=
    if startsWith (lit "<") d then
      match indexOf (ch ">") d with
      | Some close => slice 1 close d
      | None => d
      end
    else
      match match_title d with
      | Some g1 => if truthy g1 then g1 else d
      | None => d
      end in
  match match_dest_suffix d with
  | None => (d, None)
  | Some (dest, suffix) => (dest, suffix)
  end.

(** [parseObsidianLinkTarget]: [(linkpath, label)]. *)
Definition parseObsidianLinkTarget (inner : str) : str * option str :=
  let linkpath := trim inner in
  let '(linkpath, label) :=
    match indexOf (ch "|") linkpath with
    | Some pipeIdx =>
        let l := trim (slice_from (pipeIdx + 1) linkpath) in
        (trim (slice 0 pipeIdx linkpath), if truthy l then Some l else None)
    | None => (linkpath, None)
    end in
  (trim (split_first (ch "^") (split_first (ch "#") linkpath)), label).

(** One match of a pattern tried at one position: the captured groups and
    the length of [m[0]].  [prev] is the code unit before the position, for
    the look-behind [(?<!!)]. *)
Definition Matcher (G : Type) := option N -> str -> option (G * nat).

Definition not_bang (prev : option N) : bool :=
  match prev with Some c => negb (c =? ch "!")%N | None => true end.

(** [\[\[([^\]]+?)\]\]] at the head of [s]: the capture cannot hold a
    closing bracket, so the lazy repetition stops at the first one, which
    must be the first of two. *)
Definition wiki_body (s : str) : option (str * nat) :=
  if startsWith (lit "[[") s then
    let '(inner, rest) := span (fun c => negb (c =? ch "]")%N) (drop 2 s) in
    if truthy inner && startsWith (lit "]]") rest
    then Some (inner, 2 + length inner + 2)
    else None
  else None.

(** The markdown pattern at the head of [s]: an opening bracket, group 1
    [[^\]]*], a closing bracket, an opening parenthesis, group 2 [[^)]+]
    and a closing parenthesis.  Both repetitions are greedy over a class
    that excludes the delimiter that follows, so each takes the whole run up
    to that delimiter. *)
Definition md_body (s : str) : option ((str * str) * nat) :=
  if startsWith (lit "[") s then
    let '(text, rest) := span (fun c => negb (c =? ch "]")%N) (drop 1 s) in
    if startsWith (lit "](") rest then
      let '(dest, rest2) :=
        span (fun c => negb (c =? ch ")")%N) (drop 2 rest) in
      if truthy dest && startsWith (lit ")") rest2
      then Some ((text, dest), 1 + length text + 2 + length dest + 1)
      else None
    else None
  else None.

(** [/!\[\[([^\]]+?)\]\]/] *)
Definition re_obsidian_embed : Matcher str := fun _ s =>
  if startsWith (lit "!") s
  then option_map (fun '(g, n) => (g, 1 + n)) (wiki_body (drop 1 s))
  else None.

(** [/(?<!!)\[\[([^\]]+?)\]\]/] *)
Definition re_obsidian_link : Matcher str := fun prev s =>
  if not_bang prev then wiki_body s else None.

(** The pattern of markdown image embeds, [![alt](dest)]: a [!] and the
    markdown pattern. *)
Definition re_md_embed : Matcher (str * str) := fun _ s =>
  if startsWith (lit "!") s
  then option_map (fun '(g, n) => (g, 1 + n)) (md_body (drop 1 s))
  else None.

(** The pattern of markdown links, [[text](dest)]: the markdown pattern
    where no [!] precedes, [(?<!!)]. *)
Definition re_md_link : Matcher (str * str) := fun prev s =>
  if not_bang prev then md_body s else None.

(** The loop [while ((m = re.exec(content)) !== null)] of a global pattern:
    the leftmost match at or after [lastIndex], then [lastIndex] moves to
    its end.  [skip] counts the code units of the last match still to pass;
    the result lists [(m.index, m[0].length, groups)]. *)
Fixpoint exec_all {G} (re : Matcher G) (prev : option N) (pos skip : nat)
    (s : str) : list (nat * nat * G) :=
  match s with
  | [] => []
  | c :: s' =>
      match skip with
      | S k => exec_all re (Some c) (S pos) k s'
      | O =>
          match re prev s with
          | Some (g, len) =>
              (pos, len, g) :: exec_all re (Some c) (S pos) (len - 1) s'
          | None => exec_all re (Some c) (S pos) 0 s'
          end
      end
  end.

Definition obsidian_ref (k : RefKind) (content : str)
    (m : nat * nat * str) : AttachmentRef :=
  let '(index, len, inner) := m in
  let parsed := parseObsidianLinkTarget inner in
  {| kind := k; start := index; end_ := index + len;
     raw := slice index (index + len) content;
     target := fst parsed; label := snd parsed; suffix := None |}.

Definition md_ref (k : RefKind) (content : str)
    (m : nat * nat * (str * str)) : AttachmentRef :=
  let '(index, len, (text, destRaw)) := m in
  let parsed := parseMarkdownDest destRaw in
  {| kind := k; start := index; end_ := index + len;
     raw := slice index (index + len) content;
     target := fst parsed; label := Some text; suffix := snd parsed |}.

(** The comparator [(a, b) => a.start - b.start]. *)
Definition by_start_asc (a b : AttachmentRef) : Z :=
  (Z.of_nat (start a) - Z.of_nat (start b))%Z.

(** [extractAttachmentRefs] *)
Definition extractAttachmentRefs (content : str) : list AttachmentRef :=
  let refs :=
    List.map (obsidian_ref ObsidianEmbed content)
      (exec_all re_obsidian_embed None 0 0 content)
    ++ List.map (obsidian_ref ObsidianLink content)
      (exec_all re_obsidian_link None 0 0 content)
    ++ List.map (md_ref MdEmbed content)
      (exec_all re_md_embed None 0 0 content)
    ++ List.map (md_ref MdLink content)
      (exec_all re_md_link None 0 0 content) in
  sort by_start_asc refs.

(* ===================================================================== *)
(** ** convertAttachments.ts: options, report, host interface *)
(* ===================================================================== *)

Inductive ConvertScope := CurrentNote | CurrentFolder | EntireVault.
Inductive LinkMode := Proxy | Public.

Record ConvertAttachmentsOptions := mkOptions {
  scope : ConvertScope;
  dryRun : bool;
  makeBackup : bool;
  linkMode : LinkMode;
}.

Record ConvertReport := mkReport {
  notesScanned : nat;
  refsFound : nat;
  refsRemoteSkipped : nat;
  refsUnresolved : nat;
  attachmentsUnsupported : nat;
  uploadsAttempted : nat;
  uploadsSkippedAlreadyExists : nat;
  uploadsSucceeded : nat;
  uploadsFailed : nat;
  notesChanged : nat;
  linksRewritten : nat;
  backupCreated : nat;
  errors : list str;
  previewLines : list str;
}.

Definition empty_report : ConvertReport :=
  mkReport 0 0 0 0 0 0 0 0 0 0 0 0 [] [].

(** Obsidian's [TFile], the fields the code reads; [parent] is the path of
    the parent folder. *)
Record TFile := mkTFile {
  path : str;
  name : str;
  basename : str;
  extension : str;
  parent : option str;
}.

(** The rendering methods of [mimeType.getMethod]. *)
Inductive Method := Img | Iframe | Link.

(** A settled promise. *)
Inductive Res (A : Type) := Ok (a : A) | Err (e : str).
Arguments Ok {A} a.
Arguments Err {A} e.

(** [new File([bytes], name, { type })] *)
Record FileObj := mkFileObj {
  f_bytes : list Byte.byte;
  f_name : str;
  f_type : str;
}.

(** What the plugin calls outside this repository's files: the runtime,
    settings.ts ([mimeType]), Obsidian ([Vault], [MetadataCache],
    [Workspace]) and the S3 client of main.ts.  [W] is the state of that
    outside world; an asynchronous operation returns the settled promise
    and the next state. *)
Class Host (W : Type) := {
  toLowerCase : str -> str;
  includeEXT : str -> bool;
  getMIME : str -> str;
  getMethod : str -> Method;
  has_s3 : W -> bool;
  getActiveFile : W -> option TFile;
  getMarkdownFiles : W -> list TFile;
  vault_read : TFile -> W -> Res str * W;
  vault_readBinary : TFile -> W -> Res (list Byte.byte) * W;
  vault_copy : TFile -> str -> W -> Res unit * W;
  vault_modify : TFile -> str -> W -> Res unit * W;
  getAbstractFileByPath : str -> W -> bool;
  getFirstLinkpathDest : str -> str -> W -> option TFile;
  digest_sha1 : list Byte.byte -> W -> Res (list Byte.byte) * W;
  date_now : W -> N;
  publicBaseUrl : W -> option str;
  createPublicURL : str -> option str -> W -> option str;
  server_url : W -> str;
  createObjURL : str -> str -> W -> option str;
  objectExists : str -> W -> Res bool * W;
  upload : FileObj -> str -> W -> Res unit * W;
}.

(** The calls the model records, with their arguments and their results.
    [EvDigest], [EvObjectExists] and [EvUpload] also name the vault file
    they are made for. *)
Inductive Event :=
| EvNotice (msg : str)
| EvRead (note : TFile) (r : Res str)
| EvResolve (linkpath sourcePath : str) (r : option TFile)
| EvReadBinary (file : TFile) (r : Res (list Byte.byte))
| EvDigest (file : TFile) (buf : list Byte.byte) (r : Res (list Byte.byte))
| EvObjectExists (file : TFile) (fileName : str) (r : Res bool)
| EvUpload (file : TFile) (obj : FileObj) (fileName : str) (r : Res unit)
| EvCopy (note : TFile) (dest : str) (r : Res unit)
| EvModify (note : TFile) (data : str) (r : Res unit).

(* ===================================================================== *)
(** ** convertAttachments.ts: the replacement renderer *)
(* ===================================================================== *)

(** The double quote of the template literals. *)
Definition dq : str := [34%N].

Section Renderer.
Context {W : Type} `{Host W}.

(** [getMethodForFile] *)
Definition getMethodForFile (file : TFile) : Method :=
  getMethod (getMIME (extension file)).

(** The label of a rendered link: the trimmed label of the reference,
    or [resolved.basename] when that is empty or there is none. *)
Definition link_label (ref : AttachmentRef) (resolved : TFile) : str :=
  let l := trim (default [] (label ref)) in
  if truthy l then l else basename resolved.

(** [buildReplacement] *)
Definition buildReplacement (ref : AttachmentRef) (url : str)
    (resolved : TFile) : str :=
  let method := getMethodForFile resolved in
  let urlWithSuffix := url ++ default [] (suffix ref) in
  match method with
  | Iframe =>
      lit "<iframe src=" ++ dq ++ urlWithSuffix ++ dq
        ++ lit " alt=" ++ dq ++ name resolved ++ dq
        ++ lit " style=" ++ dq
        ++ lit "overflow:hidden;height:400;width:100%" ++ dq
        ++ lit " allowfullscreen></iframe>"
  | Img =>
      let alt :=
        if decide (kind ref = MdEmbed) then default [] (label ref) else [] in
      lit "![" ++ alt ++ lit "](" ++ urlWithSuffix ++ lit ")"
  | Link =>
      if decide (kind ref = MdLink) then
        lit "[" ++ link_label ref resolved ++ lit "](" ++ urlWithSuffix
          ++ lit ")"
      else if decide (kind ref = ObsidianLink) then
        lit "[" ++ link_label ref resolved ++ lit "](" ++ urlWithSuffix
          ++ lit ")"
      else urlWithSuffix
  end.

End Renderer.

(* ===================================================================== *)
(** ** convertAttachments.ts: the patch applier *)
(* ===================================================================== *)

(** The comparator [(a, b) => b.start - a.start]. *)
Definition by_start_desc (a b : Replacement) : Z :=
  (Z.of_nat (r_start b) - Z.of_nat (r_start a))%Z.

(** [next.slice(0, r.start) + r.newText + next.slice(r.end)] *)
Definition splice (next : str) (r : Replacement) : str :=
  slice 0 (r_start r) next ++ newText r ++ slice_from (r_end r) next.

(** The patching block of [convertAttachments]: sort by descending start,
    then splice each replacement into the text. *)
Definition apply_replacements (content : str)
    (replacements : list Replacement) : str :=
  fold_left splice (sort by_start_desc replacements) content.

(* ===================================================================== *)
(** ** convertAttachments.ts: updates of the report *)
(* ===================================================================== *)

(** [report.notesScanned += n] *)
Definition add_notesScanned (n : nat) (r : ConvertReport) : ConvertReport :=
  mkReport (notesScanned r + n) (refsFound r) (refsRemoteSkipped r)
    (refsUnresolved r) (attachmentsUnsupported r) (uploadsAttempted r)
    (uploadsSkippedAlreadyExists r) (uploadsSucceeded r) (uploadsFailed r)
    (notesChanged r) (linksRewritten r) (backupCreated r) (errors r)
    (previewLines r).

(** [report.refsFound += n] *)
Definition add_refsFound (n : nat) (r : ConvertReport) : ConvertReport :=
  mkReport (notesScanned r) (refsFound r + n) (refsRemoteSkipped r)
    (refsUnresolved r) (attachmentsUnsupported r) (uploadsAttempted r)
    (uploadsSkippedAlreadyExists r) (uploadsSucceeded r) (uploadsFailed r)
    (notesChanged r) (linksRewritten r) (backupCreated r) (errors r)
    (previewLines r).

(** [report.refsRemoteSkipped += n] *)
Definition add_refsRemoteSkipped (n : nat) (r : ConvertReport) : ConvertReport :=
  mkReport (notesScanned r) (refsFound r) (refsRemoteSkipped r + n)
    (refsUnresolved r) (attachmentsUnsupported r) (uploadsAttempted r)
    (uploadsSkippedAlreadyExists r) (uploadsSucceeded r) (uploadsFailed r)
    (notesChanged r) (linksRewritten r) (backupCreated r) (errors r)
    (previewLines r).

(** [report.refsUnresolved += n] *)
Definition add_refsUnresolved (n : nat) (r : ConvertReport) : ConvertReport :=
  mkReport (notesScanned r) (refsFound r) (refsRemoteSkipped r)
    (refsUnresolved r + n) (attachmentsUnsupported r) (uploadsAttempted r)
    (uploadsSkippedAlreadyExists r) (uploadsSucceeded r) (uploadsFailed r)
    (notesChanged r) (linksRewritten r) (backupCreated r) (errors r)
    (previewLines r).

(** [report.attachmentsUnsupported += n] *)
Definition add_attachmentsUnsupported (n : nat) (r : ConvertReport) : ConvertReport :=
  mkReport (notesScanned r) (refsFound r) (refsRemoteSkipped r)
    (refsUnresolved r) (attachmentsUnsupported r + n) (uploadsAttempted r)
    (uploadsSkippedAlreadyExists r) (uploadsSucceeded r) (uploadsFailed r)
    (notesChanged r) (linksRewritten r) (backupCreated r) (errors r)
    (previewLines r).

(** [report.uploadsAttempted += n] *)
Definition add_uploadsAttempted (n : nat) (r : ConvertReport) : ConvertReport :=
  mkReport (notesScanned r) (refsFound r) (refsRemoteSkipped r)
    (refsUnresolved r) (attachmentsUnsupported r) (uploadsAttempted r + n)
    (uploadsSkippedAlreadyExists r) (uploadsSucceeded r) (uploadsFailed r)
    (notesChanged r) (linksRewritten r) (backupCreated r) (errors r)
    (previewLines r).

(** [report.uploadsSkippedAlreadyExists += n] *)
Definition add_uploadsSkippedAlreadyExists (n : nat) (r : ConvertReport) : ConvertReport :=
  mkReport (notesScanned r) (refsFound r) (refsRemoteSkipped r)
    (refsUnresolved r) (attachmentsUnsupported r) (uploadsAttempted r)
    (uploadsSkippedAlreadyExists r + n) (uploadsSucceeded r)
    (uploadsFailed r) (notesChanged r) (linksRewritten r) (backupCreated r)
    (errors r) (previewLines r).

(** [report.uploadsSucceeded += n] *)
Definition add_uploadsSucceeded (n : nat) (r : ConvertReport) : ConvertReport :=
  mkReport (notesScanned r) (refsFound r) (refsRemoteSkipped r)
    (refsUnresolved r) (attachmentsUnsupported r) (uploadsAttempted r)
    (uploadsSkippedAlreadyExists r) (uploadsSucceeded r + n)
    (uploadsFailed r) (notesChanged r) (linksRewritten r) (backupCreated r)
    (errors r) (previewLines r).

(** [report.uploadsFailed += n] *)
Definition add_uploadsFailed (n : nat) (r : ConvertReport) : ConvertReport :=
  mkReport (notesScanned r) (refsFound r) (refsRemoteSkipped r)
    (refsUnresolved r) (attachmentsUnsupported r) (uploadsAttempted r)
    (uploadsSkippedAlreadyExists r) (uploadsSucceeded r)
    (uploadsFailed r + n) (notesChanged r) (linksRewritten r)
    (backupCreated r) (errors r) (previewLines r).

(** [report.notesChanged += n] *)
Definition add_notesChanged (n : nat) (r : ConvertReport) : ConvertReport :=
  mkReport (notesScanned r) (refsFound r) (refsRemoteSkipped r)
    (refsUnresolved r) (attachmentsUnsupported r) (uploadsAttempted r)
    (uploadsSkippedAlreadyExists r) (uploadsSucceeded r) (uploadsFailed r)
    (notesChanged r + n) (linksRewritten r) (backupCreated r) (errors r)
    (previewLines r).

(** [report.linksRewritten += n] *)
Definition add_linksRewritten (n : nat) (r : ConvertReport) : ConvertReport :=
  mkReport (notesScanned r) (refsFound r) (refsRemoteSkipped r)
    (refsUnresolved r) (attachmentsUnsupported r) (uploadsAttempted r)
    (uploadsSkippedAlreadyExists r) (uploadsSucceeded r) (uploadsFailed r)
    (notesChanged r) (linksRewritten r + n) (backupCreated r) (errors r)
    (previewLines r).

(** [report.backupCreated += n] *)
Definition add_backupCreated (n : nat) (r : ConvertReport) : ConvertReport :=
  mkReport (notesScanned r) (refsFound r) (refsRemoteSkipped r)
    (refsUnresolved r) (attachmentsUnsupported r) (uploadsAttempted r)
    (uploadsSkippedAlreadyExists r) (uploadsSucceeded r) (uploadsFailed r)
    (notesChanged r) (linksRewritten r) (backupCreated r + n) (errors r)
    (previewLines r).

(** [report.errors.push(x)] *)
Definition push_errors (x : str) (r : ConvertReport) : ConvertReport :=
  mkReport (notesScanned r) (refsFound r) (refsRemoteSkipped r)
    (refsUnresolved r) (attachmentsUnsupported r) (uploadsAttempted r)
    (uploadsSkippedAlreadyExists r) (uploadsSucceeded r) (uploadsFailed r)
    (notesChanged r) (linksRewritten r) (backupCreated r) (errors r ++ [x])
    (previewLines r).

(** [report.previewLines.push(x)] *)
Definition push_previewLines (x : str) (r : ConvertReport) : ConvertReport :=
  mkReport (notesScanned r) (refsFound r) (refsRemoteSkipped r)
    (refsUnresolved r) (attachmentsUnsupported r) (uploadsAttempted r)
    (uploadsSkippedAlreadyExists r) (uploadsSucceeded r) (uploadsFailed r)
    (notesChanged r) (linksRewritten r) (backupCreated r) (errors r)
    (previewLines r ++ [x]).

(* ===================================================================== *)
(** ** convertAttachments.ts: the batch orchestrator *)
(* ===================================================================== *)

Section Orchestrator.
Context {W : Type} `{Host W}.

(** The state of one run: the outside world, the report under
    construction, the map [resolvedUrlByVaultPath] and the calls made so
    far, oldest first. *)
Record Run := mkRun {
  world : W;
  report : ConvertReport;
  resolvedUrlByVaultPath : gmap str str;
  trace : list Event;
}.

Definition set_world (w : W) (st : Run) : Run :=
  mkRun w (report st) (resolvedUrlByVaultPath st) (trace st).
Definition upd_report (f : ConvertReport -> ConvertReport) (st : Run) : Run :=
  mkRun (world st) (f (report st)) (resolvedUrlByVaultPath st) (trace st).
Definition set_url (k v : str) (st : Run) : Run :=
  mkRun (world st) (report st) (<[k:=v]> (resolvedUrlByVaultPath st))
    (trace st).
Definition emit (e : Event) (st : Run) : Run :=
  mkRun (world st) (report st) (resolvedUrlByVaultPath st) (trace st ++ [e]).

(** An asynchronous host call: the world moves on and the call is
    recorded with its result. *)
Definition call {A} (op : W -> Res A * W) (ev : Res A -> Event) (st : Run)
    : Res A * Run :=
  let '(r, w) := op (world st) in (r, emit (ev r) (set_world w st)).

(** [listMarkdownFilesInFolder]; the [replace] drops the slashes at the
    end of [folderPath]. *)
Definition listMarkdownFilesInFolder (w : W) (folderPath : str)
    : list TFile :=
  let normalized :=
    rev (snd (span (fun c => (c =? ch "/")%N) (rev folderPath))) in
  List.filter (fun f => startsWith (normalized ++ lit "/") (path f))
    (getMarkdownFiles w).

(** [getScopeFiles] *)
Definition getScopeFiles (w : W) (sc : ConvertScope) : list TFile :=
  let active := getActiveFile w in
  match sc with
  | CurrentNote => match active with Some a => [a] | None => [] end
  | CurrentFolder =>
      match active with
      | Some a =>
          match parent a with
          | Some folder => listMarkdownFilesInFolder w folder
          | None => []
          end
      | None => []
      end
  | EntireVault => getMarkdownFiles w
  end.

(** The loop of [ensureBackup]: the first of [base], [base.1], [base.2],
    ... that names no file.  The loop of the source has no bound; [fuel]
    bounds the iterations here and [None] is its exhaustion. *)
Fixpoint backup_target (fuel : nat) (w : W) (base : str) (n : N)
    (target : str) : option str :=
  match fuel with
  | O => None
  | S fuel' =>
      if getAbstractFileByPath target w
      then backup_target fuel' w base (n + 1)
             (base ++ lit "." ++ of_N (n + 1))
      else Some target
  end.

(** [ensureBackup]: [None] when the fuel is exhausted. *)
Definition ensureBackup (fuel : nat) (note : TFile) (st : Run)
    : option (Res unit * Run) :=
  let base := path note ++ lit ".bak" in
  match backup_target fuel (world st) base 0 base with
  | None => None
  | Some target =>
      Some (call (vault_copy note target) (EvCopy note target) st)
  end.

(** [sha1Hex], computed for [file]. *)
Definition sha1Hex (file : TFile) (buf : list Byte.byte) (st : Run)
    : Res str * Run :=
  match call (digest_sha1 buf) (EvDigest file buf) st with
  | (Ok hashBuf, st) => (Ok (buf2hex hashBuf), st)
  | (Err e, st) => (Err e, st)
  end.

(** [buildS3FileNameForVaultFile]: [(fileName, bytes)]. *)
Definition buildS3FileNameForVaultFile (file : TFile) (st : Run)
    : Res (str * list Byte.byte) * Run :=
  match call (vault_readBinary file) (EvReadBinary file) st with
  | (Ok bytes, st) =>
      match sha1Hex file bytes st with
      | (Ok hash, st) =>
          (Ok (generateResourceName (date_now (world st)) (name file) None
                 (Some hash), bytes), st)
      | (Err e, st) => (Err e, st)
      end
  | (Err e, st) => (Err e, st)
  end.

Definition notice_no_public_base : str :=
  lit "S3: Public link mode requested but " ++ dq ++ lit "Public Base URL"
    ++ dq ++ lit " is not set. Falling back to local proxy links.".

(** [buildTargetUrl] *)
Definition buildTargetUrl (fileName : str) (mode : LinkMode) (st : Run)
    : option str * Run :=
  let w := world st in
  let proxy := createObjURL (server_url w) fileName w in
  match mode with
  | Public =>
      let u := createPublicURL fileName (publicBaseUrl w) w in
      if truthy_opt u then (u, st)
      else (proxy, emit (EvNotice notice_no_public_base) st)
  | Proxy => (proxy, st)
  end.

(** The text of the error pushed by the [catch] block; [e] is
    [String(e)]. *)
Definition upload_failed_message (resolved : TFile) (e : str) : str :=
  lit "Upload failed for " ++ path resolved ++ lit ": " ++ e.

(** The [catch] block of the upload step. *)
Definition upload_failed (resolved : TFile) (e : str) (st : Run) : Run :=
  upd_report
    (fun r =>
       push_errors (upload_failed_message resolved e) (add_uploadsFailed 1 r))
    st.

Definition no_target_url (resolved : TFile) (st : Run) : Run :=
  upd_report
    (push_errors (lit "Unable to create target URL for " ++ path resolved))
    st.

(** [url = targetUrl; resolvedUrlByVaultPath.set(resolved.path, url)] *)
Definition remember (resolved : TFile) (url : str) (st : Run)
    : option str * Run :=
  (Some url, set_url (path resolved) url st).

(** The [try] block run when the map has no URL for [resolved]: the URL
    to rewrite with, or [None] where the source says [continue]. *)
Definition upload_step (opts : ConvertAttachmentsOptions) (resolved : TFile)
    (st : Run) : option str * Run :=
  match buildS3FileNameForVaultFile resolved st with
  | (Err e, st) => (None, upload_failed resolved e st)
  | (Ok (fileName, bytes), st) =>
      match buildTargetUrl fileName (linkMode opts) st with
      | (None, st) => (None, no_target_url resolved st)
      | (Some targetUrl, st) =>
          if negb (truthy targetUrl) then (None, no_target_url resolved st)
          else
            match call (objectExists fileName)
                    (EvObjectExists resolved fileName) st with
            | (Err e, st) => (None, upload_failed resolved e st)
            | (Ok true, st) =>
                remember resolved targetUrl
                  (upd_report (add_uploadsSkippedAlreadyExists 1) st)
            | (Ok false, st) =>
                let st := upd_report (add_uploadsAttempted 1) st in
                if dryRun opts then remember resolved targetUrl st
                else
                  let mime := getMIME (extension resolved) in
                  let fileObj := mkFileObj bytes (name resolved) mime in
                  match call (upload fileObj fileName)
                          (EvUpload resolved fileObj fileName) st with
                  | (Err e, st) => (None, upload_failed resolved e st)
                  | (Ok _, st) =>
                      remember resolved targetUrl
                        (upd_report (add_uploadsSucceeded 1) st)
                  end
            end
      end
  end.

(** [let url = resolvedUrlByVaultPath.get(resolved.path); if (!url) ...] *)
Definition url_for (opts : ConvertAttachmentsOptions) (resolved : TFile)
    (st : Run) : option str * Run :=
  let url := resolvedUrlByVaultPath st !! path resolved in
  if truthy_opt url then (url, st) else upload_step opts resolved st.

(** The end of the loop body: render, and keep the replacement when the
    text changes. *)
Definition rewrite_ref (note : TFile) (ref : AttachmentRef) (url : str)
    (resolved : TFile) (acc : Run * list Replacement)
    : Run * list Replacement :=
  let '(st, replacements) := acc in
  let newText := buildReplacement ref url resolved in
  if negb (str_eqb newText (raw ref)) then
    (upd_report
       (fun r =>
          push_previewLines
            (lit "[REWRITE] " ++ path note ++ lit ": " ++ raw ref
               ++ lit " -> " ++ newText)
            (add_linksRewritten 1 r)) st,
     replacements ++ [mkReplacement (start ref) (end_ ref) newText])
  else acc.

(** The guard of the loop for a target that is empty or white space
    only. *)
Definition blank_target (ref : AttachmentRef) : bool :=
  negb (truthy (target ref)) || str_eqb (trim (target ref)) [].

(** The body of [for (const ref of refs)]. *)
Definition process_ref (opts : ConvertAttachmentsOptions) (note : TFile)
    (acc : Run * list Replacement) (ref : AttachmentRef)
    : Run * list Replacement :=
  let '(st, replacements) := acc in
  if blank_target ref then acc
  else if isProbablyRemoteLink (target ref) then
    (upd_report (add_refsRemoteSkipped 1) st, replacements)
  else
    let resolved := getFirstLinkpathDest (target ref) (path note) (world st) in
    let st := emit (EvResolve (target ref) (path note) resolved) st in
    match resolved with
    | None =>
        (upd_report
           (fun r =>
              push_previewLines
                (lit "[UNRESOLVED] " ++ path note ++ lit ": " ++ raw ref)
                (add_refsUnresolved 1 r)) st,
         replacements)
    | Some resolved =>
        if str_eqb (extension resolved) (lit "md")
           || negb (includeEXT (extension resolved))
        then (upd_report (add_attachmentsUnsupported 1) st, replacements)
        else
          match url_for opts resolved st with
          | (None, st) => (st, replacements)
          | (Some url, st) =>
              rewrite_ref note ref url resolved (st, replacements)
          end
    end.

(** Why a run stops before its report is returned: a rejected promise
    outside the [try] block, or the fuel of [ensureBackup]. *)
Inductive Abort := Throw (e : str) | NoFuel.

(** [refs]: the scanned references that look like attachments. *)
Definition candidate_refs (content : str) : list AttachmentRef :=
  List.filter (fun r => isAttachmentCandidate toLowerCase includeEXT (target r))
    (extractAttachmentRefs content).

(** The end of the loop body of a note: backup and write. *)
Definition persist (fuel : nat) (opts : ConvertAttachmentsOptions)
    (note : TFile) (next : str) (st : Run) : Run * option Abort :=
  let write (st : Run) :=
    match call (vault_modify note next) (EvModify note next) st with
    | (Err e, st) => (st, Some (Throw e))
    | (Ok _, st) => (upd_report (add_notesChanged 1) st, None)
    end in
  if dryRun opts then (st, None)
  else if makeBackup opts then
    match ensureBackup fuel note st with
    | None => (st, Some NoFuel)
    | Some (Err e, st) => (st, Some (Throw e))
    | Some (Ok _, st) => write (upd_report (add_backupCreated 1) st)
    end
  else write st.

(** The body of [for (const note of scopeFiles)]. *)
Definition process_note (fuel : nat) (opts : ConvertAttachmentsOptions)
    (st : Run) (note : TFile) : Run * option Abort :=
  let st := upd_report (add_notesScanned 1) st in
  match call (vault_read note) (EvRead note) st with
  | (Err e, st) => (st, Some (Throw e))
  | (Ok content, st) =>
      let refs := candidate_refs content in
      let st := upd_report (add_refsFound (length refs)) st in
      let '(st, replacements) :=
        fold_left (process_ref opts note) refs (st, []) in
      if length replacements =? 0 then (st, None)
      else persist fuel opts note (apply_replacements content replacements) st
  end.

Fixpoint process_notes (fuel : nat) (opts : ConvertAttachmentsOptions)
    (notes : list TFile) (st : Run) : Run * option Abort :=
  match notes with
  | [] => (st, None)
  | note :: rest =>
      match process_note fuel opts st note with
      | (st, None) => process_notes fuel opts rest st
      | (st, Some a) => (st, Some a)
      end
  end.

(** How a call of [convertAttachments] ends. *)
Inductive Outcome :=
| Returned (r : ConvertReport)
| Rejected (e : str)
| OutOfFuel.

Definition str_of_nat (n : nat) : str := of_N (N.of_nat n).

Definition final_notice (opts : ConvertAttachmentsOptions)
    (r : ConvertReport) : str :=
  if dryRun opts then
    lit "S3 dry-run: scanned " ++ str_of_nat (notesScanned r)
      ++ lit " notes, would rewrite " ++ str_of_nat (linksRewritten r)
      ++ lit " links."
  else
    lit "S3: scanned " ++ str_of_nat (notesScanned r) ++ lit " notes, rewrote "
      ++ str_of_nat (linksRewritten r) ++ lit " links, uploaded "
      ++ str_of_nat (uploadsSucceeded r) ++ lit " files.".

(** [convertAttachments]: the outcome and the final state of the run. *)
Definition convertAttachments (fuel : nat) (opts : ConvertAttachmentsOptions)
    (w : W) : Outcome * Run :=
  let st := mkRun w empty_report ∅ [] in
  if negb (has_s3 w) then
    (Returned (report st),
     emit (EvNotice (lit "S3: No active S3 client. Check your settings.")) st)
  else
    let scopeFiles := getScopeFiles w (scope opts) in
    if length scopeFiles =? 0 then
      (Returned (report st),
       emit (EvNotice (lit "S3: No notes found for the chosen scope.")) st)
    else
      match process_notes fuel opts scopeFiles st with
      | (st, Some (Throw e)) => (Rejected e, st)
      | (st, Some NoFuel) => (OutOfFuel, st)
      | (st, None) =>
          (Returned (report st),
           emit (EvNotice (final_notice opts (report st))) st)
      end.

End Orchestrator.

Arguments Run W : clear implicits.
Arguments process_ref : simpl never.
Arguments process_note : simpl never.
Arguments persist : simpl never.
Arguments upload_step : simpl never.
Arguments rewrite_ref : simpl never.
Arguments candidate_refs : simpl never.

(* ===================================================================== *)
(** ** A small concrete host, for running the model *)
(* ===================================================================== *)

Module Demo.

(** A vault of notes and of attachments without content, a bucket, and a
    number of uploads that are going to reject before the client works. *)
Record World := mkWorld {
  notes : list (TFile * str);
  attachments : list TFile;
  bucket : list str;
  failing_uploads : nat;
  active : option TFile;
}.

Definition ascii_lower (s : str) : str :=
  List.map (fun c => if ((65 <=? c) && (c <=? 90))%N then (c + 32)%N else c) s.

(** The default table of the README. *)
Definition inline_exts : list str :=
  List.map lit ["ico"; "png"; "jpg"; "jpeg"; "gif"; "svg"; "mp3"; "wav";
                "mp4"; "webm"]%string.
Definition link_exts : list str := List.map lit ["pdf"; "zip"; "doc"]%string.

Definition mem (x : str) (l : list str) : bool := existsb (str_eqb x) l.

(** SHA-1 of the empty input. *)
Definition sha1_empty : list Byte.byte :=
  [Byte.xda; Byte.x39; Byte.xa3; Byte.xee; Byte.x5e; Byte.x6b; Byte.x4b;
   Byte.x0d; Byte.x32; Byte.x55; Byte.xbf; Byte.xef; Byte.x95; Byte.x60;
   Byte.x18; Byte.x90; Byte.xaf; Byte.xd8; Byte.x07; Byte.x09].

Definition find_note (p : str) (w : World) : option str :=
  snd <$> List.find (fun n => str_eqb (path (fst n)) p) (notes w).

Definition write_note (f : TFile) (data : str) (w : World) : World :=
  mkWorld
    ((f, data) :: List.filter (fun n => negb (str_eqb (path (fst n)) (path f)))
                    (notes w))
    (attachments w) (bucket w) (failing_uploads w) (active w).

#[global] Instance demo_host : Host World := {|
  toLowerCase := ascii_lower;
  includeEXT ext := mem ext inline_exts || mem ext link_exts;
  getMIME ext := ext;
  getMethod mime := if mem mime inline_exts then Img else Link;
  has_s3 _ := true;
  getActiveFile := active;
  getMarkdownFiles w := List.map fst (notes w);
  vault_read f w :=
    (match find_note (path f) w with
     | Some text => Ok text
     | None => Err (lit "ENOENT")
     end, w);
  vault_readBinary f w :=
    (if existsb (fun a => str_eqb (path a) (path f)) (attachments w)
     then Ok [] else Err (lit "ENOENT"), w);
  vault_copy f dest w :=
    match find_note (path f) w with
    | Some text =>
        (Ok tt, write_note (mkTFile dest dest dest (lit "bak") (parent f)) text w)
    | None => (Err (lit "ENOENT"), w)
    end;
  vault_modify f data w := (Ok tt, write_note f data w);
  getAbstractFileByPath p w :=
    existsb (fun n => str_eqb (path (fst n)) p) (notes w)
    || existsb (fun a => str_eqb (path a) p) (attachments w);
  getFirstLinkpathDest linkpath _ w :=
    List.find (fun a => str_eqb (name a) linkpath || str_eqb (path a) linkpath)
      (attachments w);
  digest_sha1 data w :=
    (match data with
     | [] => Ok sha1_empty
     | _ :: _ => Err (lit "NotSupportedError")
     end, w);
  date_now _ := 0%N;
  publicBaseUrl _ := None;
  createPublicURL _ _ _ := None;
  server_url _ := lit "http://localhost:4998";
  createObjURL origin fileName _ := Some (origin ++ lit "/" ++ fileName);
  objectExists fileName w := (Ok (mem fileName (bucket w)), w);
  upload _ fileName w :=
    match failing_uploads w with
    | S k =>
        (Err (lit "NetworkError"),
         mkWorld (notes w) (attachments w) (bucket w) k (active w))
    | O =>
        (Ok tt,
         mkWorld (notes w) (attachments w) (fileName :: bucket w) 0 (active w))
    end;
|}.

Definition file (p : string) (ext : string) : TFile :=
  let nm := lit p ++ lit "." ++ lit ext in
  mkTFile nm nm (lit p) (lit ext) None.

Definition opts_run : ConvertAttachmentsOptions :=
  mkOptions EntireVault false true Proxy.

End Demo.

(* ===================================================================== *)
(** ** Words of the specification, as definitions *)
(* ===================================================================== *)

(** The number of occurrences of the code unit [c]. *)
Definition count_of (c : N) (s : str) : nat :=
  length (List.filter (N.eqb c) s).

(** The text after the last [c] of [s], if [s] has one. *)
Fixpoint after_last (c : N) (s : str) : option str :=
  match s with
  | [] => None
  | x :: s' =>
      match after_last c s' with
      | Some r => Some r
      | None => if (x =? c)%N then Some s' else None
      end
  end.

(** The target without its fragment or query: the text before the first
    [#] or [?]. *)
Fixpoint strip_fragment_query (s : str) : str :=
  match s with
  | [] => []
  | x :: s' =>
      if ((x =? ch "#") || (x =? ch "?"))%N then []
      else x :: strip_fragment_query s'
  end.

(** The last path segment: the text after the last [/], or everything. *)
Definition last_segment (s : str) : str :=
  default s (after_last (ch "/") s).

(** The extension as the specification words it: of the last path segment
    of the target without fragment and query, lowercased; a missing or
    empty one is no extension. *)
Definition spec_extension (toLower : str -> str) (target : str)
    : option str :=
  match after_last (ch ".") (last_segment (trim (strip_fragment_query target)))
  with
  | Some e => if truthy (toLower e) then Some (toLower e) else None
  | None => None
  end.

(** A replacement span of a text: a non-empty range [[start, end)] of it. *)
Definition span_ok (content : str) (r : Replacement) : Prop :=
  r_start r < r_end r <= length content.

(** Two spans do not overlap. *)
Definition disjoint (a b : Replacement) : Prop :=
  r_end a <= r_start b \/ r_end b <= r_start a.

(** The index [i] lies in the span of [r]. *)
Definition inside (i : nat) (r : Replacement) : Prop :=
  r_start r <= i < r_end r.

Definition span_length (r : Replacement) : nat := r_end r - r_start r.
Definition new_length (r : Replacement) : nat := length (newText r).

(** Only the spans that end at or before [i] count. *)
Definition before (i : nat) (f : Replacement -> nat) (r : Replacement)
    : nat :=
  if decide (r_end r <= i) then f r else 0.

(** Where the code unit at index [i] of the original text is found in the
    patched text: every span before it has been exchanged for its new
    text. *)
Definition new_index (reps : list Replacement) (i : nat) : nat :=
  i + sum_list_with (before i new_length) reps
    - sum_list_with (before i span_length) reps.

(** The patched text, built from the spans in descending order: the text
    before the first span of the list patched with the others, its new
    text, and the text behind it. *)
Fixpoint patch_desc (rs : list Replacement) (text : str) : str :=
  match rs with
  | [] => text
  | r :: rs' =>
      patch_desc rs' (take (r_start r) text) ++ newText r
        ++ drop (r_end r) text
  end.

(** Spans in descending order, each ending where the one before it in
    the list starts, or earlier. *)
Definition chain (rs : list Replacement) : Prop :=
  ForallOrdPairs (fun a b => r_end b <= r_start a) rs.

Definition m_index {G} (m : nat * nat * G) : nat := fst (fst m).
Definition m_length {G} (m : nat * nat * G) : nat := snd (fst m).

(** The references of one kind, as the scanner lists them before it
    sorts: spans that are not empty and that follow each other. *)
Definition one_scan (k : RefKind) (l : list AttachmentRef) : Prop :=
  Forall (fun r => kind r = k /\ start r < end_ r) l
  /\ ForallOrdPairs (fun a b => end_ a <= start b) l.

(** References of one kind have spans apart from each other. *)
Definition same_kind_apart (a b : AttachmentRef) : Prop :=
  kind a = kind b -> end_ a <= start b \/ end_ b <= start a.

(** The schemes of the specification, and a target that begins with one
    of them as it is written. *)
Definition remote_schemes : list str :=
  List.map lit ["http://"; "https://"; "data:"; "mailto:"; "file:"]%string.

Definition begins_remote (t : str) : bool :=
  existsb (fun p => startsWith p t) remote_schemes.

(** The label of a rendered link, in the words of the specification: the
    label of the reference, trimmed, unless that is empty; then the base
    name of the file. *)
Definition spec_label (ref : AttachmentRef) (resolved : TFile) : str :=
  let l := trim (default [] (label ref)) in
  if decide (l = []) then basename resolved else l.

(* ===================================================================== *)
(** ** Reading the record of calls *)
(* ===================================================================== *)

Definition count (f : Event -> bool) (tr : list Event) : nat :=
  length (List.filter f tr).

(** A call of the hashing and upload step that rejects, and what it
    rejects with. *)
Definition rejection (e : Event) : option str :=
  match e with
  | EvReadBinary _ (Err x) | EvDigest _ _ (Err x)
  | EvObjectExists _ _ (Err x) | EvUpload _ _ _ (Err x) => Some x
  | _ => None
  end.

Definition rejected_call (e : Event) : bool :=
  match rejection e with Some _ => true | None => false end.

(** The bucket answers that it has no such object. *)
Definition absent_answer (e : Event) : bool :=
  match e with EvObjectExists _ _ (Ok false) => true | _ => false end.



(** A notice shown to the user. *)
Definition is_notice (e : Event) : bool :=
  match e with EvNotice _ => true | _ => false end.

Definition upload_ok (e : Event) : bool :=
  match e with EvUpload _ _ _ (Ok _) => true | _ => false end.

Definition modify_ok (e : Event) : bool :=
  match e with EvModify _ _ (Ok _) => true | _ => false end.

Definition copy_ok (e : Event) : bool :=
  match e with EvCopy _ _ (Ok _) => true | _ => false end.

(** An upload, a write of a note or a backup copy. *)
Definition is_write (e : Event) : bool :=
  match e with
  | EvUpload _ _ _ _ | EvModify _ _ _ | EvCopy _ _ _ => true
  | _ => false
  end.

Definition is_read (e : Event) : bool :=
  match e with EvRead _ _ => true | _ => false end.

(** The resolver is asked about a remote target. *)
Definition resolves_remote (e : Event) : bool :=
  match e with EvResolve l _ _ => isProbablyRemoteLink l | _ => false end.

(** A hash computation for the file stored at [p]. *)
Definition hash_for (p : str) (e : Event) : bool :=
  match e with EvDigest f _ _ => str_eqb (path f) p | _ => false end.

(** An upload call for the file stored at [p], and one that succeeds. *)
Definition upload_for (p : str) (e : Event) : bool :=
  match e with EvUpload f _ _ _ => str_eqb (path f) p | _ => false end.

Definition upload_ok_for (p : str) (e : Event) : bool :=
  match e with EvUpload f _ _ (Ok _) => str_eqb (path f) p | _ => false end.

(** Any call of the hashing and upload step for the file stored at [p]. *)
Definition touches (p : str) (e : Event) : bool :=
  match e with
  | EvReadBinary f _ | EvDigest f _ _ | EvUpload f _ _ _ =>
      str_eqb (path f) p
  | _ => false
  end.

(** A call that no counter of [Accounts] counts. *)
Definition untracked (e : Event) : bool :=
  match e with
  | EvNotice _ | EvRead _ _ => true
  | EvResolve l _ _ => negb (isProbablyRemoteLink l)
  | _ => false
  end.

(** The rejection that ends a run: of a read, a backup copy or a write. *)
Definition abort_cause (e : Event) : option str :=
  match e with
  | EvRead _ (Err x) | EvCopy _ _ (Err x) | EvModify _ _ (Err x) => Some x
  | _ => None
  end.

Section AccountsDef.
Context {W : Type} `{Host W}.
Variable opts : ConvertAttachmentsOptions.

(** The references of the notes read that pass the candidate filter and
    have a remote target. *)
Definition remote_refs (content : str) : list AttachmentRef :=
  List.filter (fun r => isProbablyRemoteLink (target r)) (candidate_refs content).

Fixpoint remote_read (tr : list Event) : nat :=
  match tr with
  | [] => 0
  | EvRead _ (Ok content) :: tr' => length (remote_refs content) + remote_read tr'
  | _ :: tr' => remote_read tr'
  end.

(** 1 when the file stored at [p] has no URL in the map of [st] and has
    one in the map of [st'], 0 otherwise. *)
Definition gets_url (st st' : Run W) (p : str) : nat :=
  if truthy_opt (resolvedUrlByVaultPath st !! p) then 0
  else if truthy_opt (resolvedUrlByVaultPath st' !! p) then 1 else 0.

(** What a part of a run that goes from [st] to [st'] with the calls [d]
    and [k] remote references skipped keeps true: the counters of the
    report count the calls, the resolver is asked about no remote
    target, a dry run writes nothing, and a file with a URL in the map
    keeps it and is neither hashed nor uploaded again; a file is hashed
    and uploaded once more than steps have failed, at most, and only when
    it gets its URL. *)
Record Accounts (st : Run W) (d : list Event) (k : nat) (st' : Run W) : Prop := {
  acc_trace : trace st' = trace st ++ d;
  acc_remote :
    refsRemoteSkipped (report st') = refsRemoteSkipped (report st) + k;
  acc_failed :
    uploadsFailed (report st')
    = uploadsFailed (report st) + count rejected_call d;
  acc_attempted :
    uploadsAttempted (report st')
    = uploadsAttempted (report st) + count absent_answer d;
  acc_succeeded :
    uploadsSucceeded (report st')
    = uploadsSucceeded (report st) + count upload_ok d;
  acc_changed :
    notesChanged (report st') = notesChanged (report st) + count modify_ok d;
  acc_backup :
    backupCreated (report st') = backupCreated (report st) + count copy_ok d;
  acc_resolve : count resolves_remote d = 0;
  acc_dry : dryRun opts = true -> count is_write d = 0;
  acc_once : forall p, count (upload_ok_for p) d <= 1;
  acc_fresh : forall p,
    count (upload_ok_for p) d = 1 ->
    truthy_opt (resolvedUrlByVaultPath st !! p) = false
    /\ truthy_opt (resolvedUrlByVaultPath st' !! p) = true;
  acc_kept : forall p,
    truthy_opt (resolvedUrlByVaultPath st !! p) = true ->
    resolvedUrlByVaultPath st' !! p = resolvedUrlByVaultPath st !! p
    /\ count (touches p) d = 0;
  acc_hash : forall p,
    count (hash_for p) d + length (errors (report st))
    <= length (errors (report st')) + gets_url st st' p;
  acc_upload : forall p,
    count (upload_for p) d <= count rejected_call d + gets_url st st' p;
}.


End AccountsDef.

(* ===================================================================== *)
(** ** Concrete vaults and texts *)
(* ===================================================================== *)

Module Examples.
Import Demo.

Definition note1 : TFile := file "n1" "md".
Definition photo : TFile := file "photo" "png".
Definition archive : TFile := file "archive" "zip".

(** One note with two embeds of the same picture; the next [k] uploads
    reject. *)
Definition two_embeds : str := lit "![[photo.png]] ![[photo.png]]".
Definition vault_two (k : nat) : World :=
  mkWorld [(note1, two_embeds)] [photo] [] k None.



(** One note with a markdown link to a web page. *)
Definition web_link : str := lit "[site](https://example.com/page)".
Definition vault_web : World := mkWorld [(note1, web_link)] [] [] 0 None.

(** One note with a remote picture and a local one. *)
Definition mixed : str :=
  lit "![r](https://example.com/a.png) and ![[photo.png]]".
Definition vault_mixed : World := mkWorld [(note1, mixed)] [photo] [] 0 None.

(** A markdown link whose destination holds a wiki link. *)
Definition nested : str := lit "[x]([[a.png]])".

(** The reference scanned from [![[archive.zip]]]. *)
Definition embed_zip : AttachmentRef :=
  mkRef ObsidianEmbed 0 16 (lit "![[archive.zip]]") (lit "archive.zip")
    None None.

(** The reference scanned from [![[photo.png]]]. *)
Definition embed_photo : AttachmentRef :=
  mkRef ObsidianEmbed 0 14 (lit "![[photo.png]]") (lit "photo.png") None None.

(** A text with two references, and their replacements in the order of
    discovery. *)
Definition two_refs : str := lit "see ![[a.png]] and [[b.pdf]].".
Definition two_replacements : list Replacement :=
  [mkReplacement 4 14 (lit "![](u/a.png)");
   mkReplacement 19 28 (lit "[b](u/b.pdf)")].

End Examples.

Import Examples.

(* ===================================================================== *)
(** ** helper.ts: the index of the S3 URLs of the vault *)
(* ===================================================================== *)

(** The code unit of the backslash. *)
Definition backslash : N := 92%N.

(** The class of [escapeRegExp], which is the set of the syntax characters
    of a pattern: the dot, the star, the plus, the question mark, the
    caret, the dollar, the braces, the parentheses, the bar, the square
    brackets and the backslash. *)
Definition is_syntax_char (c : N) : bool :=
  existsb (N.eqb c)
    (lit ".*+?^$" ++ lit "{}" ++ lit "()" ++ lit "|[]" ++ [backslash]).

(** [escapeRegExp]: a backslash before every syntax character. *)
Definition escapeRegExp (s : str) : str :=
  flat_map (fun c => if is_syntax_char c then [backslash; c] else [c]) s.

(** How [new RegExp] reads a pattern made of pattern characters and of
    identity escapes of a syntax character or of the slash: the text it
    matches.  [None] is a pattern with any other syntax. *)
Fixpoint pattern_literal (p : str) : option str :=
  match p with
  | [] => Some []
  | c :: p' =>
      if (c =? backslash)%N then
        match p' with
        | e :: p'' =>
            if is_syntax_char e || (e =? ch "/")%N
            then cons e <$> pattern_literal p''
            else None
        | [] => None
        end
      else if is_syntax_char c then None
      else cons c <$> pattern_literal p'
  end.

(** The class of the end of the pattern, a negated one: neither a double
    quote, nor a closing bracket or parenthesis, nor white space. *)
Definition url_char (c : N) : bool :=
  negb ((c =? 34)%N || (c =? ch "]")%N || (c =? ch ")")%N || is_space c).

(** The pattern of [matchS3URLs] for the literal text [base]: the text, a
    slash, and the longest run of the class. *)
Definition re_s3 (base : str) : Matcher unit := fun _ s =>
  if startsWith (base ++ lit "/") s then
    let n := length base + 1 in
    Some (tt, n + length (fst (span url_char (drop n s))))
  else None.

(** [new RegExp(safe + tail, 'g')], where [tail] is the escaped slash and
    the starred class. *)
Definition s3_pattern (safe : str) : option (Matcher unit) :=
  re_s3 <$> pattern_literal safe.

(** [s.replace(/\/+$/, '')]: the text without the slashes at its end. *)
Definition strip_slashes (s : str) : str :=
  rev (snd (span (fun c => (c =? ch "/")%N) (rev s))).

(** [content.match(reg)] for a global pattern: the texts of all matches;
    [null], which the caller skips, is the empty list here. *)
Definition match_all {G} (reg : Matcher G) (content : str) : list str :=
  List.map (fun m => slice (m_index m) (m_index m + m_length m) content)
    (exec_all reg None 0 0 content).

(** [matchS3URLs]; [None] when a pattern is outside what [pattern_literal]
    reads. *)
Fixpoint matchS3URLs (content : str) (baseUrls : list str)
    : option (list str) :=
  match baseUrls with
  | [] => Some []
  | baseUrl :: rest =>
      if negb (truthy baseUrl) then matchS3URLs content rest
      else
        match s3_pattern (escapeRegExp (strip_slashes baseUrl)) with
        | Some reg => app (match_all reg content) <$> matchS3URLs content rest
        | None => None
        end
  end.

(** [[...new Set(xs)]]: the values in the order of their first
    insertion. *)
Definition set_values (xs : list str) : list str :=
  fold_left (fun acc x => if bool_decide (x ∈ acc) then acc else acc ++ [x])
    xs [].

Section Index.
Context {W : Type} `{Host W}.

(** The loop of [getS3URLs]: [obsidianIndex] grows with the matches of
    each file read; a rejected read rejects the call. *)
Fixpoint collect_urls (files : list TFile) (baseUrls : list str)
    (obsidianIndex : list str) (w : W) : option (Res (list str) * W) :=
  match files with
  | [] => Some (Ok obsidianIndex, w)
  | f :: rest =>
      match vault_read f w with
      | (Err e, w) => Some (Err e, w)
      | (Ok content, w) =>
          match matchS3URLs content baseUrls with
          | Some urls => collect_urls rest baseUrls (obsidianIndex ++ urls) w
          | None => None
          end
      end
  end.

(** [getS3URLs] *)
Definition getS3URLs (files : list TFile) (baseUrls : list str) (w : W)
    : option (Res (list str) * W) :=
  match collect_urls files baseUrls [] w with
  | Some (Ok obsidianIndex, w) => Some (Ok (set_values obsidianIndex), w)
  | Some (Err e, w) => Some (Err e, w)
  | None => None
  end.

(** The texts of the files as the vault gives them, one read after the
    other. *)
Fixpoint read_all (files : list TFile) (w : W) : Res (list str) * W :=
  match files with
  | [] => (Ok [], w)
  | f :: rest =>
      match vault_read f w with
      | (Err e, w) => (Err e, w)
      | (Ok content, w) =>
          match read_all rest w with
          | (Ok contents, w) => (Ok (content :: contents), w)
          | (Err e, w) => (Err e, w)
          end
      end
  end.

End Index.

(** A lower-case hexadecimal digit. *)
Definition lower_hex (c : N) : bool :=
  ((48 <=? c) && (c <=? 57) || (97 <=? c) && (c <=? 102))%N.

(** The code unit before index [i] of [s], for the look-behind of a
    pattern tried there; [prev] is the one before the whole of [s]. *)
Definition prev_at (prev : option N) (s : str) (i : nat) : option N :=
  match i with O => prev | S j => s !! j end.

(** [u] is a URL of the base [baseUrl] in [content]: the base without
    the slashes at its end, a slash and a run of the class that goes on to
    the end of the text or to a code unit outside the class. *)
Definition s3_url_of (content baseUrl u : str) : Prop :=
  exists tail pre post,
    u = strip_slashes baseUrl ++ lit "/" ++ tail
    /\ Forall (fun c => url_char c = true) tail
    /\ content = pre ++ u ++ post
    /\ match post with [] => True | c :: _ => url_char c = false end.

(** A text with no white space at its start and none at its end. *)
Definition no_outer_space (s : str) : bool :=
  match s with [] => true | c :: _ => negb (is_space c) end
  && match rev s with [] => true | c :: _ => negb (is_space c) end.

(** The hash and the question mark, where a fragment or a query begins. *)
Definition is_mark (c : N) : bool := ((c =? ch "#") || (c =? ch "?"))%N.

(** The span of a reference is a range of the text that is not empty, and
    [raw] is the text of that range. *)
Definition ref_in_range (content : str) (r : AttachmentRef) : Prop :=
  start r < end_ r <= length content
  /\ content = take (start r) content ++ raw r ++ drop (end_ r) content.

(** The syntax of a reference of each kind: what [raw] is made of, where
    the other fields come from, and what stands before a link. *)
Definition ref_syntax (content : str) (r : AttachmentRef) : Prop :=
  match kind r with
  | ObsidianEmbed =>
      exists inner,
        raw r = lit "![[" ++ inner ++ lit "]]"
        /\ inner <> [] /\ (ch "]" ∉ inner)
        /\ (target r, label r) = parseObsidianLinkTarget inner
        /\ suffix r = None
  | ObsidianLink =>
      exists inner,
        raw r = lit "[[" ++ inner ++ lit "]]"
        /\ inner <> [] /\ (ch "]" ∉ inner)
        /\ (target r, label r) = parseObsidianLinkTarget inner
        /\ suffix r = None
        /\ prev_at None content (start r) <> Some (ch "!")
  | MdEmbed =>
      exists text dest,
        raw r = lit "![" ++ text ++ lit "](" ++ dest ++ lit ")"
        /\ (ch "]" ∉ text) /\ dest <> [] /\ (ch ")" ∉ dest)
        /\ label r = Some text
        /\ (target r, suffix r) = parseMarkdownDest dest
  | MdLink =>
      exists text dest,
        raw r = lit "[" ++ text ++ lit "](" ++ dest ++ lit ")"
        /\ (ch "]" ∉ text) /\ dest <> [] /\ (ch ")" ∉ dest)
        /\ label r = Some text
        /\ (target r, suffix r) = parseMarkdownDest dest
        /\ prev_at None content (start r) <> Some (ch "!")
  end.

(** The names that [ensureBackup] tries, in order: [base], [base.1],
    [base.2], ... *)
Definition backup_name (base : str) (k : N) : str :=
  if (k =? 0)%N then base else base ++ lit "." ++ of_N k.

(** ** More readings of the record of calls *)

Definition is_resolve (e : Event) : bool :=
  match e with EvResolve _ _ _ => true | _ => false end.

(** The resolver finds no file. *)
Definition unresolved (e : Event) : bool :=
  match e with EvResolve _ _ None => true | _ => false end.

(** The bucket answers that it has the object. *)
Definition present_answer (e : Event) : bool :=
  match e with EvObjectExists _ _ (Ok true) => true | _ => false end.

Definition is_upload (e : Event) : bool :=
  match e with EvUpload _ _ _ _ => true | _ => false end.

Definition is_copy (e : Event) : bool :=
  match e with EvCopy _ _ _ => true | _ => false end.

(** The notes read, in the order of the reads. *)
Definition reads (tr : list Event) : list TFile :=
  omap (fun e => match e with EvRead note _ => Some note | _ => None end) tr.

(** The calls made for the references of a note: none of them reads,
    copies or writes a note. *)
Definition ref_event (e : Event) : bool :=
  match e with
  | EvRead _ _ | EvCopy _ _ _ | EvModify _ _ _ => false
  | _ => true
  end.

Section LedgerDef.
Context {W : Type} `{Host W}.
Variable opts : ConvertAttachmentsOptions.

(** The test of the loop on the file that the resolver returns. *)
Definition unsupported_file (f : TFile) : bool :=
  str_eqb (extension f) (lit "md") || negb (includeEXT (extension f)).

(** The resolver finds a file that is a note or has no supported type. *)
Definition unsupported (e : Event) : bool :=
  match e with EvResolve _ _ (Some f) => unsupported_file f | _ => false end.

(** The candidate references of the texts read. *)
Fixpoint found (tr : list Event) : nat :=
  match tr with
  | [] => 0
  | EvRead _ (Ok content) :: tr' => length (candidate_refs content) + found tr'
  | _ :: tr' => found tr'
  end.

(** The calls of an upload: the bytes read from the file, the digest
    computed of those bytes, the answer of the bucket that it has no
    object of the name made of the digest, and the upload of those bytes
    under that name; only notices come between. *)
Definition upload_window (f : TFile) (obj : FileObj) (fileName : str)
    (r : Res unit) (win : list Event) : Prop :=
  exists bytes h notices now,
    win = [EvReadBinary f (Ok bytes); EvDigest f bytes (Ok h)] ++ notices
          ++ [EvObjectExists f fileName (Ok false);
              EvUpload f obj fileName r]
    /\ Forall (fun e => is_notice e = true) notices
    /\ obj = mkFileObj bytes (name f) (getMIME (extension f))
    /\ fileName = generateResourceName now (name f) None (Some (buf2hex h)).

(** Every upload in a record of calls comes at the end of such calls,
    made for a file that the resolver has just returned and that has a
    supported type. *)
Definition uploads_guarded (tr : list Event) : Prop :=
  forall pre f obj fileName r post,
    tr = pre ++ EvUpload f obj fileName r :: post ->
    unsupported_file f = false
    /\ exists pre0 linkpath sourcePath win,
         pre ++ [EvUpload f obj fileName r]
         = pre0 ++ EvResolve linkpath sourcePath (Some f) :: win
         /\ upload_window f obj fileName r win.

(** A replacement made for one of the references [refs]: its span is the
    span of the reference and its text a rendering that differs from the
    text of the reference. *)
Definition replaces (refs : list AttachmentRef) (rp : Replacement) : Prop :=
  exists ref url resolved,
    ref ∈ refs /\ r_start rp = start ref /\ r_end rp = end_ ref
    /\ newText rp = buildReplacement ref url resolved
    /\ newText rp <> raw ref.

(** Every write of a note in a record of calls comes after the read of
    that note in the same record, with only calls for its references and,
    when backups are made, the successful copy of the note in between; the
    text written is the text read with replacements made for its candidate
    references, at least one. *)
Definition writes_guarded (tr : list Event) : Prop :=
  forall pre note data r post,
    tr = pre ++ EvModify note data r :: post ->
    dryRun opts = false
    /\ exists pre0 content mid backup reps,
         pre = pre0 ++ EvRead note (Ok content) :: mid ++ backup
         /\ Forall (fun e => ref_event e = true) mid
         /\ (if makeBackup opts
             then exists dest, backup = [EvCopy note dest (Ok tt)]
             else backup = [])
         /\ reps <> [] /\ Forall (replaces (candidate_refs content)) reps
         /\ data = apply_replacements content reps.

(** The references that have left the loop with a count or an error:
    unresolved, unsupported, failed or rewritten. *)
Definition settled (r : ConvertReport) : nat :=
  refsUnresolved r + attachmentsUnsupported r + length (errors r)
  + linksRewritten r.

(** What the counters of the report are worth for a part of a run that
    goes from [st] to [st'] with the calls [d] and takes [k] references
    in. *)
Record Ledger (st : Run W) (d : list Event) (k : nat) (st' : Run W) : Prop := {
  led_trace : trace st' = trace st ++ d;
  led_scanned :
    notesScanned (report st') = notesScanned (report st) + count is_read d;
  led_found : refsFound (report st') = refsFound (report st) + found d;
  led_refs :
    refsRemoteSkipped (report st') + count is_resolve d
    = refsRemoteSkipped (report st) + k;
  led_unresolved :
    refsUnresolved (report st')
    = refsUnresolved (report st) + count unresolved d;
  led_unsupported :
    attachmentsUnsupported (report st')
    = attachmentsUnsupported (report st) + count unsupported d;
  led_present :
    uploadsSkippedAlreadyExists (report st')
    = uploadsSkippedAlreadyExists (report st) + count present_answer d;
  led_preview :
    length (previewLines (report st')) + refsUnresolved (report st)
      + linksRewritten (report st)
    = length (previewLines (report st)) + refsUnresolved (report st')
      + linksRewritten (report st');
  led_errors :
    length (errors (report st)) + uploadsFailed (report st')
    <= length (errors (report st')) + uploadsFailed (report st);
  led_uploads :
    uploadsSucceeded (report st') + uploadsAttempted (report st)
    <= uploadsSucceeded (report st) + uploadsAttempted (report st');
  led_attempts :
    dryRun opts = false ->
    uploadsAttempted (report st') + uploadsSucceeded (report st)
      + uploadsFailed (report st)
    <= uploadsAttempted (report st) + uploadsSucceeded (report st')
       + uploadsFailed (report st');
  led_nocopy : makeBackup opts = false -> count is_copy d = 0;
  led_backup :
    makeBackup opts = true ->
    notesChanged (report st') + backupCreated (report st)
    <= notesChanged (report st) + backupCreated (report st');
  led_rewritten :
    linksRewritten (report st) <= linksRewritten (report st');
  led_changed :
    notesChanged (report st') = notesChanged (report st) + count modify_ok d;
  led_copies :
    backupCreated (report st') = backupCreated (report st) + count copy_ok d;
}.

End LedgerDef.

Arguments unsupported_file : simpl never.

(** A note at the root of the vault, as Obsidian has it: its parent is
    the folder [/]. *)
Definition root_note : TFile :=
  mkTFile (lit "n1.md") (lit "n1.md") (lit "n1") (lit "md") (Some (lit "/")).
Definition vault_root : Demo.World :=
  Demo.mkWorld [(root_note, lit "![[photo.png]]")] [photo] [] 0
    (Some root_note).

(** The state in which a run starts in a world of the small host. *)
Definition start_of (w : Demo.World) : Run Demo.World :=
  mkRun w empty_report ∅ [].

(** The options of a run on the folder of the active note. *)
Definition opts_folder : ConvertAttachmentsOptions :=
  mkOptions CurrentFolder false true Proxy.

(** The code units that end the link path of a wiki link: the bar, the
    hash and the caret. *)
Definition is_cut (c : N) : bool :=
  ((c =? ch "|") || (c =? ch "#") || (c =? ch "^"))%N.

(* ===================================================================== *)
(** ** Facts about strings *)
(* ===================================================================== *)

Lemma split_sep (c : N) (a rest : str) :
  c ∉ a -> split c (a ++ c :: rest) = a :: split c rest.
Proof.
  induction a as [|x a IH]; intros Hc; simpl.
  - by rewrite N.eqb_refl.
  - apply not_elem_of_cons in Hc as [Hx Ha].
    destruct (N.eqb_spec x c) as [->|_]; [done|].
    by rewrite IH.
Qed.

(** A string with an occurrence of [c] splits at the first one. *)
Lemma first_occurrence (c : N) (s : str) :
  1 <= count_of c s ->
  exists a rest, s = a ++ c :: rest /\ (c ∉ a)
    /\ count_of c s = S (count_of c rest).
Proof.
  unfold count_of. induction s as [|x s IH]; simpl; intros Hn; [lia|].
  destruct (N.eqb_spec c x) as [->|Hne]; simpl in *.
  - exists [], s. repeat split; auto using not_elem_of_nil.
  - destruct (IH Hn) as (a & rest & -> & Ha & Hc).
    exists (x :: a), rest. repeat split; auto.
    apply not_elem_of_cons. auto.
Qed.

Lemma truthy_iff (s : str) : truthy s = true <-> s <> [].
Proof. destruct s; simpl; split; congruence. Qed.

Lemma str_eqb_eq (a b : str) : str_eqb a b = true <-> a = b.
Proof. unfold str_eqb. apply bool_decide_eq_true. Qed.

Lemma str_eqb_neq (a b : str) : str_eqb a b = false <-> a <> b.
Proof. unfold str_eqb. apply bool_decide_eq_false. Qed.

Lemma split_first_cons (c x : N) (s : str) :
  split_first c (x :: s) = if (x =? c)%N then [] else x :: split_first c s.
Proof.
  unfold split_first. simpl.
  destruct (x =? c)%N; [done|]. by destruct (split c s).
Qed.

Lemma strip_fragment_query_split (s : str) :
  split_first (ch "?") (split_first (ch "#") s) = strip_fragment_query s.
Proof.
  induction s as [|x s IH]; [done|].
  rewrite split_first_cons. cbn [strip_fragment_query].
  destruct (x =? ch "#")%N; [done|].
  rewrite split_first_cons. destruct (x =? ch "?")%N; [done|].
  cbn [orb]. by rewrite IH.
Qed.

Lemma split_after_last (c : N) (s : str) :
  match after_last c s with
  | None => split c s = [s]
  | Some r =>
      exists seg seg' segs,
        split c s = seg :: seg' :: segs /\ last (seg' :: segs) = Some r
  end.
Proof.
  induction s as [|x s IH]; simpl; [done|].
  destruct (after_last c s) as [r|].
  - destruct IH as (seg & seg' & segs & -> & Hl).
    destruct (x =? c)%N; eauto.
  - rewrite IH. destruct (x =? c)%N; eauto.
Qed.

Lemma last_split (c : N) (s : str) :
  last (split c s) = Some (default s (after_last c s)).
Proof.
  pose proof (split_after_last c s) as Hs.
  destruct (after_last c s) as [r|].
  - by destruct Hs as (seg & seg' & segs & -> & Hl).
  - by rewrite Hs.
Qed.

Lemma lastIndexOf_after_last (c : N) (s : str) :
  after_last c s = (fun i => slice_from (i + 1) s) <$> lastIndexOf c s.
Proof.
  unfold slice_from. induction s as [|x s IH]; simpl; [done|].
  rewrite IH. destruct (lastIndexOf c s) as [i|]; simpl; [done|].
  by destruct (x =? c)%N.
Qed.

Lemma span_snd_nil (p : N -> bool) (s : str) :
  snd (span p s) = [] <-> Forall (fun c => p c = true) s.
Proof.
  induction s as [|x s IH]; simpl.
  - split; auto.
  - destruct (p x) eqn:Hx.
    + destruct (span p s) as [a b]; simpl in *.
      rewrite IH. split; [by constructor|]. by inversion 1.
    + simpl. split; [done|]. inversion 1; congruence.
Qed.

Lemma span_snd_head (p : N -> bool) (s : str) (x : N) (r : str) :
  snd (span p s) = x :: r -> p x = false.
Proof.
  induction s as [|y s IH]; simpl; [done|].
  destruct (p y) eqn:Hy.
  - destruct (span p s) as [a b]; simpl in *. auto.
  - simpl. congruence.
Qed.

(** [trim] leaves nothing exactly of the strings of white space. *)
Lemma trim_nil (s : str) :
  trim s = [] <-> Forall (fun c => is_space c = true) s.
Proof.
  unfold trim, trimEnd, trimStart.
  set (t := snd (span is_space s)).
  assert (Ht : t = [] <-> Forall (fun c => is_space c = true) s)
    by apply span_snd_nil.
  rewrite <- Ht. split.
  - intros Hr.
    assert (Hn : snd (span is_space (rev t)) = []).
    { apply (f_equal (@rev N)) in Hr. by rewrite rev_involutive in Hr. }
    apply span_snd_nil in Hn.
    destruct t as [|x r] eqn:Et; [done|].
    pose proof (span_snd_head is_space s x r Et) as Hx.
    apply Forall_rev in Hn. rewrite rev_involutive in Hn.
    inversion Hn; congruence.
  - by intros ->.
Qed.

Lemma strip_fragment_query_prefix (s : str) :
  exists r, s = strip_fragment_query s ++ r.
Proof.
  induction s as [|x s [r IH]]; simpl; [by exists []|].
  destruct ((x =? ch "#") || (x =? ch "?"))%N; [by exists (x :: s)|].
  exists r. simpl. by rewrite <- IH.
Qed.

(* ===================================================================== *)
(** ** Object names of files with several dots *)
(* ===================================================================== *)

Lemma generateResourceName_two_dots (now : N) (a b rest hash : str)
    (parent : option str) :
  ch "." ∉ a -> ch "." ∉ b -> hash <> [] ->
  generateResourceName now (a ++ lit "." ++ b ++ lit "." ++ rest) parent
    (Some hash)
  = a ++ lit "-" ++ hash ++ lit "." ++ b.
Proof.
  intros Ha Hb Hh. unfold generateResourceName.
  change (lit ".") with [ch "."]. simpl app.
  rewrite (split_sep _ a), (split_sep _ b) by done. simpl.
  apply truthy_iff in Hh. by rewrite Hh.
Qed.

(** C9.  For a file name with two or more dots and a non-empty hash,
    [generateResourceName] returns the text before the first dot, a
    hyphen, the hash, a dot and the segment between the first and the
    second dot; what follows the second dot is dropped. *)
Theorem generateResourceName_multi_dot (now : N) (fileName hash : str)
    (parent : option str) :
  2 <= count_of (ch ".") fileName -> hash <> [] ->
  exists a b rest,
    fileName = a ++ lit "." ++ b ++ lit "." ++ rest
    /\ (ch "." ∉ a) /\ (ch "." ∉ b)
    /\ generateResourceName now fileName parent (Some hash)
       = a ++ lit "-" ++ hash ++ lit "." ++ b.
Proof.
  intros Hn Hh.
  destruct (first_occurrence (ch ".") fileName) as (a & s1 & -> & Ha & Hc1);
    [lia|].
  destruct (first_occurrence (ch ".") s1) as (b & rest & -> & Hb & Hc2);
    [lia|].
  exists a, b, rest. repeat split; auto.
  by apply generateResourceName_two_dots.
Qed.

Lemma generateResourceName_multi_dot_witness :
  2 <= count_of (ch ".") (lit "archive.tar.gz") /\ lit "h" <> []
  /\ exists a b rest,
       lit "archive.tar.gz" = a ++ lit "." ++ b ++ lit "." ++ rest
       /\ (ch "." ∉ a) /\ (ch "." ∉ b)
       /\ generateResourceName 0 (lit "archive.tar.gz") None (Some (lit "h"))
          = a ++ lit "-" ++ lit "h" ++ lit "." ++ b.
Proof.
  split; [vm_compute; lia|]. split; [discriminate|].
  apply generateResourceName_multi_dot; [vm_compute; lia | discriminate].
Defined.

(** The example of the claim: the object name of [archive.tar.gz]. *)
Example generateResourceName_archive :
  generateResourceName 0 (lit "archive.tar.gz") None (Some (lit "h"))
  = lit "archive-h.tar".
Proof. reflexivity. Qed.

(* ===================================================================== *)
(** ** The target classifier *)
(* ===================================================================== *)

Section ClassifierFacts.
Variable toLower : str -> str.
Variable supported : str -> bool.

(** The code extracts the extension the specification describes. *)
Lemma extractExtFromTarget_spec (target : str) :
  extractExtFromTarget toLower target = spec_extension toLower target.
Proof.
  unfold extractExtFromTarget, spec_extension, last_segment.
  rewrite strip_fragment_query_split.
  set (t := trim (strip_fragment_query target)).
  rewrite last_split. cbn [default].
  set (seg := default t (after_last (ch "/") t)).
  rewrite (lastIndexOf_after_last (ch ".") seg).
  destruct (truthy t) eqn:Ht; cbn [negb]; change (id seg) with seg.
  - destruct (lastIndexOf (ch ".") seg); cbn; [|done].
    by destruct (truthy (toLower _)).
  - destruct t; [|done]. by subst seg.
Qed.

(** C5.  [isAttachmentCandidate] is false when the target has no
    extension, when its extension is [md] and when its extension is not
    in the configured set, and true otherwise; the extension is that of
    the last path segment of the target without fragment and query,
    lowercased. *)
Theorem isAttachmentCandidate_correct (target : str) :
  isAttachmentCandidate toLower supported target
  = match spec_extension toLower target with
    | None => false
    | Some ext => if decide (ext = lit "md") then false else supported ext
    end.
Proof.
  unfold isAttachmentCandidate. rewrite extractExtFromTarget_spec.
  destruct (spec_extension toLower target) as [ext|]; [|done].
  unfold str_eqb. destruct (decide (ext = lit "md")) as [->|Hne].
  - by rewrite bool_decide_eq_true_2.
  - by rewrite bool_decide_eq_false_2.
Qed.

Lemma candidate_not_blank (target : str) :
  isAttachmentCandidate toLower supported target = true ->
  target <> [] /\ trim target <> [].
Proof.
  unfold isAttachmentCandidate, extractExtFromTarget.
  rewrite strip_fragment_query_split.
  destruct (truthy (trim (strip_fragment_query target))) eqn:Ht;
    simpl; [intros _|discriminate].
  apply truthy_iff in Ht.
  assert (Hs : trim target <> []).
  { intros Hn. apply Ht. apply trim_nil. apply trim_nil in Hn.
    destruct (strip_fragment_query_prefix target) as [r Hr].
    rewrite Hr in Hn. by apply Forall_app in Hn as [? _]. }
  split; [|done]. by intros ->.
Qed.

End ClassifierFacts.

(* ===================================================================== *)
(** ** [Array.prototype.sort] with a comparator that subtracts keys *)
(* ===================================================================== *)

Section SortFacts.
Context {A : Type} (cmp : A -> A -> Z) (key : A -> Z).
Hypothesis cmp_key : forall a b, cmp a b = (key a - key b)%Z.

Lemma insert_sorted_perm (x : A) (l : list A) :
  Permutation (insert_sorted cmp x l) (x :: l).
Proof.
  induction l as [|y l IH]; simpl; [done|].
  destruct (0 <? cmp x y)%Z; [|done].
  rewrite IH. apply perm_swap.
Qed.

Lemma sort_perm (l : list A) : Permutation (sort cmp l) l.
Proof.
  induction l as [|x l IH]; simpl; [done|].
  unfold sort in *. rewrite insert_sorted_perm. by constructor.
Qed.

(** A relation that holds of all pairs, in both directions, still holds
    of all pairs after sorting. *)
Lemma insert_sorted_pairs (R : A -> A -> Prop) (x : A) (l : list A) :
  (forall a b, R a b -> R b a) ->
  Forall (R x) l -> ForallOrdPairs R l ->
  ForallOrdPairs R (insert_sorted cmp x l).
Proof.
  intros Hsym. induction l as [|y l IH]; simpl; intros Hx Hl.
  - by constructor.
  - inversion Hx as [|? ? Hxy Hxl]; inversion Hl as [|? ? Hyl Hl']; subst.
    destruct (0 <? cmp x y)%Z.
    + constructor; [|by apply IH].
      rewrite insert_sorted_perm. constructor; auto.
    + constructor; [by constructor|done].
Qed.

Lemma sort_pairs (R : A -> A -> Prop) (l : list A) :
  (forall a b, R a b -> R b a) ->
  ForallOrdPairs R l -> ForallOrdPairs R (sort cmp l).
Proof.
  intros Hsym. induction l as [|x l IH]; simpl; intros Hl; [constructor|].
  inversion Hl as [|? ? Hx Hl']; subst.
  apply insert_sorted_pairs; [done| |by apply IH].
  fold (sort cmp l). by rewrite sort_perm.
Qed.

Lemma insert_sorted_sorted (x : A) (l : list A) :
  ForallOrdPairs (fun a b => (key a <= key b)%Z) l ->
  ForallOrdPairs (fun a b => (key a <= key b)%Z) (insert_sorted cmp x l).
Proof.
  induction l as [|y l IH]; simpl; intros Hl.
  - by repeat constructor.
  - inversion Hl as [|? ? Hyl Hl']; subst.
    destruct (Z.ltb_spec 0 (cmp x y)) as [Hlt|Hge]; rewrite cmp_key in *.
    + constructor; [|by apply IH].
      rewrite insert_sorted_perm. constructor; [lia|done].
    + constructor; [|done].
      constructor; [lia|].
      eapply Forall_impl; [exact Hyl|]. simpl. intros; lia.
Qed.

Lemma sort_sorted (l : list A) :
  ForallOrdPairs (fun a b => (key a <= key b)%Z) (sort cmp l).
Proof.
  induction l as [|x l IH]; simpl; [constructor|].
  by apply insert_sorted_sorted.
Qed.

End SortFacts.

Lemma ForallOrdPairs_combine {A} (P : A -> Prop) (R1 R2 R3 : A -> A -> Prop)
    (l : list A) :
  (forall a b, P a -> P b -> R1 a b -> R2 a b -> R3 a b) ->
  Forall P l -> ForallOrdPairs R1 l -> ForallOrdPairs R2 l ->
  ForallOrdPairs R3 l.
Proof.
  intros Himp. induction l as [|x l IH]; intros HP H1 H2; [constructor|].
  inversion HP; inversion H1; inversion H2; subst.
  constructor; [|by apply IH].
  rewrite Forall_forall in *. intros y Hy. apply Himp; auto.
Qed.

(* ===================================================================== *)
(** ** The patch applier *)
(* ===================================================================== *)

Lemma splice_eq (text : str) (r : Replacement) :
  splice text r = take (r_start r) text ++ newText r ++ drop (r_end r) text.
Proof. unfold splice, slice, slice_from. by rewrite Nat.sub_0_r, drop_0. Qed.

(** A splice below [bound] leaves the text from [bound] on alone. *)
Lemma splice_below (text : str) (r : Replacement) (bound : nat) :
  r_start r <= r_end r -> r_end r <= bound -> bound <= length text ->
  splice text r = splice (take bound text) r ++ drop bound text.
Proof.
  intros Hse Heb Hbl. rewrite !splice_eq.
  rewrite take_take, Nat.min_l by lia.
  rewrite <- !app_assoc. do 2 f_equal.
  rewrite <- (take_drop bound text) at 1.
  rewrite drop_app_le; [done|]. rewrite length_take. lia.
Qed.

Lemma fold_splice_below (rs : list Replacement) (text : str) (bound : nat) :
  chain rs ->
  Forall (fun r => r_start r <= r_end r <= bound) rs ->
  bound <= length text ->
  fold_left splice rs text
  = fold_left splice rs (take bound text) ++ drop bound text.
Proof.
  revert text bound. induction rs as [|r rs IH]; intros text bound Hc Hr Hb.
  - simpl. by rewrite take_drop.
  - inversion Hc as [|? ? Hlow Hc']; inversion Hr as [|? ? [Hse He] Hr'];
      subst. simpl.
    rewrite (splice_below text r bound) by done.
    set (T := splice (take bound text) r).
    assert (HT : r_start r <= length T).
    { subst T. rewrite splice_eq, !length_app, !length_take. lia. }
    assert (Hrs : Forall (fun r' => r_start r' <= r_end r' <= r_start r) rs).
    { rewrite Forall_forall in *. intros r' Hin.
      specialize (Hlow r' Hin). specialize (Hr' r' Hin). simpl in *. lia. }
    rewrite (IH (T ++ drop bound text) (r_start r)); [|done|done|].
    2:{ rewrite length_app. lia. }
    rewrite (IH T (r_start r)) by done.
    rewrite take_app_le, drop_app_le by done.
    by rewrite app_assoc.
Qed.

(** The loop of the patching block computes [patch_desc]. *)
Lemma fold_splice_desc (rs : list Replacement) (text : str) :
  chain rs ->
  Forall (fun r => r_start r <= r_end r <= length text) rs ->
  fold_left splice rs text = patch_desc rs text.
Proof.
  revert text. induction rs as [|r rs IH]; intros text Hc Hr; [done|].
  inversion Hc as [|? ? Hlow Hc']; inversion Hr as [|? ? [Hse He] Hr']; subst.
  simpl.
  assert (Hrs : Forall (fun r' => r_start r' <= r_end r' <= r_start r) rs).
  { rewrite Forall_forall in *. intros r' Hin.
    specialize (Hlow r' Hin). specialize (Hr' r' Hin). simpl in *. lia. }
  rewrite (fold_splice_below rs (splice text r) (r_start r)); [|done|done|].
  2:{ rewrite splice_eq, !length_app, length_take. lia. }
  rewrite splice_eq.
  rewrite take_app_length', drop_app_length' by (rewrite length_take; lia).
  rewrite IH; [done|done|].
  eapply Forall_impl; [exact Hrs|]. simpl. intros r'.
  rewrite length_take. lia.
Qed.

Lemma before_all (i : nat) (f : Replacement -> nat) (rs : list Replacement) :
  Forall (fun r => r_end r <= i) rs ->
  sum_list_with (before i f) rs = sum_list_with f rs.
Proof.
  induction 1 as [|r rs Hr _ IH]; simpl; [done|].
  unfold before at 1. rewrite decide_True by done. by rewrite IH.
Qed.

Lemma new_index_cons_lt (r : Replacement) (rs : list Replacement) (i : nat) :
  i < r_end r -> new_index (r :: rs) i = new_index rs i.
Proof.
  intros Hi. unfold new_index. simpl. unfold before at 1 3.
  rewrite !decide_False by lia. done.
Qed.

(** What [patch_desc] builds: the length, the text outside the spans and
    the new text of each span. *)
Lemma patch_desc_spec (rs : list Replacement) (text : str) :
  chain rs -> Forall (span_ok text) rs ->
  length (patch_desc rs text) + sum_list_with span_length rs
  = length text + sum_list_with new_length rs
  /\ (forall i c, text !! i = Some c ->
        (forall r, r ∈ rs -> ~ inside i r) ->
        patch_desc rs text !! new_index rs i = Some c)
  /\ (forall r, r ∈ rs ->
        take (new_length r) (drop (new_index rs (r_start r))
                               (patch_desc rs text))
        = newText r).
Proof.
  revert text. induction rs as [|r rs IH]; intros text Hc Hok.
  { simpl. split; [lia|]. split.
    - intros i c Hi _. unfold new_index. simpl.
      by rewrite Nat.add_0_r, Nat.sub_0_r.
    - intros r Hr. by apply elem_of_nil in Hr. }
  inversion Hc as [|? ? Hlow Hc']; inversion Hok as [|? ? [Hse He] Hok'];
    subst.
  assert (Hends : Forall (fun r' => r_end r' <= r_start r) rs) by done.
  assert (Hok1 : Forall (span_ok (take (r_start r) text)) rs).
  { rewrite Forall_forall in *. intros r' Hin. unfold span_ok in *.
    specialize (Hends r' Hin). specialize (Hok' r' Hin).
    rewrite length_take. lia. }
  destruct (IH (take (r_start r) text) Hc' Hok1) as (IHl & IHo & IHn).
  rewrite length_take in IHl.
  set (P := patch_desc rs (take (r_start r) text)) in *.
  assert (Hsum : forall i f, r_start r <= i ->
             sum_list_with (before i f) rs = sum_list_with f rs).
  { intros i f Hi. apply before_all.
    eapply Forall_impl; [exact Hends|]. simpl. intros; lia. }
  simpl patch_desc. fold P. split; [|split].
  - simpl. rewrite !length_app, length_drop.
    unfold span_length at 1, new_length at 1. lia.
  - intros i c Hi Hout.
    assert (Hil : i < length text) by (by eapply lookup_lt_Some).
    destruct (decide (i < r_start r)) as [Hlt|Hge].
    + rewrite new_index_cons_lt by lia.
      apply lookup_app_l_Some, IHo.
      * by rewrite lookup_take_lt.
      * intros r' Hin. apply Hout. by right.
    + assert (Hie : r_end r <= i).
      { destruct (decide (r_end r <= i)); [done|].
        exfalso. apply (Hout r); [by left|]. unfold inside. lia. }
      assert (Hidx : new_index (r :: rs) i
                     = length P + (length (newText r) + (i - r_end r))).
      { unfold new_index. simpl. rewrite !Hsum by lia.
        unfold before. rewrite !decide_True by done.
        unfold span_length at 1, new_length at 1. lia. }
      rewrite Hidx, lookup_app_r by lia.
      rewrite lookup_app_r by lia.
      rewrite lookup_drop, <- Hi. f_equal. lia.
  - intros r' Hin. apply elem_of_cons in Hin as [->|Hin].
    + assert (Hidx : new_index (r :: rs) (r_start r) = length P).
      { unfold new_index. simpl. rewrite !Hsum by lia.
        unfold before. rewrite !decide_False by lia. lia. }
      rewrite Hidx, drop_app_length. unfold new_length.
      by rewrite take_app_length.
    + rewrite Forall_forall in Hends, Hok'.
      specialize (Hends r' Hin). destruct (Hok' r' Hin) as [Hse' _].
      rewrite new_index_cons_lt by lia.
      specialize (IHn r' Hin).
      assert (Hlen : new_length r'
                     <= length (drop (new_index rs (r_start r')) P)).
      { apply (f_equal length) in IHn. rewrite length_take in IHn.
        unfold new_length in *. lia. }
      rewrite drop_app, take_app_le by done. exact IHn.
Qed.

Lemma by_start_desc_key (a b : Replacement) :
  by_start_desc a b
  = ((fun r => - Z.of_nat (r_start r)) a
     - (fun r => - Z.of_nat (r_start r)) b)%Z.
Proof. unfold by_start_desc. lia. Qed.

Lemma disjoint_sym (a b : Replacement) : disjoint a b -> disjoint b a.
Proof. unfold disjoint. tauto. Qed.

(** Sorted by descending start, non-overlapping non-empty spans form a
    chain. *)
Lemma sort_desc_chain (content : str) (reps : list Replacement) :
  Forall (span_ok content) reps -> ForallOrdPairs disjoint reps ->
  chain (sort by_start_desc reps).
Proof.
  intros Hok Hdis.
  eapply (ForallOrdPairs_combine (span_ok content)
            (fun a b => (- Z.of_nat (r_start a) <= - Z.of_nat (r_start b))%Z)
            disjoint).
  - unfold span_ok, disjoint. intros a b Ha Hb Hle [H|H]; lia.
  - by rewrite sort_perm.
  - apply (sort_sorted by_start_desc _ by_start_desc_key).
  - apply sort_pairs; [apply disjoint_sym|done].
Qed.

Lemma new_index_perm (rs reps : list Replacement) (i : nat) :
  rs ≡ₚ reps -> new_index rs i = new_index reps i.
Proof. intros Hp. unfold new_index. by rewrite Hp. Qed.

(** C1.  Patching a text with non-overlapping replacement spans, given
    in any order: the length of the result is the length of the text
    plus the lengths of the new texts minus the lengths of the spans;
    every code unit outside the spans is unchanged (found at its index
    moved by the spans before it); and each span has been exchanged for
    its new text. *)
Theorem apply_replacements_span_safe (content : str)
    (reps : list Replacement) :
  Forall (span_ok content) reps -> ForallOrdPairs disjoint reps ->
  length (apply_replacements content reps) + sum_list_with span_length reps
  = length content + sum_list_with new_length reps
  /\ (forall i c, content !! i = Some c ->
        (forall r, r ∈ reps -> ~ inside i r) ->
        apply_replacements content reps !! new_index reps i = Some c)
  /\ (forall r, r ∈ reps ->
        take (new_length r) (drop (new_index reps (r_start r))
                               (apply_replacements content reps))
        = newText r).
Proof.
  intros Hok Hdis. unfold apply_replacements.
  pose proof (sort_perm by_start_desc reps) as Hperm.
  pose proof (sort_desc_chain content reps Hok Hdis) as Hchain.
  set (rs := sort by_start_desc reps) in *.
  assert (Hok' : Forall (span_ok content) rs) by (by rewrite Hperm).
  rewrite fold_splice_desc; [|done|].
  2:{ eapply Forall_impl; [exact Hok'|]. unfold span_ok. simpl. lia. }
  destruct (patch_desc_spec rs content Hchain Hok') as (Hl & Ho & Hn).
  split; [|split].
  - by rewrite <- Hperm.
  - intros i c Hi Hout. rewrite <- (new_index_perm rs reps i Hperm).
    apply Ho; [done|]. intros r Hr. apply Hout. by rewrite <- Hperm.
  - intros r Hr. rewrite <- (new_index_perm rs reps _ Hperm).
    apply Hn. by rewrite Hperm.
Qed.

(* ===================================================================== *)
(** ** The reference scanner *)
(* ===================================================================== *)

(** The matches of one global pattern follow each other. *)
Lemma exec_all_spans {G} (re : Matcher G) (prev : option N) (pos skip : nat)
    (s : str) :
  (forall p t g len, re p t = Some (g, len) -> 1 <= len) ->
  Forall (fun m => pos + skip <= m_index m /\ 1 <= m_length m)
    (exec_all re prev pos skip s)
  /\ ForallOrdPairs (fun a b => m_index a + m_length a <= m_index b)
       (exec_all re prev pos skip s).
Proof.
  intros Hpos. revert prev pos skip.
  induction s as [|c s IH]; intros prev pos skip; simpl.
  { split; constructor. }
  destruct skip as [|k].
  - destruct (re prev (c :: s)) as [[g len]|] eqn:Hre.
    + specialize (Hpos _ _ _ _ Hre).
      destruct (IH (Some c) (S pos) (len - 1)) as [IH1 IH2].
      split.
      * constructor; [unfold m_index, m_length; simpl; lia|].
        eapply Forall_impl; [exact IH1|]. unfold m_index, m_length. simpl.
        intros; lia.
      * constructor; [|done].
        eapply Forall_impl; [exact IH1|]. unfold m_index, m_length. simpl.
        intros; lia.
    + destruct (IH (Some c) (S pos) 0) as [IH1 IH2]. split; [|done].
      eapply Forall_impl; [exact IH1|]. unfold m_index, m_length. simpl.
        intros; lia.
  - destruct (IH (Some c) (S pos) k) as [IH1 IH2]. split; [|done].
    eapply Forall_impl; [exact IH1|]. unfold m_index, m_length. simpl.
        intros; lia.
Qed.

Lemma wiki_body_length (s : str) (g : str) (len : nat) :
  wiki_body s = Some (g, len) -> 1 <= len.
Proof.
  unfold wiki_body. destruct (startsWith _ s); [|done].
  destruct (span _ _) as [inner rest].
  destruct (_ && _); [|done]. intros [= _ <-]. lia.
Qed.

Lemma md_body_length (s : str) (g : str * str) (len : nat) :
  md_body s = Some (g, len) -> 1 <= len.
Proof.
  unfold md_body. destruct (startsWith _ s); [|done].
  destruct (span _ _) as [text rest].
  destruct (startsWith _ rest); [|done].
  destruct (span _ _) as [dest rest2].
  destruct (_ && _); [|done]. intros [= _ <-]. lia.
Qed.

Lemma re_obsidian_embed_length p t g len :
  re_obsidian_embed p t = Some (g, len) -> 1 <= len.
Proof.
  unfold re_obsidian_embed. destruct (startsWith _ t); [|done].
  destruct (wiki_body _) as [[g' n]|]; [|done]. intros [= _ <-]. lia.
Qed.

Lemma re_obsidian_link_length p t g len :
  re_obsidian_link p t = Some (g, len) -> 1 <= len.
Proof.
  unfold re_obsidian_link. destruct (not_bang p); [|done].
  apply wiki_body_length.
Qed.

Lemma re_md_embed_length p t g len :
  re_md_embed p t = Some (g, len) -> 1 <= len.
Proof.
  unfold re_md_embed. destruct (startsWith _ t); [|done].
  destruct (md_body _) as [[g' n]|]; [|done]. intros [= _ <-]. lia.
Qed.

Lemma re_md_link_length p t g len :
  re_md_link p t = Some (g, len) -> 1 <= len.
Proof.
  unfold re_md_link. destruct (not_bang p); [|done].
  apply md_body_length.
Qed.

Lemma one_scan_map {G} (k : RefKind) (mk : nat * nat * G -> AttachmentRef)
    (re : Matcher G) (content : str) :
  (forall m, kind (mk m) = k /\ start (mk m) = m_index m
             /\ end_ (mk m) = m_index m + m_length m) ->
  (forall p t g len, re p t = Some (g, len) -> 1 <= len) ->
  one_scan k (List.map mk (exec_all re None 0 0 content)).
Proof.
  intros Hmk Hre.
  destruct (exec_all_spans re None 0 0 content Hre) as [H1 H2].
  induction (exec_all re None 0 0 content) as [|m l IH]; simpl.
  { split; constructor. }
  inversion H1 as [|? ? [_ Hm] H1']; inversion H2 as [|? ? Hml H2']; subst.
  destruct (IH H1' H2') as [IHa IHb].
  destruct (Hmk m) as (Hk & Hs & He).
  split; constructor; auto.
  - split; [done|lia].
  - rewrite Forall_forall in Hml. apply Forall_forall. intros r Hr.
    apply list_elem_of_fmap in Hr as (m' & -> & Hm').
    destruct (Hmk m') as (_ & Hs' & _). specialize (Hml m' Hm'). lia.
Qed.

Lemma obsidian_ref_fields (k : RefKind) (content : str) (m : nat * nat * str) :
  kind (obsidian_ref k content m) = k
  /\ start (obsidian_ref k content m) = m_index m
  /\ end_ (obsidian_ref k content m) = m_index m + m_length m.
Proof. by destruct m as [[i len] g]. Qed.

Lemma md_ref_fields (k : RefKind) (content : str)
    (m : nat * nat * (str * str)) :
  kind (md_ref k content m) = k
  /\ start (md_ref k content m) = m_index m
  /\ end_ (md_ref k content m) = m_index m + m_length m.
Proof. by destruct m as [[i len] [text dest]]. Qed.

Lemma ForallOrdPairs_app {A} (R : A -> A -> Prop) (l1 l2 : list A) :
  ForallOrdPairs R l1 -> ForallOrdPairs R l2 ->
  (forall a b, a ∈ l1 -> b ∈ l2 -> R a b) ->
  ForallOrdPairs R (l1 ++ l2).
Proof.
  induction 1 as [|x l1 Hx Hl1 IH]; intros Hl2 Hcross; simpl; [done|].
  constructor.
  - apply Forall_app. split; [done|].
    apply Forall_forall. intros b Hb. apply Hcross; [by left|done].
  - apply IH; [done|]. intros a b Ha Hb. apply Hcross; [by right|done].
Qed.

Lemma one_scan_then (k : RefKind) (l1 l2 : list AttachmentRef) :
  one_scan k l1 ->
  Forall (fun r => kind r <> k /\ start r < end_ r) l2 ->
  ForallOrdPairs same_kind_apart l2 ->
  Forall (fun r => start r < end_ r) (l1 ++ l2)
  /\ ForallOrdPairs same_kind_apart (l1 ++ l2).
Proof.
  intros [Hk Hfollow] Hother Hl2. split.
  - apply Forall_app. split.
    + eapply Forall_impl; [exact Hk|]. by intros r [_ ?].
    + eapply Forall_impl; [exact Hother|]. by intros r [_ ?].
  - apply ForallOrdPairs_app; [|done|].
    + eapply ForallOrdPairs_combine
        with (P := fun _ => True) (R1 := fun a b => end_ a <= start b)
             (R2 := fun _ _ => True).
      * intros a b _ _ Hab _ _. by left.
      * by apply Forall_true.
      * done.
      * clear. induction l1; constructor; [by apply Forall_true|done].
    + rewrite Forall_forall in Hk, Hother. intros a b Ha Hb Hkind.
      destruct (Hk a Ha) as [Hka _]. destruct (Hother b Hb) as [Hkb _].
      congruence.
Qed.

Lemma one_scan_other (k k' : RefKind) (l : list AttachmentRef) :
  k <> k' -> one_scan k l ->
  Forall (fun r => kind r <> k' /\ start r < end_ r) l.
Proof.
  intros Hne [Hk _]. eapply Forall_impl; [exact Hk|].
  intros r [Hr ?]. split; [congruence|done].
Qed.

Lemma by_start_asc_key (a b : AttachmentRef) :
  by_start_asc a b
  = ((fun r => Z.of_nat (start r)) a - (fun r => Z.of_nat (start r)) b)%Z.
Proof. done. Qed.

(** C3, as the code has it.  The references of one call of
    [extractAttachmentRefs] are sorted by ascending start, and the spans
    of two references of the same kind do not overlap: the earlier one
    ends where the later one starts, or before. *)
Theorem extractAttachmentRefs_spans (content : str) :
  ForallOrdPairs
    (fun a b => start a <= start b /\ (kind a = kind b -> end_ a <= start b))
    (extractAttachmentRefs content).
Proof.
  unfold extractAttachmentRefs.
  set (l1 := List.map (obsidian_ref ObsidianEmbed content) _).
  set (l2 := List.map (obsidian_ref ObsidianLink content) _).
  set (l3 := List.map (md_ref MdEmbed content) _).
  set (l4 := List.map (md_ref MdLink content) _).
  assert (H1 : one_scan ObsidianEmbed l1)
    by (apply one_scan_map; [apply obsidian_ref_fields|apply re_obsidian_embed_length]).
  assert (H2 : one_scan ObsidianLink l2)
    by (apply one_scan_map; [apply obsidian_ref_fields|apply re_obsidian_link_length]).
  assert (H3 : one_scan MdEmbed l3)
    by (apply one_scan_map; [apply md_ref_fields|apply re_md_embed_length]).
  assert (H4 : one_scan MdLink l4)
    by (apply one_scan_map; [apply md_ref_fields|apply re_md_link_length]).
  assert (H4' : Forall (fun r => start r < end_ r) (l4 ++ [])
                /\ ForallOrdPairs same_kind_apart (l4 ++ [])).
  { apply (one_scan_then MdLink); [done|constructor|constructor]. }
  rewrite app_nil_r in H4'. destruct H4' as [N4 A4].
  destruct (one_scan_then MdEmbed l3 l4 H3) as [N3 A3];
    [by apply (one_scan_other MdLink)|done|].
  destruct (one_scan_then ObsidianLink l2 (l3 ++ l4) H2) as [N2 A2]; [|done|].
  { apply Forall_app. split;
      [by apply (one_scan_other MdEmbed)|by apply (one_scan_other MdLink)]. }
  destruct (one_scan_then ObsidianEmbed l1 (l2 ++ l3 ++ l4) H1) as [N1 A1];
    [|done|].
  { repeat (apply Forall_app; split);
      [by apply (one_scan_other ObsidianLink)
      |by apply (one_scan_other MdEmbed)|by apply (one_scan_other MdLink)]. }
  set (L := l1 ++ l2 ++ l3 ++ l4) in *.
  eapply (ForallOrdPairs_combine (fun r => start r < end_ r)
            (fun a b => (Z.of_nat (start a) <= Z.of_nat (start b))%Z)
            same_kind_apart).
  - intros a b Ha Hb Hle Hap. split; [lia|].
    intros Hk. destruct (Hap Hk); lia.
  - by rewrite sort_perm.
  - apply (sort_sorted by_start_asc _ by_start_asc_key).
  - apply sort_pairs; [|done].
    unfold same_kind_apart. intros a b Hab Hk. symmetry in Hk.
    destruct (Hab Hk); auto.
Qed.

(* ===================================================================== *)
(** ** Counting calls *)
(* ===================================================================== *)

Lemma count_app (f : Event -> bool) (a b : list Event) :
  count f (a ++ b) = count f a + count f b.
Proof. unfold count. by rewrite List.filter_app, length_app. Qed.

Lemma count_zero (f : Event -> bool) (tr : list Event) :
  count f tr = 0 <-> Forall (fun e => f e = false) tr.
Proof.
  unfold count. induction tr as [|e tr IH]; simpl.
  - split; auto.
  - destruct (f e) eqn:He; simpl.
    + split; [lia|]. inversion 1; congruence.
    + rewrite IH. split; [by constructor|]. by inversion 1.
Qed.

Lemma count_le (f g : Event -> bool) (tr : list Event) :
  (forall e, f e = true -> g e = true) -> count f tr <= count g tr.
Proof.
  intros Hfg. unfold count. induction tr as [|e tr IH]; simpl; [done|].
  destruct (f e) eqn:He.
  - rewrite (Hfg e He). simpl. lia.
  - destruct (g e); simpl; lia.
Qed.

Lemma upload_ok_for_touches (p : str) (e : Event) :
  upload_ok_for p e = true -> touches p e = true.
Proof. destruct e as [| | | | | |f o n [u|x]| |]; simpl; done. Qed.



Section Accounting.
Context {W : Type} `{Host W}.
Variable opts : ConvertAttachmentsOptions.

Lemma accounts_refl (st : Run W) : Accounts opts st [] 0 st.
Proof.
  split; simpl; try done; try lia.
  - by rewrite app_nil_r.
  - intros p. unfold count. simpl. lia.
  - intros p. unfold count. simpl. lia.
Qed.

Lemma accounts_trans (st st1 st2 : Run W) (d1 d2 : list Event) (k1 k2 : nat) :
  Accounts opts st d1 k1 st1 -> Accounts opts st1 d2 k2 st2 ->
  Accounts opts st (d1 ++ d2) (k1 + k2) st2.
Proof.
  intros A B.
  assert (Hle : forall p d, count (upload_ok_for p) d <= count (touches p) d)
    by (intros; apply count_le, upload_ok_for_touches).
  assert (gets_url_trans : forall p,
            gets_url st st1 p + gets_url st1 st2 p <= gets_url st st2 p).
  { intros p. unfold gets_url.
    destruct (truthy_opt (resolvedUrlByVaultPath st !! p)) eqn:E0.
    - destruct (acc_kept _ _ _ _ _ A p E0) as [Heq _].
      rewrite Heq, E0. lia.
    - destruct (truthy_opt (resolvedUrlByVaultPath st1 !! p)) eqn:E1.
      + destruct (acc_kept _ _ _ _ _ B p E1) as [Heq _].
        rewrite Heq, E1. lia.
      + destruct (truthy_opt (resolvedUrlByVaultPath st2 !! p)); lia. }
  split; rewrite ?count_app.
  - rewrite (acc_trace _ _ _ _ _ B), (acc_trace _ _ _ _ _ A). by rewrite app_assoc.
  - rewrite (acc_remote _ _ _ _ _ B), (acc_remote _ _ _ _ _ A). lia.
  - rewrite (acc_failed _ _ _ _ _ B), (acc_failed _ _ _ _ _ A). lia.
  - rewrite (acc_attempted _ _ _ _ _ B), (acc_attempted _ _ _ _ _ A). lia.
  - rewrite (acc_succeeded _ _ _ _ _ B), (acc_succeeded _ _ _ _ _ A). lia.
  - rewrite (acc_changed _ _ _ _ _ B), (acc_changed _ _ _ _ _ A). lia.
  - rewrite (acc_backup _ _ _ _ _ B), (acc_backup _ _ _ _ _ A). lia.
  - rewrite (acc_resolve _ _ _ _ _ B), (acc_resolve _ _ _ _ _ A). lia.
  - intros Hd. rewrite (acc_dry _ _ _ _ _ B Hd), (acc_dry _ _ _ _ _ A Hd). lia.
  - intros p. rewrite count_app.
    pose proof (acc_once _ _ _ _ _ A p) as H1.
    pose proof (acc_once _ _ _ _ _ B p) as H2.
    destruct (decide (count (upload_ok_for p) d1 = 1)) as [E|]; [|lia].
    destruct (acc_fresh _ _ _ _ _ A p E) as [_ Ht].
    destruct (acc_kept _ _ _ _ _ B p Ht) as [_ Hq].
    specialize (Hle p d2). lia.
  - intros p. rewrite count_app. intros Hc.
    pose proof (acc_once _ _ _ _ _ A p) as H1.
    pose proof (acc_once _ _ _ _ _ B p) as H2.
    destruct (decide (count (upload_ok_for p) d1 = 1)) as [E|NE].
    + destruct (acc_fresh _ _ _ _ _ A p E) as [Hf Ht]. split; [done|].
      destruct (acc_kept _ _ _ _ _ B p Ht) as [-> _]. done.
    + assert (E2 : count (upload_ok_for p) d2 = 1) by lia.
      destruct (acc_fresh _ _ _ _ _ B p E2) as [Hf Ht]. split; [|done].
      destruct (truthy_opt (resolvedUrlByVaultPath st !! p)) eqn:Hst;
        [|done].
      destruct (acc_kept _ _ _ _ _ A p Hst) as [Heq _].
      rewrite Heq, Hst in Hf. done.
  - intros p Hp. rewrite count_app.
    destruct (acc_kept _ _ _ _ _ A p Hp) as [Heq Hq].
    assert (Hp1 : truthy_opt (resolvedUrlByVaultPath st1 !! p) = true)
      by (by rewrite Heq).
    destruct (acc_kept _ _ _ _ _ B p Hp1) as [Heq2 Hq2].
    split; [congruence|lia].
  - intros p. rewrite count_app.
    pose proof (acc_hash _ _ _ _ _ A p). pose proof (acc_hash _ _ _ _ _ B p).
    pose proof (gets_url_trans p). lia.
  - intros p. rewrite !count_app.
    pose proof (acc_upload _ _ _ _ _ A p). pose proof (acc_upload _ _ _ _ _ B p).
    pose proof (gets_url_trans p). lia.
Qed.

End Accounting.

(* ===================================================================== *)
(** ** Tactics for the accounting of a run *)
(* ===================================================================== *)

(** The obligations of [Accounts] for a part of a run given by its
    calls: [Hmiss] says that the map has no URL for [resolved]. *)
Ltac acc_numbers := unfold count; simpl; lia.

Ltac acc_paths resolved Hmiss :=
  let p := fresh "p" in
  let Hp := fresh "Hp" in
  let Ep := fresh "Ep" in
  intros p; first
    [ (* acc_kept *)
      intros Hp;
      assert (Ep : str_eqb (path resolved) p = false)
        by (apply str_eqb_neq; intros <-; congruence);
      split;
      [ simpl;
        try (rewrite lookup_insert_ne
               by (apply str_eqb_neq in Ep; exact Ep));
        reflexivity
      | unfold count; simpl; rewrite ?Ep; reflexivity ]
    | (* acc_once and acc_fresh *)
      unfold count; simpl;
      destruct (str_eqb (path resolved) p) eqn:Ep; simpl;
      first
        [ lia
        | intros _; apply str_eqb_eq in Ep; subst p;
          split; [exact Hmiss|];
          simpl; rewrite lookup_insert_eq; simpl; assumption
        | intros Hp; discriminate Hp
        | intros Hp; exfalso; lia ] ].

Ltac acc_failure :=
  let Hc := fresh "Hc" in
  intros Hc; first
    [ exfalso; unfold count in Hc; simpl in Hc; lia
    | split; [reflexivity|];
      do 2 eexists; split; [reflexivity|]; split; reflexivity ].

Ltac acc_would_be :=
  let Hd := fresh "Hd" in
  let Hc := fresh "Hc" in
  intros Hd Hc; first
    [ exfalso; unfold count in Hc; simpl in Hc; lia
    | exfalso; congruence
    | eexists; reflexivity ].

Ltac acc_own resolved :=
  let p := fresh "p" in
  intros p; unfold count; simpl;
  destruct (str_eqb (path resolved) p); simpl;
  (split; [lia|]); (split; [lia|]);
  intros ?; first [ reflexivity | discriminate ].

Ltac acc_bound resolved Hmiss :=
  let p := fresh "p" in
  let Ep := fresh "Ep" in
  intros p; unfold count, gets_url; simpl; rewrite ?length_app; simpl;
  destruct (str_eqb (path resolved) p) eqn:Ep; simpl;
  [ apply str_eqb_eq in Ep; subst p; rewrite Hmiss; simpl;
    rewrite ?lookup_insert_eq; simpl;
    repeat match goal with Ht : truthy _ = true |- _ => rewrite Ht end;
    rewrite ?Hmiss; lia
  | repeat (case_match; try lia) ].

Ltac acc_leaf resolved Hmiss :=
  eexists; split; [split|]; simpl;
  [ rewrite <- ?app_assoc; simpl; reflexivity
  | acc_numbers | acc_numbers | acc_numbers | acc_numbers | acc_numbers
  | acc_numbers
  | reflexivity
  | first [ intros _; reflexivity | intros ?; congruence ]
  | acc_paths resolved Hmiss
  | acc_paths resolved Hmiss
  | acc_paths resolved Hmiss
  | acc_bound resolved Hmiss
  | acc_bound resolved Hmiss
  | split; [reflexivity|];
    split;
      [ first [ reflexivity
              | split; [assumption|]; simpl; apply lookup_insert_eq ] |];
    split; [acc_numbers|];
    split; [acc_failure|];
    split; [acc_would_be|];
    acc_own resolved ].

Ltac persist_leaf :=
  eexists; split; [split|]; simpl;
  [ rewrite <- ?app_assoc; simpl; first [reflexivity | by rewrite app_nil_r]
  | acc_numbers | acc_numbers | acc_numbers | acc_numbers | acc_numbers
  | acc_numbers
  | reflexivity
  | first [ intros _; reflexivity | intros ?; congruence ]
  | intros ?; acc_numbers
  | let Hc := fresh in
    intros ? Hc; exfalso; unfold count in Hc; simpl in Hc; lia
  | intros ? _; split; reflexivity
  | intros ?; unfold count, gets_url; simpl; repeat (case_match; try lia); lia
  | intros ?; unfold count, gets_url; simpl; repeat (case_match; try lia); lia
  | split; [reflexivity|]; split;
    [ let e := fresh in
      let He := fresh in
      intros e He; first
        [ discriminate He
        | injection He as <-; eexists; split; reflexivity ]
    | let Hd := fresh in
      intros Hd; first [ congruence | discriminate | done ] ] ].

Section Steps.
Context {W : Type} `{Host W}.
Variable opts : ConvertAttachmentsOptions.

(** The hashing and upload step of a file without a URL in the map. *)
Lemma upload_step_accounts (resolved : TFile) (st st' : Run W)
    (r : option str) :
  truthy_opt (resolvedUrlByVaultPath st !! path resolved) = false ->
  upload_step opts resolved st = (r, st') ->
  exists d,
    Accounts opts st d 0 st' /\ count is_read d = 0
    /\ match r with
       | Some url =>
           truthy url = true
           /\ resolvedUrlByVaultPath st' !! path resolved = Some url
       | None => resolvedUrlByVaultPath st' = resolvedUrlByVaultPath st
       end
    /\ count rejected_call d <= 1
    /\ (count rejected_call d = 1 ->
        r = None
        /\ exists ev e,
             last d = Some ev /\ rejection ev = Some e
             /\ errors (report st')
                = errors (report st) ++ [upload_failed_message resolved e])
    /\ (dryRun opts = true -> count absent_answer d = 1 -> is_Some r)
    /\ (forall p,
        count (hash_for p) d <= 1 /\ count (upload_for p) d <= 1
        /\ (str_eqb (path resolved) p = false -> count (touches p) d = 0)).
Proof.
  intros Hmiss.
  unfold upload_step, buildS3FileNameForVaultFile, sha1Hex, buildTargetUrl,
    call, remember, upload_failed, no_target_url.
  destruct (vault_readBinary resolved (world st)) as [[bytes|e] w1] eqn:E1;
    simpl.
  2:{ intros [= <- <-]. acc_leaf resolved Hmiss. }
  destruct (digest_sha1 bytes w1) as [[hashBuf|e] w2] eqn:E2; simpl.
  2:{ intros [= <- <-]. acc_leaf resolved Hmiss. }
  set (fileName := generateResourceName _ _ _ _).
  destruct (linkMode opts);
    [|destruct (truthy_opt (createPublicURL fileName (publicBaseUrl w2) w2))
        eqn:Hpub];
    [destruct (createObjURL (server_url w2) fileName w2) as [targetUrl|]
    |destruct (createPublicURL fileName (publicBaseUrl w2) w2)
       as [targetUrl|]
    |destruct (createObjURL (server_url w2) fileName w2) as [targetUrl|]];
    simpl.
  all: try (intros [= <- <-]; acc_leaf resolved Hmiss).
  all: destruct (truthy targetUrl) eqn:Htruthy; simpl;
    try (intros [= <- <-]; acc_leaf resolved Hmiss).
  all: destruct (objectExists fileName w2) as [[[|]|e] w3] eqn:E3; simpl;
    try (intros [= <- <-]; acc_leaf resolved Hmiss).
  all: destruct (dryRun opts) eqn:Hdry; simpl;
    try (intros [= <- <-]; acc_leaf resolved Hmiss).
  all: destruct (upload _ fileName w3) as [[u|e] w4] eqn:E4; simpl;
    intros [= <- <-]; acc_leaf resolved Hmiss.
Qed.

Lemma count_untracked (f : Event -> bool) (d : list Event) :
  (forall e, untracked e = true -> f e = false) ->
  Forall (fun e => untracked e = true) d -> count f d = 0.
Proof.
  intros Hf Hd. apply count_zero. eapply Forall_impl; [exact Hd|]. exact Hf.
Qed.

Lemma accounts_quiet (st st' : Run W) (d : list Event) (k : nat) :
  trace st' = trace st ++ d ->
  resolvedUrlByVaultPath st' = resolvedUrlByVaultPath st ->
  Forall (fun e => untracked e = true) d ->
  refsRemoteSkipped (report st') = refsRemoteSkipped (report st) + k ->
  uploadsFailed (report st') = uploadsFailed (report st) ->
  uploadsAttempted (report st') = uploadsAttempted (report st) ->
  uploadsSucceeded (report st') = uploadsSucceeded (report st) ->
  notesChanged (report st') = notesChanged (report st) ->
  backupCreated (report st') = backupCreated (report st) ->
  errors (report st') = errors (report st) ->
  Accounts opts st d k st'.
Proof.
  intros Ht Hc Hd Hk H1 H2 H3 H4 H5 He.
  assert (Z : forall f, (forall e, untracked e = true -> f e = false) ->
                        count f d = 0)
    by (intros f Hf; by apply count_untracked).
  split; try done.
  - rewrite H1, Z; [lia|]. by intros [].
  - rewrite H2, Z; [lia|]. by intros [].
  - rewrite H3, Z; [lia|]. by intros [].
  - rewrite H4, Z; [lia|]. by intros [].
  - rewrite H5, Z; [lia|]. by intros [].
  - apply Z. intros []; simpl; try done. by intros ->%negb_true_iff.
  - intros _. apply Z. by intros [].
  - intros p. rewrite Z; [lia|]. by intros [].
  - intros p. rewrite Z; [lia|]. by intros [].
  - intros p _. rewrite Hc. split; [done|]. apply Z. by intros [].
  - intros p. rewrite Z, He; [lia|]. by intros [].
  - intros p. rewrite (Z (upload_for p)); [lia|]. by intros [].
Qed.

Lemma rewrite_ref_accounts (note : TFile) (ref : AttachmentRef) (url : str)
    (resolved : TFile) (st st' : Run W) (reps reps' : list Replacement) :
  rewrite_ref note ref url resolved (st, reps) = (st', reps') ->
  Accounts opts st [] 0 st'
  /\ errors (report st') = errors (report st)
  /\ resolvedUrlByVaultPath st' = resolvedUrlByVaultPath st.
Proof.
  unfold rewrite_ref. destruct (negb _); intros [= <- <-].
  - split; [|done]. apply accounts_quiet; simpl; try done.
    by rewrite app_nil_r.
  - split; [|done]. apply accounts_refl.
Qed.

(** One reference. *)
Lemma process_ref_accounts (note : TFile) (ref : AttachmentRef)
    (st st' : Run W) (reps reps' : list Replacement) :
  process_ref opts note (st, reps) ref = (st', reps') ->
  exists d,
    Accounts opts st d
      (if blank_target ref then 0
       else if isProbablyRemoteLink (target ref) then 1 else 0) st'
    /\ count is_read d = 0
    /\ count rejected_call d <= 1
    /\ (count rejected_call d = 1 ->
        reps' = reps
        /\ exists resolved ev e,
             EvResolve (target ref) (path note) (Some resolved) ∈ d
             /\ last d = Some ev /\ rejection ev = Some e
             /\ errors (report st')
                = errors (report st) ++ [upload_failed_message resolved e]
             /\ resolvedUrlByVaultPath st' = resolvedUrlByVaultPath st)
    /\ (isProbablyRemoteLink (target ref) = true -> d = [] /\ reps' = reps)
    /\ (dryRun opts = true -> count absent_answer d = 1 ->
        exists resolved url st2,
          EvResolve (target ref) (path note) (Some resolved) ∈ d
          /\ resolvedUrlByVaultPath st' !! path resolved = Some url
          /\ rewrite_ref note ref url resolved (st2, reps) = (st', reps')).
Proof.
  unfold process_ref. destruct (blank_target ref) eqn:Hb.
  { intros [= <- <-]. exists []. split; [apply accounts_refl|].
    split; [done|]. split; [unfold count; simpl; lia|].
    split; [intros Hc; unfold count in Hc; simpl in Hc; lia|].
    split; [done|]. intros _ Hc. unfold count in Hc. simpl in Hc. lia. }
  destruct (isProbablyRemoteLink (target ref)) eqn:Hr.
  { intros [= <- <-]. exists []. split.
    - apply accounts_quiet; simpl; try done. by rewrite app_nil_r.
    - split; [done|]. split; [unfold count; simpl; lia|].
      split; [intros Hc; unfold count in Hc; simpl in Hc; lia|].
      split; [done|]. intros _ Hc. unfold count in Hc. simpl in Hc. lia. }
  set (res := getFirstLinkpathDest (target ref) (path note) (world st)).
  set (ev := EvResolve (target ref) (path note) res).
  set (st1 := emit ev st).
  assert (Hev : Forall (fun e => untracked e = true) [ev]).
  { constructor; [|done]. simpl. by rewrite Hr. }
  assert (A1 : Accounts opts st [ev] 0 st1).
  { apply accounts_quiet; simpl; try done; try lia. }
  assert (Z1 : forall f, (forall e, untracked e = true -> f e = false) ->
                         count f [ev] = 0)
    by (intros f Hf; by apply count_untracked).
  assert (Zr : count rejected_call [ev] = 0) by (apply Z1; by intros []).
  assert (Za : count absent_answer [ev] = 0) by (apply Z1; by intros []).
  assert (Zd : count is_read [ev] = 0) by done.
  assert (Quiet : forall st0 : Run W,
            Accounts opts st [ev] 0 st0 ->
            errors (report st0) = errors (report st) ->
            exists d,
              Accounts opts st d 0 st0
              /\ count is_read d = 0
              /\ count rejected_call d <= 1
              /\ (count rejected_call d = 1 ->
                  reps = reps
                  /\ exists resolved ev e,
                       EvResolve (target ref) (path note) (Some resolved) ∈ d
                       /\ last d = Some ev /\ rejection ev = Some e
                       /\ errors (report st0)
                          = errors (report st)
                            ++ [upload_failed_message resolved e]
                       /\ resolvedUrlByVaultPath st0
                          = resolvedUrlByVaultPath st)
              /\ (false = true -> d = [] /\ reps = reps)
              /\ (dryRun opts = true -> count absent_answer d = 1 ->
                  exists resolved url st2,
                    EvResolve (target ref) (path note) (Some resolved) ∈ d
                    /\ resolvedUrlByVaultPath st0 !! path resolved = Some url
                    /\ rewrite_ref note ref url resolved (st2, reps)
                       = (st0, reps))).
  { intros st0 A0 _. exists [ev]. split; [done|]. split; [done|].
    split; [lia|]. split; [intros; lia|]. split; [done|]. intros; lia. }
  destruct res as [resolved|] eqn:Eres.
  2:{ intros [= <- <-]. apply Quiet; [|done].
      apply accounts_quiet; simpl; try done; try lia. }
  destruct (str_eqb _ _ || negb _).
  { intros [= <- <-]. apply Quiet; [|done].
    apply accounts_quiet; simpl; try done; try lia. }
  unfold url_for.
  destruct (truthy_opt (resolvedUrlByVaultPath st1 !! path resolved))
    eqn:Hhit.
  { destruct (resolvedUrlByVaultPath st1 !! path resolved) as [url|];
      [|done].
    intros Hrw. destruct (rewrite_ref_accounts _ _ _ _ _ _ _ _ Hrw)
      as (A2 & He & Hc).
    exists ([ev] ++ []). split; [apply (accounts_trans _ _ _ _ _ _ _ _ A1 A2)|].
    rewrite app_nil_r.
    split; [done|]. split; [lia|]. split; [intros; lia|].
    split; [done|]. intros; lia. }
  destruct (upload_step opts resolved st1) as [r st2] eqn:Eu.
  destruct (upload_step_accounts _ _ _ _ Hhit Eu)
    as (d & A2 & Hrd & Hres & Hle & Hfail & Hdry & _).
  destruct r as [url|].
  - intros Hrw. destruct (rewrite_ref_accounts _ _ _ _ _ _ _ _ Hrw)
      as (A3 & He & Hc).
    exists ([ev] ++ d ++ []). split.
    { apply (accounts_trans _ _ _ _ _ _ 0 (0 + 0) A1).
      apply (accounts_trans _ _ _ _ _ _ _ _ A2 A3). }
    rewrite app_nil_r, !count_app, Zr, Za, Zd. simpl.
    split; [done|]. split; [done|].
    split; [intros Hc1; by destruct (Hfail Hc1)|].
    split; [done|].
    intros Hd Hab. destruct Hres as [_ Hurl].
    exists resolved, url, st2. split; [by left|]. split; [|done].
    by rewrite Hc.
  - intros [= <- <-]. exists ([ev] ++ d). split.
    { apply (accounts_trans _ _ _ _ _ _ 0 0 A1 A2). }
    rewrite !count_app, Zr, Za, Zd. simpl.
    split; [done|]. split; [done|]. split; [|split; [done|]].
    + intros Hc1. destruct (Hfail Hc1) as (_ & ev' & e & Hl & Hrj & Herr).
      split; [done|].
      exists resolved, ev', e. split; [by left|]. split.
      { destruct d as [|x d]; [done|]. by rewrite last_cons, Hl. }
      split; [done|]. split; [done|]. by rewrite Hres.
    + intros Hd Hab. by destruct (Hdry Hd Hab).
Qed.

(** The references of a note, one after the other. *)
Lemma fold_process_ref_accounts (note : TFile) (refs : list AttachmentRef)
    (st st' : Run W) (reps reps' : list Replacement) :
  fold_left (process_ref opts note) refs (st, reps) = (st', reps') ->
  exists d,
    Accounts opts st d
      (length (List.filter
                 (fun r => negb (blank_target r)
                           && isProbablyRemoteLink (target r)) refs)) st'
    /\ count is_read d = 0.
Proof.
  revert st reps. induction refs as [|ref refs IH]; intros st reps;
    cbn [fold_left].
  { intros [= <- <-]. exists []. split; [apply accounts_refl|done]. }
  destruct (process_ref opts note (st, reps) ref) as [st1 reps1] eqn:E1.
  intros Hfold. cbn [List.filter].
  destruct (process_ref_accounts _ _ _ _ _ _ E1) as (d1 & A1 & R1 & _).
  destruct (IH _ _ Hfold) as (d2 & A2 & R2).
  exists (d1 ++ d2). split; [|rewrite count_app; lia].
  pose proof (accounts_trans _ _ _ _ _ _ _ _ A1 A2) as A.
  destruct (blank_target ref); cbn [negb andb length]; [done|].
  by destruct (isProbablyRemoteLink (target ref)).
Qed.

(** The loop of [ensureBackup] needs no more fuel than it has used: once
    a free name is found, more fuel finds the same name. *)
Lemma backup_target_fuel (fuel fuel' : nat) (w : W) (base : str) (n : N)
    (t dest : str) :
  backup_target fuel w base n t = Some dest -> fuel <= fuel' ->
  backup_target fuel' w base n t = Some dest.
Proof.
  revert fuel' n t. induction fuel as [|fuel IH]; intros fuel' n t; simpl.
  { discriminate. }
  intros Hb Hle. destruct fuel' as [|fuel']; [lia|]. simpl.
  destruct (getAbstractFileByPath t w); [|done].
  apply IH; [done|lia].
Qed.

(** A vault with no file at [path.bak] needs one step. *)
Lemma backup_target_free (fuel : nat) (w : W) (base : str) :
  getAbstractFileByPath base w = false ->
  backup_target (S fuel) w base 0 base = Some base.
Proof. intros Hf. simpl. by rewrite Hf. Qed.

(** The backup and the write of a note. *)
Lemma persist_accounts (fuel : nat) (note : TFile) (next : str)
    (st st' : Run W) (a : option Abort) :
  persist fuel opts note next st = (st', a) ->
  exists d,
    Accounts opts st d 0 st' /\ count is_read d = 0
    /\ (forall e, a = Some (Throw e) ->
        exists ev, last d = Some ev /\ abort_cause ev = Some e)
    /\ (dryRun opts = true -> a = None).
Proof.
  unfold persist, ensureBackup, call.
  destruct (dryRun opts) eqn:Hdry.
  { intros [= <- <-]. persist_leaf. }
  destruct (makeBackup opts).
  - destruct (backup_target _ _ _ _ _) as [dest|].
    2:{ intros [= <- <-]. persist_leaf. }
    destruct (vault_copy note dest (world st)) as [[u|e] w1]; simpl.
    2:{ intros [= <- <-]. persist_leaf. }
    destruct (vault_modify note next w1) as [[u'|e] w2]; simpl;
      intros [= <- <-]; persist_leaf.
  - destruct (vault_modify note next (world st)) as [[u'|e] w2]; simpl;
      intros [= <- <-]; persist_leaf.
Qed.

Lemma remote_read_app (a b : list Event) :
  remote_read (a ++ b) = remote_read a + remote_read b.
Proof.
  induction a as [|e a IH]; simpl; [done|].
  destruct e as [|n [c|x]| | | | | | |]; simpl; lia.
Qed.

Lemma remote_read_none (d : list Event) :
  count is_read d = 0 -> remote_read d = 0.
Proof.
  unfold count. induction d as [|e d IH]; simpl; [done|].
  destruct e; simpl; auto. discriminate.
Qed.

(** A reference that passes the candidate filter has no blank target. *)
Lemma candidate_refs_not_blank (content : str) :
  Forall (fun r => blank_target r = false) (candidate_refs content).
Proof.
  unfold candidate_refs. apply Forall_forall. intros r Hr.
  apply list_elem_of_In, List.filter_In in Hr as [_ Hc].
  apply candidate_not_blank in Hc as [Hne Htrim].
  unfold blank_target.
  apply truthy_iff in Hne. rewrite Hne. simpl.
  by apply str_eqb_neq.
Qed.

Lemma remote_refs_filter (content : str) :
  List.filter
    (fun r => negb (blank_target r) && isProbablyRemoteLink (target r))
    (candidate_refs content)
  = remote_refs content.
Proof.
  unfold remote_refs. pose proof (candidate_refs_not_blank content) as Hnb.
  induction (candidate_refs content) as [|r l IH]; simpl; [done|].
  inversion Hnb as [|? ? Hr Hl]; subst. rewrite Hr. simpl.
  rewrite IH by done. done.
Qed.

(** One note. *)
Lemma process_note_accounts (fuel : nat) (note : TFile) (st st' : Run W)
    (a : option Abort) :
  process_note fuel opts st note = (st', a) ->
  exists d,
    Accounts opts st d (remote_read d) st'
    /\ (forall e, a = Some (Throw e) ->
        exists ev, last d = Some ev /\ abort_cause ev = Some e)
    /\ (dryRun opts = true -> a <> Some NoFuel).
Proof.
  unfold process_note, call. simpl.
  destruct (vault_read note (world st)) as [[content|e] w1] eqn:Er.
  2:{ intros [= <- <-]. exists [EvRead note (Err e)]. split.
      - apply accounts_quiet; simpl; try done; try lia. by repeat constructor.
      - split; [|done]. intros e' [= <-]. by eexists. }
  set (st1 := upd_report _ _).
  assert (A1 : Accounts opts st [EvRead note (Ok content)] 0 st1).
  { apply accounts_quiet; simpl; try done; try lia. by repeat constructor. }
  destruct (fold_left (process_ref opts note) (candidate_refs content)
              (st1, [])) as [st2 reps] eqn:Ef.
  destruct (fold_process_ref_accounts _ _ _ _ _ _ Ef) as (d2 & A2 & R2).
  rewrite remote_refs_filter in A2.
  pose proof (accounts_trans _ _ _ _ _ _ _ _ A1 A2) as A12.
  assert (K2 : remote_read ([EvRead note (Ok content)] ++ d2)
               = 0 + length (remote_refs content)).
  { simpl. rewrite (remote_read_none d2 R2). lia. }
  destruct (length reps =? 0).
  { intros [= <- <-]. exists ([EvRead note (Ok content)] ++ d2).
    rewrite K2. split; [done|]. split; [done|done]. }
  intros Hp.
  destruct (persist_accounts _ _ _ _ _ _ Hp) as (d3 & A3 & R3 & Ha & Hd).
  pose proof (accounts_trans _ _ _ _ _ _ _ _ A12 A3) as A.
  exists (([EvRead note (Ok content)] ++ d2) ++ d3).
  rewrite remote_read_app, K2, (remote_read_none d3 R3).
  split; [done|]. split.
  - intros e He. destruct (Ha e He) as (ev & Hl & Hc). exists ev.
    split; [|done]. destruct d3 as [|x d3]; [done|].
    by rewrite last_app_cons.
  - intros Hdry. by rewrite (Hd Hdry).
Qed.

(** The notes of the scope, one after the other. *)
Lemma process_notes_accounts (fuel : nat) (notes : list TFile)
    (st st' : Run W) (a : option Abort) :
  process_notes fuel opts notes st = (st', a) ->
  exists d,
    Accounts opts st d (remote_read d) st'
    /\ (forall e, a = Some (Throw e) ->
        exists ev, last d = Some ev /\ abort_cause ev = Some e)
    /\ (dryRun opts = true -> a <> Some NoFuel).
Proof.
  revert st. induction notes as [|note notes IH]; intros st; simpl.
  { intros [= <- <-]. exists []. split; [apply accounts_refl|done]. }
  destruct (process_note fuel opts st note) as [st1 a1] eqn:E1.
  destruct (process_note_accounts _ _ _ _ _ E1) as (d1 & A1 & Ha1 & Hd1).
  destruct a1 as [a1|].
  { intros [= <- <-]. exists d1. done. }
  intros E2. destruct (IH _ E2) as (d2 & A2 & Ha2 & Hd2).
  exists (d1 ++ d2). rewrite remote_read_app.
  split; [by apply (accounts_trans _ _ _ _ _ _ _ _ A1 A2)|].
  split; [|done].
  intros e He. destruct (Ha2 e He) as (ev & Hl & Hc). exists ev.
  split; [|done]. destruct d2 as [|x d2]; [done|].
  by rewrite last_app_cons.
Qed.

(** A whole run. *)
Lemma run_accounts (fuel : nat) (w : W) (out : Outcome) (st : Run W) :
  convertAttachments fuel opts w = (out, st) ->
  Accounts opts (mkRun w empty_report ∅ []) (trace st)
    (remote_read (trace st)) st
  /\ (forall r, out = Returned r -> r = report st)
  /\ (forall e, out = Rejected e ->
      exists ev, last (trace st) = Some ev /\ abort_cause ev = Some e)
  /\ (dryRun opts = true -> out <> OutOfFuel).
Proof.
  unfold convertAttachments.
  set (st0 := mkRun w empty_report ∅ []).
  assert (Quiet : forall msg,
            Accounts opts st0 (trace (emit (EvNotice msg) st0))
              (remote_read (trace (emit (EvNotice msg) st0)))
              (emit (EvNotice msg) st0)).
  { intros msg. apply accounts_quiet; simpl; try done. by repeat constructor. }
  destruct (negb (has_s3 w)).
  { intros [= <- <-]. split; [apply Quiet|]. split; [by intros r [= <-]|done]. }
  destruct (length _ =? 0).
  { intros [= <- <-]. split; [apply Quiet|]. split; [by intros r [= <-]|done]. }
  destruct (process_notes fuel opts _ st0) as [st1 a] eqn:E.
  destruct (process_notes_accounts _ _ _ _ _ E) as (d & A & Ha & Hd).
  assert (Ht : trace st1 = d) by (by rewrite (acc_trace _ _ _ _ _ A)).
  destruct a as [[e|]|].
  - intros [= <- <-]. rewrite Ht. split; [done|]. split; [done|].
    split; [|done]. intros e' [= <-]. by apply Ha.
  - intros [= <- <-]. rewrite Ht. split; [done|]. split; [done|].
    split; [done|]. intros Hdry _. by apply (Hd Hdry).
  - intros [= <- <-]. split; [|split; [by intros r [= <-]|done]].
    simpl. rewrite Ht.
    replace (remote_read (d ++ [EvNotice (final_notice opts (report st1))]))
      with (remote_read d + 0) by (rewrite remote_read_app; simpl; lia).
    apply (accounts_trans _ _ _ _ _ _ _ _ A).
    apply accounts_quiet; simpl; try done; try lia. by repeat constructor.
Qed.

End Steps.

(* ===================================================================== *)
(** ** Dry runs *)
(* ===================================================================== *)


Section Checking.
Context {W : Type} `{Host W}.




End Checking.





Section DrySteps.
Context {W : Type} `{Host W}.
Variable opts : ConvertAttachmentsOptions.
Hypothesis Hdry : dryRun opts = true.










End DrySteps.

(* ===================================================================== *)
(** ** Remote targets *)
(* ===================================================================== *)

Lemma startsWith_app (p t : str) :
  startsWith p t = true <-> exists rest, t = p ++ rest.
Proof.
  revert t. induction p as [|a p IH]; intros t; simpl.
  - split; eauto.
  - destruct t as [|b t]; simpl.
    + split; [done|]. by intros [rest Hr].
    + rewrite andb_true_iff, IH, N.eqb_eq. split.
      * intros [-> [rest ->]]. eauto.
      * intros [rest [= -> ->]]. eauto.
Qed.

Lemma span_snd_app (f : N -> bool) (x y : str) (c : N) :
  f c = false -> snd (span f (x ++ c :: y)) = snd (span f x) ++ c :: y.
Proof.
  intros Hc. induction x as [|a x IH]; simpl.
  - by rewrite Hc.
  - destruct (f a); [|done].
    destruct (span f (x ++ c :: y)), (span f x). simpl in *. done.
Qed.

Lemma trimStart_head (a : N) (s : str) :
  is_space a = false -> trimStart (a :: s) = a :: s.
Proof. intros Ha. unfold trimStart. simpl. by rewrite Ha. Qed.

Lemma trimEnd_middle (x y : str) (c : N) :
  is_space c = false -> trimEnd (x ++ c :: y) = x ++ c :: trimEnd y.
Proof.
  intros Hc. unfold trimEnd, trimStart.
  rewrite rev_app_distr. simpl. rewrite <- app_assoc. simpl.
  rewrite (span_snd_app is_space (rev y) (rev x) c Hc).
  rewrite rev_app_distr. simpl. rewrite rev_involutive.
  by rewrite <- app_assoc.
Qed.

(** [trim] keeps a prefix that begins and ends with other code units than
    white space. *)
Lemma startsWith_trim (p t : str) :
  p <> [] -> forallb (fun c => negb (is_space c)) p = true ->
  startsWith p t = true -> startsWith p (trim t) = true.
Proof.
  intros Hne Hall Hst. apply startsWith_app in Hst as [rest ->].
  apply startsWith_app.
  rewrite forallb_forall in Hall.
  assert (Hns : forall c, In c p -> is_space c = false).
  { intros c Hc. specialize (Hall c Hc). by apply negb_true_iff in Hall. }
  destruct (exists_last Hne) as (p' & c & Hp).
  assert (Hc : is_space c = false).
  { apply Hns. rewrite Hp. apply in_or_app. right. by left. }
  unfold trim.
  destruct p as [|a p0]; [done|].
  assert (Ha : is_space a = false) by (apply Hns; by left).
  change ((a :: p0) ++ rest) with (a :: (p0 ++ rest)).
  rewrite trimStart_head by done.
  change (a :: (p0 ++ rest)) with ((a :: p0) ++ rest).
  rewrite Hp, <- app_assoc. simpl.
  rewrite trimEnd_middle by done.
  exists (trimEnd rest). by rewrite <- app_assoc.
Qed.

Lemma begins_remote_probably (t : str) :
  begins_remote t = true -> isProbablyRemoteLink t = true.
Proof.
  unfold begins_remote, remote_schemes, isProbablyRemoteLink.
  cbn [List.map existsb]. rewrite !orb_true_iff.
  intros [Hb|[Hb|[Hb|[Hb|[Hb|Hb]]]]]; [| | | | |discriminate Hb];
    (apply startsWith_trim in Hb;
     [|by vm_compute|by vm_compute]); rewrite Hb; tauto.
Qed.

Lemma remote_not_blank (ref : AttachmentRef) :
  isProbablyRemoteLink (target ref) = true -> blank_target ref = false.
Proof.
  unfold isProbablyRemoteLink, blank_target. intros Hr.
  assert (Ht : trim (target ref) <> []).
  { intros Hn. rewrite Hn in Hr. done. }
  assert (Hne : target ref <> []) by (by intros Hn; rewrite Hn in Ht).
  apply truthy_iff in Hne. rewrite Hne. simpl. by apply str_eqb_neq.
Qed.

(* ===================================================================== *)
(** ** The batch orchestrator *)
(* ===================================================================== *)

Section Run.
Context {W : Type} `{Host W}.
Variable opts : ConvertAttachmentsOptions.

(** C10.  A target that passes [isAttachmentCandidate] is neither empty
    nor white space only, so the guard of the orchestrator for blank
    targets does not fire on it, nor on any reference of the
    candidate-filtered list of a text. *)
Theorem candidate_never_blank (ref : AttachmentRef) :
  isAttachmentCandidate toLowerCase includeEXT (target ref) = true ->
  target ref <> [] /\ trim (target ref) <> []
  /\ blank_target ref = false
  /\ forall content,
       Forall (fun r => blank_target r = false) (candidate_refs content).
Proof.
  intros Hc. destruct (candidate_not_blank _ _ _ Hc) as [Hne Htrim].
  split; [done|]. split; [done|]. split.
  - unfold blank_target. apply truthy_iff in Hne. rewrite Hne. simpl.
    by apply str_eqb_neq.
  - apply candidate_refs_not_blank.
Qed.

(** C4, as the code has it.  A reference whose target begins with a
    remote scheme costs no call: it is not resolved, hashed or uploaded,
    and the loop only counts it.  In a run the resolver is asked about no
    remote target, and [refsRemoteSkipped] counts the remote references
    among those that pass the candidate filter, in the notes that were
    read. *)
Theorem remote_skip (fuel : nat) (w : W) (out : Outcome) (st : Run W) :
  convertAttachments fuel opts w = (out, st) ->
  count resolves_remote (trace st) = 0
  /\ refsRemoteSkipped (report st) = remote_read (trace st)
  /\ (forall r, out = Returned r ->
      refsRemoteSkipped r = remote_read (trace st))
  /\ (forall note st0 reps ref,
        begins_remote (target ref) = true ->
        process_ref opts note (st0, reps) ref
        = (upd_report (add_refsRemoteSkipped 1) st0, reps)).
Proof.
  intros Hrun. destruct (run_accounts opts _ _ _ _ Hrun) as (A & Hret & _).
  split; [|split; [|split]].
  - apply (acc_resolve _ _ _ _ _ A).
  - by rewrite (acc_remote _ _ _ _ _ A).
  - intros r Hr. rewrite (Hret r Hr). by rewrite (acc_remote _ _ _ _ _ A).
  - intros note st0 reps ref Hb. apply begins_remote_probably in Hb.
    unfold process_ref. by rewrite (remote_not_blank ref Hb), Hb.
Qed.




End Run.

(* ===================================================================== *)
(** ** The replacement renderer *)
(* ===================================================================== *)

(** C6, as the code has it.  With the plain-link method, a markdown link
    and a wiki link become a markdown link: its label is the trimmed
    label of the reference, or the base name of the file when that is
    empty, and its destination is the URL followed by the suffix of the
    reference.  An embed of either syntax becomes the bare URL followed
    by the suffix. *)
Theorem buildReplacement_plain_link {W : Type} `{Host W}
    (ref : AttachmentRef) (url : str) (resolved : TFile) :
  getMethodForFile resolved = Link ->
  buildReplacement ref url resolved
  = match kind ref with
    | MdLink | ObsidianLink =>
        lit "[" ++ spec_label ref resolved ++ lit "](" ++ url
          ++ default [] (suffix ref) ++ lit ")"
    | MdEmbed | ObsidianEmbed => url ++ default [] (suffix ref)
    end.
Proof.
  intros Hm. unfold buildReplacement. rewrite Hm.
  assert (Hl : link_label ref resolved = spec_label ref resolved).
  { unfold link_label, spec_label.
    by destruct (trim (default [] (label ref))). }
  rewrite Hl, <- !app_assoc. by destruct (kind ref).
Qed.

Example extract_embed_zip :
  extractAttachmentRefs (lit "![[archive.zip]]") = [embed_zip].
Proof. vm_compute. reflexivity. Qed.

Example patch_two_refs :
  apply_replacements two_refs two_replacements
  = lit "see ![](u/a.png) and [b](u/b.pdf).".
Proof. vm_compute. reflexivity. Qed.

(** Why the theorem of C1 takes spans that are not empty, as the spans of
    references are: an empty span that is discovered before a span with
    the same start is spliced first, and the second splice then cuts at
    the wrong place. *)
Example patch_empty_span :
  apply_replacements (lit "abcdefg")
    [mkReplacement 3 3 (lit "X"); mkReplacement 3 5 (lit "Y")]
  = lit "abcYefg".
Proof. vm_compute. reflexivity. Qed.

Lemma apply_replacements_span_safe_witness :
  Forall (span_ok two_refs) two_replacements
  /\ ForallOrdPairs disjoint two_replacements
  /\ length (apply_replacements two_refs two_replacements)
     + sum_list_with span_length two_replacements
     = length two_refs + sum_list_with new_length two_replacements
  /\ (forall i c, two_refs !! i = Some c ->
        (forall r, r ∈ two_replacements -> ~ inside i r) ->
        apply_replacements two_refs two_replacements
          !! new_index two_replacements i = Some c)
  /\ (forall r, r ∈ two_replacements ->
        take (new_length r) (drop (new_index two_replacements (r_start r))
                               (apply_replacements two_refs two_replacements))
        = newText r).
Proof.
  assert (H1 : Forall (span_ok two_refs) two_replacements).
  { repeat constructor; vm_compute; lia. }
  assert (H2 : ForallOrdPairs disjoint two_replacements).
  { apply FOP_cons; [|apply FOP_cons; constructor].
    constructor; [|constructor]. left. vm_compute. lia. }
  split; [exact H1|]. split; [exact H2|].
  exact (apply_replacements_span_safe two_refs two_replacements H1 H2).
Defined.

(** C3 fails as it is stated: the markdown link and the wiki link in its
    destination are both scanned, and their spans overlap. *)
Lemma extractAttachmentRefs_overlap :
  exists a b,
    extractAttachmentRefs nested = [a; b]
    /\ kind a = MdLink /\ kind b = ObsidianLink
    /\ (start a, end_ a) = (0, 14) /\ (start b, end_ b) = (4, 13)
    /\ start b < end_ a /\ start a < end_ b.
Proof.
  eexists _, _. split; [vm_compute; reflexivity|]. simpl.
  repeat split; lia.
Qed.

(** C6 fails as it is stated: an embed rendered with the plain-link
    method becomes the bare URL, not a markdown link with a label. *)
Lemma buildReplacement_embed_bare :
  getMethodForFile archive = Link
  /\ buildReplacement embed_zip (lit "u") archive = lit "u"
  /\ lit "u" <> lit "[archive](u)".
Proof. split; [reflexivity|]. split; [reflexivity|discriminate]. Qed.

Lemma buildReplacement_plain_link_witness :
  getMethodForFile archive = Link
  /\ buildReplacement embed_zip (lit "u") archive
     = match kind embed_zip with
       | MdLink | ObsidianLink =>
           lit "[" ++ spec_label embed_zip archive ++ lit "](" ++ lit "u"
             ++ default [] (suffix embed_zip) ++ lit ")"
       | MdEmbed | ObsidianEmbed => lit "u" ++ default [] (suffix embed_zip)
       end.
Proof.
  split; [reflexivity|].
  apply (buildReplacement_plain_link embed_zip (lit "u") archive).
  reflexivity.
Defined.

Lemma candidate_never_blank_witness :
  isAttachmentCandidate toLowerCase includeEXT (target embed_photo) = true
  /\ target embed_photo <> [] /\ trim (target embed_photo) <> []
  /\ blank_target embed_photo = false
  /\ forall content,
       Forall (fun r => blank_target r = false) (candidate_refs content).
Proof.
  split; [vm_compute; reflexivity|].
  apply (candidate_never_blank (W := Demo.World) embed_photo).
  vm_compute; reflexivity.
Defined.



(** C4 fails as it is stated: a scanned reference with a remote target
    that does not look like an attachment is dropped by the candidate
    filter and is not counted. *)
Lemma remote_skip_uncounted :
  exists ref rep st,
    extractAttachmentRefs web_link = [ref]
    /\ startsWith (lit "https://") (target ref) = true
    /\ convertAttachments 5 Demo.opts_run vault_web = (Returned rep, st)
    /\ refsRemoteSkipped rep = 0.
Proof.
  eexists _, _, _. split; [vm_compute; reflexivity|].
  split; [vm_compute; reflexivity|].
  split; [vm_compute; reflexivity|reflexivity].
Qed.

Lemma remote_skip_witness :
  exists rep st,
    convertAttachments 5 Demo.opts_run vault_mixed = (Returned rep, st)
    /\ refsRemoteSkipped rep = 1 /\ linksRewritten rep = 1
    /\ count resolves_remote (trace st) = 0
    /\ refsRemoteSkipped (report st) = remote_read (trace st).
Proof.
  set (run := convertAttachments 5 Demo.opts_run vault_mixed).
  destruct (remote_skip Demo.opts_run 5 vault_mixed (fst run) (snd run)
              (surjective_pairing run))
    as (H1 & H2 & _).
  exists (report (snd run)), (snd run).
  split; [vm_compute; reflexivity|].
  split; [vm_compute; reflexivity|]. split; [vm_compute; reflexivity|].
  split; [exact H1|exact H2].
Defined.





(* ===================================================================== *)
(** ** helper.ts: object names and hexadecimal text *)
(* ===================================================================== *)

Lemma hex_digit_lower (n : N) : (n < 16)%N -> lower_hex (hex_digit n) = true.
Proof.
  intros Hn. unfold lower_hex, hex_digit.
  destruct (N.ltb_spec n 10); apply orb_true_iff; [left|right];
    apply andb_true_iff; split; apply N.leb_le; lia.
Qed.

Lemma hex_digit_inj (a b : N) :
  (a < 16)%N -> (b < 16)%N -> hex_digit a = hex_digit b -> a = b.
Proof.
  unfold hex_digit. intros Ha Hb.
  destruct (N.ltb_spec a 10), (N.ltb_spec b 10); lia.
Qed.

Lemma hex2_inj (a b : N) :
  (a < 256)%N -> (b < 256)%N -> hex2 a = hex2 b -> a = b.
Proof.
  intros Ha Hb [= H1 H2]. unfold hex2 in *.
  apply hex_digit_inj in H1;
    [|apply N.Div0.div_lt_upper_bound; lia|apply N.Div0.div_lt_upper_bound; lia].
  apply hex_digit_inj in H2; [|apply N.mod_lt; lia|apply N.mod_lt; lia].
  rewrite (N.div_mod a 16), (N.div_mod b 16) by lia. congruence.
Qed.

Lemma byte_to_N_lt (x : Byte.byte) : (Byte.to_N x < 256)%N.
Proof. pose proof (Byte.to_N_bounded x). lia. Qed.

Lemma byte_to_N_inj (x y : Byte.byte) : Byte.to_N x = Byte.to_N y -> x = y.
Proof.
  intros Hxy. pose proof (Byte.of_to_N x) as Hx.
  rewrite Hxy, Byte.of_to_N in Hx. congruence.
Qed.

(** [buf2hex] writes two lower-case hexadecimal digits for every byte. *)
Theorem buf2hex_digits (buffer : list Byte.byte) :
  length (buf2hex buffer) = 2 * length buffer
  /\ Forall (fun c => lower_hex c = true) (buf2hex buffer).
Proof.
  unfold buf2hex. induction buffer as [|x buffer [IHl IHd]]; simpl.
  { split; [done|constructor]. }
  split; [lia|].
  pose proof (byte_to_N_lt x) as Hx.
  constructor; [|constructor; [|done]]; apply hex_digit_lower.
  - apply N.Div0.div_lt_upper_bound. lia.
  - apply N.mod_lt. lia.
Qed.

(** [buf2hex] loses nothing: two buffers with the same text are equal. *)
Theorem buf2hex_inj (a b : list Byte.byte) :
  buf2hex a = buf2hex b -> a = b.
Proof.
  unfold buf2hex. revert b.
  induction a as [|x a IH]; intros [|y b]; simpl; try done.
  intros [= H1 H2 Hrest]. f_equal; [|by apply IH].
  apply byte_to_N_inj, hex2_inj; try apply byte_to_N_lt.
  unfold hex2. congruence.
Qed.

Lemma buf2hex_inj_witness :
  buf2hex [Byte.x0a; Byte.xff] = buf2hex [Byte.x0a; Byte.xff]
  /\ [Byte.x0a; Byte.xff] = [Byte.x0a; Byte.xff].
Proof.
  split; [reflexivity|].
  apply (buf2hex_inj [Byte.x0a; Byte.xff] [Byte.x0a; Byte.xff]). reflexivity.
Defined.

Lemma split_whole (c : N) (a : str) : c ∉ a -> split c a = [a].
Proof.
  induction a as [|x a IH]; intros Hc; simpl; [done|].
  apply not_elem_of_cons in Hc as [Hx Ha].
  destruct (N.eqb_spec x c) as [->|_]; [done|]. by rewrite IH.
Qed.

(** A file name with one dot and a hash: the hash goes between the stem
    and the extension, which is kept. *)
Theorem generateResourceName_one_dot (now : N) (a b hash : str)
    (parent : option str) :
  ch "." ∉ a -> ch "." ∉ b -> hash <> [] ->
  generateResourceName now (a ++ lit "." ++ b) parent (Some hash)
  = a ++ lit "-" ++ hash ++ lit "." ++ b.
Proof.
  intros Ha Hb Hh. unfold generateResourceName.
  change (lit "." ++ b) with (ch "." :: b).
  rewrite (split_sep _ a b Ha), (split_whole _ b Hb). simpl.
  apply truthy_iff in Hh. by rewrite Hh.
Qed.

Lemma generateResourceName_one_dot_witness :
  generateResourceName 0 (lit "photo" ++ lit "." ++ lit "png") None
    (Some (lit "abc"))
  = lit "photo" ++ lit "-" ++ lit "abc" ++ lit "." ++ lit "png".
Proof.
  apply generateResourceName_one_dot;
    [apply (bool_decide_unpack _); by vm_compute..|done].
Defined.

(** A file name without a dot has no second segment, and the template
    prints the missing extension as the word [undefined]. *)
Theorem generateResourceName_no_dot (now : N) (fileName hash : str)
    (parent : option str) :
  ch "." ∉ fileName -> hash <> [] ->
  generateResourceName now fileName parent (Some hash)
  = fileName ++ lit "-" ++ hash ++ lit ".undefined".
Proof.
  intros Hf Hh. unfold generateResourceName.
  rewrite (split_whole _ fileName Hf). simpl.
  apply truthy_iff in Hh. by rewrite Hh.
Qed.

Lemma generateResourceName_no_dot_witness :
  generateResourceName 0 (lit "README") None (Some (lit "abc"))
  = lit "README" ++ lit "-" ++ lit "abc" ++ lit ".undefined".
Proof.
  apply generateResourceName_no_dot;
    [apply (bool_decide_unpack _); by vm_compute|done].
Defined.

(** Without a hash, or with the empty text for one, the name carries the
    time instead, after the parent when there is a non-empty one. *)
Theorem generateResourceName_timestamp (now : N) (a b : str)
    (parent hash : option str) :
  ch "." ∉ a -> ch "." ∉ b -> hash = None \/ hash = Some [] ->
  generateResourceName now (a ++ lit "." ++ b) parent hash
  = match parent with
    | Some (c :: p) => (c :: p) ++ lit "-"
    | _ => []
    end ++ a ++ lit "-" ++ of_N now ++ lit "." ++ b.
Proof.
  intros Ha Hb Hh. unfold generateResourceName.
  change (lit "." ++ b) with (ch "." :: b).
  rewrite (split_sep _ a b Ha), (split_whole _ b Hb). simpl.
  assert (Hf : truthy_opt hash = false) by (by destruct Hh as [-> | ->]).
  rewrite Hf. by destruct parent as [[|c p]|].
Qed.

Lemma generateResourceName_timestamp_witness :
  generateResourceName 17 (lit "photo" ++ lit "." ++ lit "png")
    (Some (lit "notes")) (Some [])
  = lit "notes-photo-17.png".
Proof.
  apply (generateResourceName_timestamp 17 (lit "photo") (lit "png")
           (Some (lit "notes")) (Some []));
    [apply (bool_decide_unpack _); by vm_compute..|by right].
Defined.

(* ===================================================================== *)
(** ** helper.ts: the index of S3 URLs *)
(* ===================================================================== *)

Lemma backslash_syntax : is_syntax_char backslash = true.
Proof. reflexivity. Qed.

(** [escapeRegExp] makes a pattern that [new RegExp] reads as the text
    itself, whatever syntax characters the text has. *)
Theorem escapeRegExp_literal (s : str) :
  pattern_literal (escapeRegExp s) = Some s.
Proof.
  induction s as [|c s IH]; [done|].
  unfold escapeRegExp in *. cbn [flat_map].
  destruct (is_syntax_char c) eqn:Hc; cbn [app pattern_literal].
  - rewrite N.eqb_refl, Hc. cbn [orb]. by rewrite IH.
  - destruct (N.eqb_spec c backslash) as [->|_].
    + by rewrite backslash_syntax in Hc.
    + by rewrite Hc, IH.
Qed.

(** An escaped text at the head of a pattern is read as the text, and
    the rest of the pattern as it is read alone. *)
Lemma pattern_literal_escape (s p : str) :
  pattern_literal (escapeRegExp s ++ p) = app s <$> pattern_literal p.
Proof.
  induction s as [|c s IH]; simpl.
  { by destruct (pattern_literal p). }
  unfold escapeRegExp in *. cbn [flat_map].
  destruct (is_syntax_char c) eqn:Hc; cbn [app pattern_literal].
  - rewrite N.eqb_refl, Hc. cbn [orb]. rewrite IH.
    by destruct (pattern_literal p).
  - destruct (N.eqb_spec c backslash) as [->|_].
    + by rewrite backslash_syntax in Hc.
    + rewrite Hc, IH. by destruct (pattern_literal p).
Qed.

Lemma s3_pattern_escape (base : str) :
  s3_pattern (escapeRegExp base) = Some (re_s3 base).
Proof.
  unfold s3_pattern. rewrite <- (app_nil_r (escapeRegExp base)).
  rewrite pattern_literal_escape. simpl. by rewrite app_nil_r.
Qed.

(** What [span] returns: the two parts of the text, the first within the
    class, the second not beginning in it. *)
Lemma span_spec (p : N -> bool) (s : str) :
  s = fst (span p s) ++ snd (span p s)
  /\ Forall (fun c => p c = true) (fst (span p s))
  /\ match snd (span p s) with [] => True | c :: _ => p c = false end.
Proof.
  induction s as [|x s (IH1 & IH2 & IH3)]; simpl.
  { split; [done|]. split; [constructor|done]. }
  destruct (p x) eqn:Hx; [|by split; [|split; [constructor|]]].
  destruct (span p s) as [a b]; simpl in *.
  split; [by rewrite IH1 at 1|]. split; [by constructor|done].
Qed.

Lemma span_all (p : N -> bool) (a b : str) :
  Forall (fun c => p c = true) a ->
  match b with [] => True | c :: _ => p c = false end ->
  span p (a ++ b) = (a, b).
Proof.
  intros Ha Hb. induction Ha as [|x a Hx Ha IH]; simpl.
  - destruct b as [|c b]; [done|]. simpl. by rewrite Hb.
  - by rewrite Hx, IH.
Qed.

(** Every match of a global pattern is a match of the pattern at its
    index, with the code unit before it for the look-behind. *)
Lemma exec_all_sound {G} (re : Matcher G) (prev : option N) (pos skip : nat)
    (s : str) :
  Forall (fun m => exists i,
            m_index m = pos + i /\ skip <= i /\ i < length s
            /\ re (prev_at prev s i) (drop i s) = Some (snd m, m_length m))
    (exec_all re prev pos skip s).
Proof.
  revert prev pos skip. induction s as [|c s IH]; intros prev pos skip; simpl.
  { constructor. }
  assert (Step : forall k,
            Forall (fun m => exists i,
                      m_index m = pos + i /\ S k <= i /\ i < S (length s)
                      /\ re (prev_at prev (c :: s) i) (drop i (c :: s))
                         = Some (snd m, m_length m))
              (exec_all re (Some c) (S pos) k s)).
  { intros k. eapply Forall_impl; [apply (IH (Some c) (S pos) k)|].
    intros m (i & Hi & Hk & Hlen & Hre). exists (S i).
    split; [lia|]. split; [lia|]. split; [lia|].
    by destruct i. }
  destruct skip as [|k].
  - destruct (re prev (c :: s)) as [[g len]|] eqn:Hre.
    + constructor.
      * exists 0. unfold m_index, m_length. simpl.
        split; [lia|]. split; [lia|]. split; [lia|done].
      * eapply Forall_impl; [apply (Step (len - 1))|].
        intros m (i & ? & ? & ? & ?). exists i. repeat split; auto; lia.
    + eapply Forall_impl; [apply (Step 0)|].
      intros m (i & ? & ? & ? & ?). exists i. repeat split; auto; lia.
  - apply Step.
Qed.

(** A text where the pattern matches somewhere has a first match. *)
Lemma exec_all_complete {G} (re : Matcher G) (prev : option N) (pos : nat)
    (s : str) (i : nat) :
  i < length s -> is_Some (re (prev_at prev s i) (drop i s)) ->
  exec_all re prev pos 0 s <> [].
Proof.
  revert prev pos i. induction s as [|c s IH]; intros prev pos i; simpl.
  { lia. }
  intros Hi Hre. destruct (re prev (c :: s)) as [[g len]|] eqn:H0; [done|].
  destruct i as [|i].
  { simpl in Hre. rewrite H0 in Hre. by destruct Hre. }
  apply (IH (Some c) (S pos) i); [lia|]. by destruct i.
Qed.

Lemma re_s3_spec (base : str) (p : option N) (t : str) (len : nat) :
  re_s3 base p t = Some (tt, len) ->
  exists tail rest,
    t = (base ++ lit "/" ++ tail) ++ rest
    /\ len = length (base ++ lit "/" ++ tail)
    /\ Forall (fun c => url_char c = true) tail
    /\ match rest with [] => True | c :: _ => url_char c = false end.
Proof.
  unfold re_s3. destruct (startsWith _ t) eqn:Hs; [|done].
  apply startsWith_app in Hs as [r ->]. intros [= <-].
  replace (drop (length base + 1) ((base ++ lit "/") ++ r)) with r.
  2:{ rewrite drop_app_length'; [done|]. by rewrite length_app. }
  destruct (span_spec url_char r) as (Hr & Hall & Hrest).
  exists (fst (span url_char r)), (snd (span url_char r)).
  split; [by rewrite <- !app_assoc, <- Hr|].
  split; [rewrite !length_app; simpl; lia|done].
Qed.

Lemma match_all_s3 (base content : str) :
  Forall (fun u => exists tail pre post,
            u = base ++ lit "/" ++ tail
            /\ Forall (fun c => url_char c = true) tail
            /\ content = pre ++ u ++ post
            /\ match post with [] => True | c :: _ => url_char c = false end)
    (match_all (re_s3 base) content).
Proof.
  unfold match_all. apply Forall_fmap.
  eapply Forall_impl; [apply (exec_all_sound (re_s3 base) None 0 0 content)|].
  intros [[i len] []] (j & Hj & _ & Hlen & Hre). unfold m_index, m_length in *.
  simpl in *. subst j.
  apply re_s3_spec in Hre as (tail & rest & Ht & -> & Hall & Hrest).
  exists tail, (take i content), rest.
  assert (Hu : slice i (i + length (base ++ lit "/" ++ tail)) content
               = base ++ lit "/" ++ tail).
  { unfold slice. rewrite Ht.
    replace (i + _ - i) with (length (base ++ lit "/" ++ tail)) by lia.
    by rewrite take_app_length. }
  rewrite Hu. split; [done|]. split; [done|]. split; [|done].
  rewrite <- Ht. by rewrite take_drop.
Qed.

(** [matchS3URLs] reads every base URL as plain text, whatever characters
    it has, and each URL it returns is found in the content: a non-empty
    base without the slashes at its end, a slash, and the code units up to
    the next double quote, closing bracket, closing parenthesis or white
    space. *)
Theorem matchS3URLs_matches (content : str) (baseUrls : list str) :
  exists urls,
    matchS3URLs content baseUrls = Some urls
    /\ Forall (fun u => exists baseUrl,
                 baseUrl ∈ baseUrls /\ baseUrl <> []
                 /\ s3_url_of content baseUrl u) urls.
Proof.
  induction baseUrls as [|b rest (urls & IH & Hall)]; simpl.
  { exists []. split; [done|constructor]. }
  assert (Hrest : Forall (fun u => exists baseUrl,
                            baseUrl ∈ b :: rest /\ baseUrl <> []
                            /\ s3_url_of content baseUrl u) urls).
  { eapply Forall_impl; [exact Hall|]. intros u (b' & Hb' & ?).
    exists b'. split; [by right|done]. }
  destruct (truthy b) eqn:Hb; simpl.
  2:{ exists urls. done. }
  rewrite s3_pattern_escape, IH. simpl.
  eexists. split; [reflexivity|]. apply Forall_app. split; [|done].
  eapply Forall_impl; [apply match_all_s3|].
  intros u Hu. exists b. split; [by left|]. split; [|exact Hu].
  by apply truthy_iff.
Qed.

(** For one base URL, [matchS3URLs] returns no URL exactly when the
    content nowhere has the base followed by a slash. *)
Theorem matchS3URLs_finds (content baseUrl : str) :
  baseUrl <> [] ->
  matchS3URLs content [baseUrl] = Some []
  <-> ~ exists pre post,
          content = pre ++ strip_slashes baseUrl ++ lit "/" ++ post.
Proof.
  intros Hne. apply truthy_iff in Hne. simpl. rewrite Hne. simpl.
  rewrite s3_pattern_escape. simpl.
  rewrite app_nil_r. set (base := strip_slashes baseUrl). split.
  - intros [= Hm] (pre & post & Hc).
    assert (Hex : exec_all (re_s3 base) None 0 0 content <> []).
    { apply (exec_all_complete _ None 0 content (length pre)).
      - rewrite Hc, !length_app. simpl. lia.
      - rewrite Hc, drop_app_length. unfold re_s3.
        assert (Hs : startsWith (base ++ lit "/") (base ++ ch "/" :: post)
                     = true)
          by (apply startsWith_app; exists post; by rewrite <- app_assoc).
        by rewrite Hs. }
    unfold match_all in Hm. by destruct (exec_all _ _ _ _ _).
  - intros Hno. f_equal.
    pose proof (match_all_s3 base content) as Hall.
    destruct (match_all (re_s3 base) content) as [|u l]; [done|].
    inversion Hall as [|? ? (tail & pre & post & Hu & _ & Hc & _) _].
    exfalso. apply Hno. exists pre, (tail ++ post).
    by rewrite Hc, Hu, <- !app_assoc.
Qed.

Lemma matchS3URLs_finds_witness :
  lit "https://cdn.example.com/" <> []
  /\ (matchS3URLs (lit "no link here") [lit "https://cdn.example.com/"]
      = Some []
      <-> ~ exists pre post,
              lit "no link here"
              = pre ++ strip_slashes (lit "https://cdn.example.com/")
                  ++ lit "/" ++ post).
Proof.
  split; [discriminate|].
  apply (matchS3URLs_finds (lit "no link here")
           (lit "https://cdn.example.com/")).
  discriminate.
Defined.

(** The example of a base with dots: they match dots only. *)
Example matchS3URLs_dots :
  matchS3URLs (lit "![](https://a.b/f/x.png) and https://aXb/f/y.png")
    [lit "https://a.b/"]
  = Some [lit "https://a.b/f/x.png"].
Proof. vm_compute. reflexivity. Qed.

Lemma set_values_from (xs acc : list str) :
  NoDup acc ->
  NoDup (fold_left
           (fun acc x => if bool_decide (x ∈ acc) then acc else acc ++ [x])
           xs acc)
  /\ forall x,
       x ∈ fold_left
             (fun acc x => if bool_decide (x ∈ acc) then acc else acc ++ [x])
             xs acc
       <-> x ∈ acc \/ x ∈ xs.
Proof.
  revert acc. induction xs as [|y xs IH]; intros acc Hnd; simpl.
  { split; [done|]. intros x. rewrite elem_of_nil. tauto. }
  destruct (bool_decide_reflect (y ∈ acc)) as [Hin|Hout].
  - destruct (IH acc Hnd) as [H1 H2]. split; [done|].
    intros x. rewrite H2, elem_of_cons. split; [tauto|].
    intros [?|[->|?]]; auto.
  - assert (Hnd' : NoDup (acc ++ [y])).
    { apply NoDup_app. split; [done|]. split; [|apply NoDup_singleton].
      intros x Hx ->%list_elem_of_singleton. done. }
    destruct (IH _ Hnd') as [H1 H2]. split; [done|].
    intros x. rewrite H2, elem_of_app, list_elem_of_singleton, elem_of_cons.
    tauto.
Qed.

Lemma matchS3URLs_total (content : str) (baseUrls : list str) :
  is_Some (matchS3URLs content baseUrls).
Proof.
  induction baseUrls as [|b rest [urls IH]]; simpl; [done|].
  destruct (truthy b); simpl; [|by rewrite IH].
  by rewrite s3_pattern_escape, IH.
Qed.

Section IndexFacts.
Context {W : Type} `{Host W}.

Lemma collect_urls_read_all (files : list TFile) (baseUrls acc : list str)
    (w : W) :
  collect_urls files baseUrls acc w
  = Some match read_all files w with
         | (Ok contents, w1) =>
             (Ok (acc ++ flat_map
                            (fun c => default [] (matchS3URLs c baseUrls))
                            contents), w1)
         | (Err e, w1) => (Err e, w1)
         end.
Proof.
  revert acc w. induction files as [|f files IH]; intros acc w; simpl.
  { by rewrite app_nil_r. }
  destruct (vault_read f w) as [[content|e] w1]; [|done].
  destruct (matchS3URLs_total content baseUrls) as (urls & Hm).
  rewrite Hm, IH. destruct (read_all files w1) as [[contents|e] w2]; [|done].
  simpl. by rewrite Hm, app_assoc.
Qed.

(** [getS3URLs] rejects with the first read that rejects; otherwise it
    returns, without repetition, exactly the URLs that [matchS3URLs] finds
    in the texts of the files. *)
Theorem getS3URLs_set (files : list TFile) (baseUrls : list str) (w : W) :
  exists r w',
    getS3URLs files baseUrls w = Some (r, w')
    /\ match read_all files w with
       | (Err e, w1) => r = Err e /\ w' = w1
       | (Ok contents, w1) =>
           w' = w1
           /\ exists urls,
                r = Ok urls /\ NoDup urls
                /\ forall u,
                     u ∈ urls
                     <-> exists content found,
                           content ∈ contents
                           /\ matchS3URLs content baseUrls = Some found
                           /\ u ∈ found
       end.
Proof.
  unfold getS3URLs. rewrite collect_urls_read_all.
  destruct (read_all files w) as [[contents|e] w1]; [|by eexists _, _].
  eexists _, _. split; [reflexivity|]. split; [done|].
  eexists. split; [reflexivity|].
  destruct (set_values_from
              (flat_map (fun c => default [] (matchS3URLs c baseUrls)) contents)
              [] (NoDup_nil_2)) as [Hnd Hin].
  split; [exact Hnd|]. intros u. unfold set_values. simpl. rewrite Hin.
  rewrite elem_of_nil, list_elem_of_In, in_flat_map. split.
  - intros [[]|(c & Hc & Hu)].
    destruct (matchS3URLs_total c baseUrls) as (found & Hf).
    rewrite Hf in Hu. exists c, found.
    split; [by apply list_elem_of_In|]. split; [done|by apply list_elem_of_In].
  - intros (c & found & Hc & Hf & Hu). right. exists c.
    split; [by apply list_elem_of_In|]. rewrite Hf. by apply list_elem_of_In.
Qed.

End IndexFacts.

Example getS3URLs_twice :
  getS3URLs [note1; note1] [lit "http://h"]
    (Demo.mkWorld [(note1, lit "(http://h/a) http://h/b http://h/a")] [] [] 0
       None)
  = Some (Ok [lit "http://h/a"; lit "http://h/b"],
          Demo.mkWorld [(note1, lit "(http://h/a) http://h/b http://h/a")] []
            [] 0 None).
Proof. vm_compute. reflexivity. Qed.

(* ===================================================================== *)
(** ** convertAttachments.ts: trimming and the two parsers *)
(* ===================================================================== *)

Lemma trimStart_spec (s : str) :
  exists ws,
    s = ws ++ trimStart s /\ Forall (fun c => is_space c = true) ws
    /\ match trimStart s with [] => True | c :: _ => is_space c = false end.
Proof.
  unfold trimStart. destruct (span_spec is_space s) as (H1 & H2 & H3).
  by exists (fst (span is_space s)).
Qed.

Lemma trimStart_spaces (ws s : str) :
  Forall (fun c => is_space c = true) ws -> trimStart (ws ++ s) = trimStart s.
Proof.
  unfold trimStart. induction 1 as [|c ws Hc _ IH]; [done|]. simpl.
  rewrite Hc. by destruct (span is_space (ws ++ s)).
Qed.

Lemma trimEnd_spec (s : str) :
  exists ws,
    s = trimEnd s ++ ws /\ Forall (fun c => is_space c = true) ws
    /\ match rev (trimEnd s) with
       | [] => True
       | c :: _ => is_space c = false
       end.
Proof.
  unfold trimEnd. destruct (trimStart_spec (rev s)) as (ws & H1 & H2 & H3).
  exists (rev ws). rewrite rev_involutive. split; [|split; [|done]].
  - rewrite <- rev_app_distr, <- H1. by rewrite rev_involutive.
  - by apply Forall_rev.
Qed.

(** [trim] takes white space off both ends and nothing else. *)
Lemma trim_spec (s : str) :
  exists a b,
    s = a ++ trim s ++ b
    /\ Forall (fun c => is_space c = true) a
    /\ Forall (fun c => is_space c = true) b
    /\ no_outer_space (trim s) = true.
Proof.
  unfold trim.
  destruct (trimStart_spec s) as (a & Ha & Hsa & Hhead).
  destruct (trimEnd_spec (trimStart s)) as (b & Hb & Hsb & Hlast).
  exists a, b. split; [by rewrite <- Hb|]. split; [done|]. split; [done|].
  unfold no_outer_space. apply andb_true_iff. split.
  - destruct (trimEnd (trimStart s)) as [|c t] eqn:Et; [done|].
    rewrite Hb in Hhead. simpl in Hhead. by rewrite Hhead.
  - destruct (rev (trimEnd (trimStart s))) as [|c t]; [done|]. by rewrite Hlast.
Qed.

Lemma trimEnd_id (s : str) :
  match rev s with [] => True | c :: _ => is_space c = false end ->
  trimEnd s = s.
Proof.
  intros Hs. unfold trimEnd, trimStart.
  rewrite <- (rev_involutive s) at 2.
  destruct (rev s) as [|c t]; simpl; [done|]. by rewrite Hs.
Qed.

Lemma trim_id (s : str) : no_outer_space s = true -> trim s = s.
Proof.
  unfold no_outer_space. intros [Hh Hl]%andb_true_iff. unfold trim.
  assert (Hs : trimStart s = s).
  { destruct s as [|c s]; [done|]. apply trimStart_head.
    by apply negb_true_iff. }
  rewrite Hs. apply trimEnd_id. destruct (rev s); [done|].
  by apply negb_true_iff.
Qed.

Lemma trim_elem (c : N) (s : str) : c ∈ trim s -> c ∈ s.
Proof.
  intros Hc. destruct (trim_spec s) as (a & b & Hs & _). rewrite Hs.
  rewrite !elem_of_app. auto.
Qed.

Lemma split_first_spec (c : N) (s : str) :
  (c ∉ split_first c s) /\ exists r, s = split_first c s ++ r.
Proof.
  unfold split_first. induction s as [|x s [IH1 [r IH2]]]; simpl.
  { split; [apply not_elem_of_nil|by exists []]. }
  destruct (N.eqb_spec x c) as [->|Hne].
  { split; [apply not_elem_of_nil|by eexists]. }
  destruct (split c s) as [|seg segs]; simpl in *.
  - split; [|by exists s].
    rewrite not_elem_of_cons. split; [congruence|apply not_elem_of_nil].
  - split; [|exists r; by rewrite IH2 at 1].
    rewrite not_elem_of_cons. split; [congruence|done].
Qed.

Lemma indexOf_spec (c : N) (s : str) :
  match indexOf c s with
  | Some i => (c ∉ take i s) /\ s !! i = Some c
  | None => c ∉ s
  end.
Proof.
  induction s as [|x s IH]; simpl; [apply not_elem_of_nil|].
  destruct (N.eqb_spec x c) as [->|Hne].
  { split; [apply not_elem_of_nil|done]. }
  destruct (indexOf c s) as [i|]; simpl.
  - destruct IH as [IH1 IH2]. split; [|done].
    rewrite not_elem_of_cons. split; [congruence|done].
  - rewrite not_elem_of_cons. split; [congruence|done].
Qed.

Lemma take_elem (c : N) (n : nat) (s : str) : c ∈ take n s -> c ∈ s.
Proof. intros Hc. rewrite <- (take_drop n s). apply elem_of_app. by left. Qed.

(** The link path of a wiki link has no white space at its ends and none
    of the bar, the hash and the caret; a label, when there is one, is not
    empty and has no white space at its ends. *)
Theorem parseObsidianLinkTarget_clean (inner : str) :
  no_outer_space (fst (parseObsidianLinkTarget inner)) = true
  /\ (ch "|" ∉ fst (parseObsidianLinkTarget inner))
  /\ (ch "#" ∉ fst (parseObsidianLinkTarget inner))
  /\ (ch "^" ∉ fst (parseObsidianLinkTarget inner))
  /\ match snd (parseObsidianLinkTarget inner) with
     | Some l => l <> [] /\ no_outer_space l = true
     | None => True
     end.
Proof.
  unfold parseObsidianLinkTarget.
  set (t := trim inner).
  assert (Cut : forall lp : str,
            (ch "|" ∉ lp) ->
            let r := trim (split_first (ch "^") (split_first (ch "#") lp)) in
            no_outer_space r = true
            /\ (ch "|" ∉ r) /\ (ch "#" ∉ r) /\ (ch "^" ∉ r)).
  { intros lp Hlp r. subst r.
    destruct (split_first_spec (ch "#") lp) as [H1 [r1 E1]].
    destruct (split_first_spec (ch "^") (split_first (ch "#") lp))
      as [H2 [r2 E2]].
    set (u := split_first (ch "^") (split_first (ch "#") lp)) in *.
    destruct (trim_spec u) as (a & b & _ & _ & _ & Hn).
    split; [done|].
    assert (Hsub : forall c, c ∈ u -> c ∈ split_first (ch "#") lp).
    { intros c Hc. rewrite E2. apply elem_of_app. by left. }
    split; [|split].
    - intros Hc%trim_elem%Hsub. apply Hlp. rewrite E1.
      apply elem_of_app. by left.
    - by intros Hc%trim_elem%Hsub.
    - by intros Hc%trim_elem. }
  pose proof (indexOf_spec (ch "|") t) as Hi.
  destruct (indexOf (ch "|") t) as [i|]; simpl.
  - destruct Hi as [Hi _].
    destruct (Cut (trim (slice 0 i t))) as (C1 & C2 & C3 & C4).
    { intros Hc%trim_elem. apply Hi. unfold slice in Hc.
      by rewrite Nat.sub_0_r in Hc. }
    split; [done|]. split; [done|]. split; [done|]. split; [done|].
    destruct (truthy (trim (slice_from (i + 1) t))) eqn:Ht; [|done].
    split; [by apply truthy_iff|].
    by destruct (trim_spec (slice_from (i + 1) t)) as (? & ? & _ & _ & _ & ?).
  - destruct (Cut t Hi) as (C1 & C2 & C3 & C4). done.
Qed.

Lemma space_not_terminator (c : N) :
  is_space c = false -> is_line_terminator c = false.
Proof.
  unfold is_space. intros Hc. apply orb_false_iff in Hc. tauto.
Qed.

Lemma title_tail_head (s : str) :
  title_tail s = true -> exists c r, s = c :: r /\ is_space c = true.
Proof.
  unfold title_tail. destruct s as [|c r]; simpl; [done|].
  destruct (is_space c) eqn:Hc; [eauto|done].
Qed.

Lemma match_title_spec (d g : str) :
  match_title d = Some g ->
  exists rest, d = g ++ rest /\ title_tail rest = true.
Proof.
  revert g. induction d as [|c d IH]; intros g; simpl.
  - done.
  - destruct (title_tail (c :: d)) eqn:Ht.
    { intros [= <-]. by exists (c :: d). }
    destruct (is_line_terminator c); [done|].
    destruct (match_title d) as [g'|]; [|done]. intros [= <-].
    destruct (IH g' eq_refl) as (rest & -> & Hr). by exists rest.
Qed.

(** A text without white space has no title. *)
Lemma match_title_none (p : str) :
  Forall (fun c => is_space c = false) p -> match_title p = None.
Proof.
  induction 1 as [|c p Hc _ IH]; [done|].
  cbn [match_title]. unfold title_tail at 1. simpl. rewrite Hc.
  by rewrite (space_not_terminator c Hc), IH.
Qed.

(** Group 1 of the title pattern stops at the first white space that a
    title follows. *)
Lemma match_title_app (p tail : str) :
  Forall (fun c => is_space c = false) p -> title_tail tail = true ->
  match_title (p ++ tail) = Some p.
Proof.
  intros Hp Ht. induction Hp as [|c p Hc _ IH]; simpl.
  - destruct tail as [|c t]; [done|]. cbn [match_title]. by rewrite Ht.
  - unfold title_tail at 1. simpl. rewrite Hc.
    by rewrite (space_not_terminator c Hc), IH.
Qed.

Lemma match_dest_suffix_spec (d dest : str) (suf : option str) :
  match_dest_suffix d = Some (dest, suf) ->
  d = dest ++ default [] suf /\ dest <> []
  /\ Forall (fun c => is_mark c = false) dest
  /\ match suf with
     | Some s => exists m tl, s = m :: tl /\ is_mark m = true /\ tl <> []
     | None => True
     end.
Proof.
  unfold match_dest_suffix.
  destruct (span_spec (fun c => negb (is_mark c)) d) as (Hd & Hall & Hrest).
  fold is_mark in Hd, Hall, Hrest |- *.
  change (fun c => negb ((c =? ch "#")%N || (c =? ch "?")%N))
    with (fun c => negb (is_mark c)).
  destruct (span (fun c => negb (is_mark c)) d) as [pre rest]; simpl in *.
  assert (Hpre : Forall (fun c => is_mark c = false) pre).
  { eapply Forall_impl; [exact Hall|]. intros c Hc. by apply negb_true_iff. }
  destruct pre as [|x pre]; [done|].
  destruct rest as [|m tl].
  { intros [= <- <-]. rewrite app_nil_r in Hd. simpl. by rewrite app_nil_r. }
  destruct (truthy tl) eqn:Htl; simpl; [|done].
  destruct (forallb _ tl); [|done]. intros [= <- <-].
  split; [done|]. split; [done|]. split; [done|].
  exists m, tl. split; [done|]. split; [by apply negb_false_iff|].
  by apply truthy_iff.
Qed.

Lemma match_dest_suffix_plain (p : str) :
  p <> [] -> Forall (fun c => is_mark c = false) p ->
  match_dest_suffix p = Some (p, None).
Proof.
  intros Hne Hp. unfold match_dest_suffix.
  change (fun c => negb ((c =? ch "#")%N || (c =? ch "?")%N))
    with (fun c => negb (is_mark c)).
  rewrite <- (app_nil_r p) at 1. rewrite span_all; [|by eapply Forall_impl; [exact Hp|]; intros c ->|done].
  by destruct p.
Qed.

Lemma no_outer_space_wrap (a b : N) (s : str) :
  is_space a = false -> is_space b = false ->
  no_outer_space (a :: s ++ [b]) = true.
Proof.
  intros Ha Hb. unfold no_outer_space. rewrite Ha. simpl.
  rewrite rev_app_distr. simpl. by rewrite Hb.
Qed.

Lemma indexOf_first (c : N) (p r : str) :
  c ∉ p -> indexOf c (p ++ c :: r) = Some (length p).
Proof.
  induction p as [|x p IH]; intros Hc; simpl.
  - by rewrite N.eqb_refl.
  - apply not_elem_of_cons in Hc as [Hx Hp].
    destruct (N.eqb_spec x c) as [->|_]; [done|]. by rewrite IH.
Qed.

(** A destination in angle brackets is taken as it stands, white space
    included. *)
Theorem parseMarkdownDest_angle (p : str) :
  p <> [] -> ch ">" ∉ p -> Forall (fun c => is_mark c = false) p ->
  parseMarkdownDest (lit "<" ++ p ++ lit ">") = (p, None).
Proof.
  intros Hne Hgt Hmarks. unfold parseMarkdownDest.
  change (lit "<" ++ p ++ lit ">") with (ch "<" :: p ++ [ch ">"]).
  rewrite trim_id by (by apply no_outer_space_wrap).
  change (startsWith (lit "<") (ch "<" :: p ++ [ch ">"])) with true.
  cbn [indexOf]. change (ch "<" =? ch ">")%N with false.
  cbn iota. rewrite (indexOf_first _ p [] Hgt). cbn [option_map].
  unfold slice. cbn [drop]. replace (S (length p) - 1) with (length p) by lia.
  rewrite drop_0, take_app_length. by rewrite match_dest_suffix_plain.
Qed.

Lemma parseMarkdownDest_angle_witness :
  parseMarkdownDest (lit "<" ++ lit "my file.png" ++ lit ">")
  = (lit "my file.png", None).
Proof.
  apply parseMarkdownDest_angle;
    [discriminate|apply (bool_decide_unpack _); by vm_compute|].
  repeat constructor.
Defined.

(** A quoted title after a destination without white space is dropped:
    the destination parses as it does alone. *)
Theorem parseMarkdownDest_title (p t : str) (q : N) :
  p <> [] -> Forall (fun c => is_space c = false) p ->
  startsWith (lit "<") p = false ->
  q = 34%N \/ q = ch "'" ->
  Forall (fun c => is_line_terminator c = false) t ->
  parseMarkdownDest (p ++ lit " " ++ [q] ++ t ++ [q]) = parseMarkdownDest p.
Proof.
  intros Hne Hp Hlt Hq Ht.
  assert (Hqs : is_space q = false) by (by destruct Hq as [-> | ->]).
  assert (Hp1 : no_outer_space p = true).
  { unfold no_outer_space. apply andb_true_iff. split.
    - destruct p as [|c p']; [done|]. inversion Hp; subst.
      by apply negb_true_iff.
    - apply Forall_rev in Hp. destruct (rev p) as [|c r]; [done|].
      inversion Hp; subst. by apply negb_true_iff. }
  assert (Hall : no_outer_space (p ++ lit " " ++ [q] ++ t ++ [q]) = true).
  { destruct p as [|c p']; [done|]. inversion Hp; subst.
    replace ((c :: p') ++ lit " " ++ [q] ++ t ++ [q])
      with (c :: (p' ++ lit " " ++ [q] ++ t) ++ [q])
      by (simpl; by rewrite <- !app_assoc).
    by apply no_outer_space_wrap. }
  assert (Hst : startsWith (lit "<") (p ++ lit " " ++ [q] ++ t ++ [q]) = false).
  { destruct p as [|c p']; [done|]. exact Hlt. }
  assert (Htail : title_tail (lit " " ++ [q] ++ t ++ [q]) = true).
  { unfold title_tail. change (lit " " ++ [q] ++ t ++ [q])
      with (ch " " :: q :: t ++ [q]).
    cbn [span]. change (is_space (ch " ")) with true. rewrite Hqs.
    replace (q :: t ++ [q]) with ((q :: t) ++ [q]) by done.
    rewrite (trimEnd_middle (q :: t) [] q Hqs).
    change (trimEnd []) with (@nil N). simpl.
    rewrite rev_app_distr. simpl. rewrite N.eqb_refl. simpl.
    assert (Hq' : ((q =? 34)%N || (q =? ch "'")%N) = true)
      by (by destruct Hq as [-> | ->]).
    rewrite Hq'. simpl. apply forallb_forall. intros c Hc.
    apply in_rev, list_elem_of_In in Hc.
    rewrite Forall_forall in Ht. by rewrite (Ht c Hc). }
  unfold parseMarkdownDest.
  rewrite (trim_id _ Hall), (trim_id _ Hp1), Hst, Hlt.
  rewrite (match_title_app p _ Hp Htail), (match_title_none p Hp).
  apply truthy_iff in Hne. by rewrite Hne.
Qed.

Lemma parseMarkdownDest_title_witness :
  parseMarkdownDest (lit "a.png" ++ lit " " ++ [34%N] ++ lit "My title" ++ [34%N])
  = parseMarkdownDest (lit "a.png").
Proof.
  apply (parseMarkdownDest_title (lit "a.png") (lit "My title") 34);
    [discriminate|repeat constructor|reflexivity|by left|repeat constructor].
Defined.

(** The destination that [parseMarkdownDest] goes on with, after the
    angle brackets or the title are taken off, is a part of the text
    given. *)
Lemma unwrapped_infix (destRaw : str) :
  let d := trim destRaw in
  let d' :=
    if startsWith (lit "<") d then
      match indexOf (ch ">") d with
      | Some close => slice 1 close d
      | None => d
      end
    else
      match match_title d with
      | Some g1 => if truthy g1 then g1 else d
      | None => d
      end in
  exists a b, destRaw = a ++ d' ++ b.
Proof.
  intros d d'. destruct (trim_spec destRaw) as (a0 & b0 & H0 & _).
  fold d in H0.
  assert (Hd : exists a b, destRaw = a ++ d ++ b) by (by exists a0, b0).
  assert (Hin : forall x y z, d = x ++ y ++ z -> exists a b, destRaw = a ++ y ++ b).
  { intros x y z Hxyz. exists (a0 ++ x), (z ++ b0).
    rewrite H0, Hxyz. by rewrite <- !app_assoc. }
  subst d'. destruct (startsWith (lit "<") d).
  - destruct (indexOf (ch ">") d) as [close|]; [|done].
    apply (Hin (take 1 d) _ (drop (close - 1) (drop 1 d))).
    unfold slice. by rewrite !take_drop.
  - destruct (match_title d) as [g1|] eqn:Hm; [|done].
    destruct (truthy g1); [|done].
    apply match_title_spec in Hm as (rest & Hg & _).
    by apply (Hin [] g1 rest).
Qed.

(** [parseMarkdownDest] returns two adjacent pieces of the text it is
    given.  A suffix, when there is one, begins with the first hash or
    question mark and has more after it; the destination before it is not
    empty and has neither mark. *)
Theorem parseMarkdownDest_pieces (destRaw : str) :
  (exists a b,
     destRaw
     = a ++ (fst (parseMarkdownDest destRaw)
             ++ default [] (snd (parseMarkdownDest destRaw))) ++ b)
  /\ match snd (parseMarkdownDest destRaw) with
     | Some s =>
         fst (parseMarkdownDest destRaw) <> []
         /\ Forall (fun c => is_mark c = false)
              (fst (parseMarkdownDest destRaw))
         /\ exists m tl, s = m :: tl /\ is_mark m = true /\ tl <> []
     | None => True
     end.
Proof.
  destruct (unwrapped_infix destRaw) as (a & b & Hd).
  unfold parseMarkdownDest. cbv zeta in Hd |- *.
  set (d' := if startsWith (lit "<") (trim destRaw) then _ else _) in *.
  destruct (match_dest_suffix d') as [[dest suf]|] eqn:Hm; simpl.
  - apply match_dest_suffix_spec in Hm as (Hd' & Hne & Hall & Hs).
    split; [exists a, b; by rewrite <- Hd'|].
    destruct suf; [|done]. done.
  - split; [|done]. exists a, b. by rewrite app_nil_r.
Qed.

Lemma startsWith_cut (p g r : str) (c : N) :
  startsWith p (g ++ c :: r) = true -> c ∉ p -> startsWith p g = true.
Proof.
  revert g. induction p as [|a p IH]; intros g; [done|].
  intros Hs Hc. apply not_elem_of_cons in Hc as [Hca Hcp].
  destruct g as [|x g]; simpl in *.
  - apply andb_true_iff in Hs as [Ha%N.eqb_eq _]. congruence.
  - apply andb_true_iff in Hs as [Ha Hs]. rewrite Ha. simpl. by apply IH.
Qed.

(** A scheme at the start of a destination is still there after
    parsing. *)
Lemma parseMarkdownDest_scheme (p destRaw : str) :
  p <> [] ->
  Forall (fun c => is_space c = false /\ is_mark c = false) p ->
  startsWith (lit "<") p = false ->
  startsWith p (trim destRaw) = true ->
  startsWith p (fst (parseMarkdownDest destRaw)) = true.
Proof.
  intros Hne Hp Hlt Hs. unfold parseMarkdownDest.
  set (d := trim destRaw) in *.
  assert (Hd : startsWith (lit "<") d = false).
  { apply startsWith_app in Hs as [rest ->].
    destruct p as [|c p']; [done|]. exact Hlt. }
  rewrite Hd.
  assert (Hnotin : forall c, (is_space c = true \/ is_mark c = true) -> c ∉ p).
  { intros c Hc Hin. rewrite Forall_forall in Hp.
    destruct (Hp c Hin) as [H1 H2]. destruct Hc; congruence. }
  set (d' := match match_title d with
             | Some g1 => if truthy g1 then g1 else d
             | None => d
             end).
  assert (Hd' : startsWith p d' = true).
  { subst d'. destruct (match_title d) as [g1|] eqn:Hm; [|done].
    destruct (truthy g1); [|done].
    apply match_title_spec in Hm as (rest & Hg & Ht).
    apply title_tail_head in Ht as (c & r & -> & Hc).
    rewrite Hg in Hs. apply (startsWith_cut _ _ _ _ Hs). apply Hnotin. auto. }
  destruct (match_dest_suffix d') as [[dest suf]|] eqn:Hm; simpl; [|done].
  apply match_dest_suffix_spec in Hm as (Hdd & _ & _ & Hsuf).
  destruct suf as [s|]; simpl in Hdd; [|by rewrite app_nil_r in Hdd; subst].
  destruct Hsuf as (m & tl & -> & Hmk & _).
  rewrite Hdd in Hd'. apply (startsWith_cut _ _ _ _ Hd'). apply Hnotin. auto.
Qed.

(** A markdown destination that is remote as it is written parses to a
    target that is remote too, whatever title or suffix follows: links the
    conversion has rewritten are skipped by the next one. *)
Theorem parseMarkdownDest_remote (destRaw : str) :
  isProbablyRemoteLink destRaw = true ->
  isProbablyRemoteLink (fst (parseMarkdownDest destRaw)) = true.
Proof.
  intros Hr. apply begins_remote_probably.
  unfold isProbablyRemoteLink in Hr. unfold begins_remote, remote_schemes.
  cbn [List.map existsb]. rewrite !orb_true_iff in Hr |- *.
  destruct Hr as [[[[Hr|Hr]|Hr]|Hr]|Hr];
    apply parseMarkdownDest_scheme in Hr;
    try (rewrite Hr; tauto); try done; repeat constructor.
Qed.

Lemma parseMarkdownDest_remote_witness :
  isProbablyRemoteLink (lit "http://localhost:4998/f/a.png?client=c") = true
  /\ isProbablyRemoteLink
       (fst (parseMarkdownDest (lit "http://localhost:4998/f/a.png?client=c")))
     = true.
Proof.
  split; [reflexivity|].
  apply parseMarkdownDest_remote. reflexivity.
Defined.


Lemma span_fst_prefix (p : N -> bool) (ws s : str) :
  Forall (fun c => p c = true) ws ->
  fst (span p (ws ++ s)) = ws ++ fst (span p s).
Proof.
  induction 1 as [|c ws Hc _ IH]; [done|]. simpl. rewrite Hc.
  destruct (span p (ws ++ s)) as [a b]. simpl in *. by rewrite IH.
Qed.

Lemma span_fst_stop (p : N -> bool) (x y : str) (c : N) :
  Forall (fun c => p c = true) x -> p c = false ->
  fst (span p (x ++ c :: y)) = x.
Proof.
  intros Hx Hc. rewrite (span_fst_prefix p x _ Hx). simpl. rewrite Hc.
  apply app_nil_r.
Qed.

Lemma span_fst_all (p : N -> bool) (s : str) :
  Forall (fun c => p c = true) s -> fst (span p s) = s.
Proof.
  intros Hs. rewrite <- (app_nil_r s) at 1.
  rewrite (span_fst_prefix p s [] Hs). apply app_nil_r.
Qed.

(** Cutting at one class and then at another cuts at the first code unit
    of either. *)
Lemma span_fst_twice (p q : N -> bool) (s : str) :
  fst (span q (fst (span p s))) = fst (span (fun c => p c && q c) s).
Proof.
  induction s as [|c s IH]; [done|]. simpl.
  destruct (p c) eqn:Hp; simpl; [|done].
  destruct (span p s) as [a b] eqn:Ea. simpl in *.
  destruct (q c) eqn:Hq; simpl; [|done].
  destruct (span q a) as [a1 b1]. simpl in *.
  destruct (span (fun c => p c && q c) s) as [a2 b2]. simpl in *.
  by rewrite IH.
Qed.

Lemma split_first_span (c : N) (s : str) :
  split_first c s = fst (span (fun x => negb (x =? c)%N) s).
Proof.
  unfold split_first. induction s as [|x s IH]; [done|]. simpl.
  destruct (x =? c)%N; simpl; [done|].
  destruct (split c s) as [|seg segs]; simpl in *;
    destruct (span (fun x => negb (x =? c)%N) s) as [a b]; simpl in *;
    by rewrite IH.
Qed.

Lemma indexOf_span (c : N) (s : str) :
  match indexOf c s with
  | Some i => take i s = fst (span (fun x => negb (x =? c)%N) s)
  | None => s = fst (span (fun x => negb (x =? c)%N) s)
  end.
Proof.
  induction s as [|x s IH]; [done|]. simpl.
  destruct (x =? c)%N; simpl; [done|].
  destruct (span (fun x => negb (x =? c)%N) s) as [a b].
  destruct (indexOf c s) as [i|]; simpl in *; by rewrite IH.
Qed.

Lemma trim_spaces_l (ws s : str) :
  Forall (fun c => is_space c = true) ws -> trim (ws ++ s) = trim s.
Proof. intros Hw. unfold trim. by rewrite trimStart_spaces. Qed.

(** Trimming before a cut at a class that has no white space in it makes
    no difference after the text is trimmed again. *)
Lemma trim_span_trim (p : N -> bool) (s : str) :
  (forall c, is_space c = true -> p c = true) ->
  trim (fst (span p (trim s))) = trim (fst (span p s)).
Proof.
  intros Hp.
  destruct (trim_spec s) as (a & b & Hs & Ha & Hb & Hn).
  assert (Hpa : Forall (fun c => p c = true) a)
    by (eapply Forall_impl; [exact Ha|]; exact Hp).
  assert (Hpb : Forall (fun c => p c = true) b)
    by (eapply Forall_impl; [exact Hb|]; exact Hp).
  set (core := trim s) in *.
  rewrite Hs at 1. rewrite (span_fst_prefix p a _ Hpa), trim_spaces_l by done.
  destruct (span_spec p core) as (Hc & Hall & Hstop).
  destruct (snd (span p core)) as [|c y] eqn:Hsnd.
  - rewrite app_nil_r in Hc. rewrite <- Hc in Hall.
    rewrite (span_fst_all p core Hall).
    rewrite (span_fst_all p (core ++ b)) by (by apply Forall_app).
    rewrite (trim_id core Hn).
    assert (Ht : trim (a ++ core ++ b) = core) by (by rewrite <- Hs).
    by rewrite trim_spaces_l in Ht.
  - rewrite Hc at 2. rewrite <- app_assoc. simpl.
    by rewrite (span_fst_stop p _ _ c Hall Hstop).
Qed.

Lemma span_ext (p q : N -> bool) (s : str) :
  (forall c, p c = q c) -> span p s = span q s.
Proof.
  intros Hpq. induction s as [|c s IH]; [done|]. simpl.
  by rewrite Hpq, IH.
Qed.

Lemma space_not_cut (c : N) : is_space c = true -> is_cut c = false.
Proof.
  intros Hc. unfold is_cut.
  destruct (N.eqb_spec c (ch "|")) as [->|_]; [by vm_compute in Hc|].
  destruct (N.eqb_spec c (ch "#")) as [->|_]; [by vm_compute in Hc|].
  destruct (N.eqb_spec c (ch "^")) as [->|_]; [by vm_compute in Hc|].
  done.
Qed.

(** The link path of a wiki link is the inner text up to its first bar,
    hash or caret, without the white space at its ends. *)
Theorem parseObsidianLinkTarget_linkpath (inner : str) :
  fst (parseObsidianLinkTarget inner)
  = trim (fst (span (fun c => negb (is_cut c)) inner)).
Proof.
  unfold parseObsidianLinkTarget.
  set (t := trim inner).
  set (bar := fun x : N => negb (x =? ch "|")%N).
  set (hash := fun x : N => negb (x =? ch "#")%N).
  set (caret := fun x : N => negb (x =? ch "^")%N).
  assert (Hlp : fst (match indexOf (ch "|") t with
                     | Some pipeIdx =>
                         (trim (slice 0 pipeIdx t),
                          if truthy (trim (slice_from (pipeIdx + 1) t))
                          then Some (trim (slice_from (pipeIdx + 1) t))
                          else None)
                     | None => (t, None)
                     end)
                = trim (fst (span bar t))).
  { pose proof (indexOf_span (ch "|") t) as Hi. fold bar in Hi.
    destruct (indexOf (ch "|") t) as [i|]; simpl.
    - unfold slice. by rewrite Nat.sub_0_r, drop_0, Hi.
    - rewrite <- Hi. symmetry. apply trim_id.
      by destruct (trim_spec inner) as (? & ? & _ & _ & _ & ?). }
  destruct (match indexOf (ch "|") t with
            | Some pipeIdx => _
            | None => _
            end) as [lp label]. simpl in *. subst lp.
  assert (Hcut : forall c,
            is_cut c = negb (bar c && (hash c && caret c))).
  { intros c. unfold is_cut, bar, hash, caret.
    by destruct (c =? ch "|")%N, (c =? ch "#")%N, (c =? ch "^")%N. }
  assert (Hsp : forall c, is_space c = true ->
                          bar c && (hash c && caret c) = true).
  { intros c Hc%space_not_cut. rewrite Hcut in Hc.
    by apply negb_false_iff in Hc. }
  rewrite !split_first_span. fold hash caret.
  rewrite span_fst_twice.
  rewrite (trim_span_trim (fun c => hash c && caret c)).
  2:{ intros c Hc%Hsp. apply andb_true_iff in Hc. tauto. }
  rewrite span_fst_twice. subst t.
  rewrite (trim_span_trim (fun c => bar c && (hash c && caret c))) by done.
  f_equal. f_equal. apply span_ext. intros c. rewrite Hcut.
  by rewrite negb_involutive.
Qed.

Example parseObsidianLinkTarget_sized :
  parseObsidianLinkTarget (lit " img/a b.png | 100x100 ")
  = (lit "img/a b.png", Some (lit "100x100")).
Proof. vm_compute. reflexivity. Qed.

(* ===================================================================== *)
(** ** convertAttachments.ts: what the scanner returns *)
(* ===================================================================== *)

Lemma span_until (c : N) (s : str) :
  let a := fst (span (fun x => negb (x =? c)%N) s) in
  let b := snd (span (fun x => negb (x =? c)%N) s) in
  s = a ++ b /\ (c ∉ a).
Proof.
  destruct (span_spec (fun x => negb (x =? c)%N) s) as (Hs & Hall & _).
  split; [done|]. intros Hc. rewrite Forall_forall in Hall.
  specialize (Hall c Hc). by rewrite N.eqb_refl in Hall.
Qed.

Lemma wiki_body_spec (s inner : str) (len : nat) :
  wiki_body s = Some (inner, len) ->
  exists rest,
    s = lit "[[" ++ inner ++ lit "]]" ++ rest
    /\ len = length (lit "[[" ++ inner ++ lit "]]")
    /\ inner <> [] /\ (ch "]" ∉ inner).
Proof.
  unfold wiki_body. destruct (startsWith (lit "[[") s) eqn:Hs; [|done].
  apply startsWith_app in Hs as [r ->].
  change (drop 2 (lit "[[" ++ r)) with r.
  destruct (span_until (ch "]") r) as [Hr Hin].
  destruct (span (fun c => negb (c =? ch "]")%N) r) as [a b]; cbn [fst snd] in *.
  destruct (truthy a) eqn:Ha; [|done].
  destruct (startsWith (lit "]]") b) eqn:Hb; [|done].
  apply startsWith_app in Hb as [rest ->]. cbn [andb]. intros [= <- <-].
  exists rest. split; [by rewrite Hr|].
  split; [rewrite !length_app; simpl; lia|].
  split; [by apply truthy_iff|done].
Qed.

Lemma md_body_spec (s text dest : str) (len : nat) :
  md_body s = Some ((text, dest), len) ->
  exists rest,
    s = lit "[" ++ text ++ lit "](" ++ dest ++ lit ")" ++ rest
    /\ len = length (lit "[" ++ text ++ lit "](" ++ dest ++ lit ")")
    /\ (ch "]" ∉ text) /\ dest <> [] /\ (ch ")" ∉ dest).
Proof.
  unfold md_body. destruct (startsWith (lit "[") s) eqn:Hs; [|done].
  apply startsWith_app in Hs as [r ->].
  change (drop 1 (lit "[" ++ r)) with r.
  destruct (span_until (ch "]") r) as [Hr Hin].
  destruct (span (fun c => negb (c =? ch "]")%N) r) as [a b]; cbn [fst snd] in *.
  destruct (startsWith (lit "](") b) eqn:Hb; [|done].
  apply startsWith_app in Hb as [r2 ->].
  change (drop 2 (lit "](" ++ r2)) with r2.
  destruct (span_until (ch ")") r2) as [Hr2 Hin2].
  destruct (span (fun c => negb (c =? ch ")")%N) r2) as [a2 b2]; cbn [fst snd] in *.
  destruct (truthy a2) eqn:Ha; [|done].
  destruct (startsWith (lit ")") b2) eqn:Hb2; [|done].
  apply startsWith_app in Hb2 as [rest ->]. cbn [andb]. intros [= <- <- <-].
  exists rest. split; [by rewrite Hr, Hr2|].
  split; [rewrite !length_app; simpl; lia|].
  split; [done|]. split; [by apply truthy_iff|done].
Qed.

(** The text of a match in range: the pieces of the content around it. *)
Lemma match_in_range (content m rest : str) (i : nat) :
  i < length content -> drop i content = m ++ rest -> m <> [] ->
  (i < i + length m <= length content)
  /\ slice i (i + length m) content = m
  /\ content = take i content ++ m ++ drop (i + length m) content.
Proof.
  intros Hi Hd Hm.
  assert (Hlen : length content = i + (length m + length rest)).
  { rewrite <- (take_drop i content) at 1.
    rewrite length_app, length_take, Hd, length_app. lia. }
  assert (Hs : slice i (i + length m) content = m).
  { unfold slice. rewrite Hd.
    replace (i + length m - i) with (length m) by lia.
    by rewrite take_app_length. }
  split; [destruct m; [done|simpl in *; lia]|]. split; [done|].
  rewrite <- (take_drop i content) at 1. f_equal.
  rewrite Hd. f_equal. rewrite <- drop_drop, Hd. by rewrite drop_app_length.
Qed.

Lemma not_bang_spec (prev : option N) :
  not_bang prev = true -> prev <> Some (ch "!").
Proof.
  unfold not_bang. intros Hn [= ->]. by rewrite N.eqb_refl in Hn.
Qed.

Lemma ref_range_intro (content : str) (r : AttachmentRef) (m rest : str) :
  start r < length content -> drop (start r) content = m ++ rest ->
  m <> [] -> end_ r = start r + length m ->
  raw r = slice (start r) (end_ r) content ->
  ref_in_range content r /\ raw r = m.
Proof.
  intros Hlen Hd Hm He Hraw.
  destruct (match_in_range content m rest (start r) Hlen Hd Hm)
    as (Hr & Hsl & Hc).
  unfold ref_in_range. rewrite Hraw, He, Hsl. done.
Qed.

Lemma obsidian_embed_sound (content : str) :
  Forall (fun r => ref_in_range content r /\ ref_syntax content r)
    (List.map (obsidian_ref ObsidianEmbed content)
       (exec_all re_obsidian_embed None 0 0 content)).
Proof.
  apply Forall_fmap.
  eapply Forall_impl; [apply (exec_all_sound re_obsidian_embed None 0 0)|].
  intros [[i len] inner] (j & Hj & _ & Hlen & Hre).
  unfold m_index, m_length in *. simpl in Hj, Hre. subst j.
  unfold re_obsidian_embed in Hre.
  destruct (startsWith (lit "!") (drop i content)) eqn:Hs; [|done].
  apply startsWith_app in Hs as [t Ht]. rewrite Ht in Hre.
  change (drop 1 (lit "!" ++ t)) with t in Hre.
  destruct (wiki_body t) as [[g n]|] eqn:Hw; [|done].
  simpl in Hre. injection Hre as -> <-.
  apply wiki_body_spec in Hw as (rest & -> & -> & Hne & Hin).
  unfold compose. set (r := obsidian_ref ObsidianEmbed content _). cbv beta.
  destruct (ref_range_intro content r (lit "![[" ++ inner ++ lit "]]") rest)
    as [Hrange Hraw]; try done.
  { change (start r) with i. rewrite Ht, <- ?app_assoc. reflexivity. }
  split; [done|]. unfold ref_syntax. change (kind r) with ObsidianEmbed.
  exists inner. split; [done|]. split; [done|]. split; [done|].
  split; [|done]. subst r. simpl. by destruct (parseObsidianLinkTarget inner).
Qed.

Lemma obsidian_link_sound (content : str) :
  Forall (fun r => ref_in_range content r /\ ref_syntax content r)
    (List.map (obsidian_ref ObsidianLink content)
       (exec_all re_obsidian_link None 0 0 content)).
Proof.
  apply Forall_fmap.
  eapply Forall_impl; [apply (exec_all_sound re_obsidian_link None 0 0)|].
  intros [[i len] inner] (j & Hj & _ & Hlen & Hre).
  unfold m_index, m_length in *. simpl in Hj, Hre. subst j.
  unfold re_obsidian_link in Hre.
  destruct (not_bang (prev_at None content i)) eqn:Hp; [|done].
  apply not_bang_spec in Hp.
  apply wiki_body_spec in Hre as (rest & Ht & -> & Hne & Hin).
  unfold compose. set (r := obsidian_ref ObsidianLink content _). cbv beta.
  destruct (ref_range_intro content r (lit "[[" ++ inner ++ lit "]]") rest)
    as [Hrange Hraw]; try done.
  { change (start r) with i. rewrite Ht, <- ?app_assoc. reflexivity. }
  split; [done|]. unfold ref_syntax. change (kind r) with ObsidianLink.
  exists inner. split; [done|]. split; [done|]. split; [done|].
  split; [|done]. subst r. simpl. by destruct (parseObsidianLinkTarget inner).
Qed.

Lemma md_embed_sound (content : str) :
  Forall (fun r => ref_in_range content r /\ ref_syntax content r)
    (List.map (md_ref MdEmbed content)
       (exec_all re_md_embed None 0 0 content)).
Proof.
  apply Forall_fmap.
  eapply Forall_impl; [apply (exec_all_sound re_md_embed None 0 0)|].
  intros [[i len] [text dest]] (j & Hj & _ & Hlen & Hre).
  unfold m_index, m_length in *. simpl in Hj, Hre. subst j.
  unfold re_md_embed in Hre.
  destruct (startsWith (lit "!") (drop i content)) eqn:Hs; [|done].
  apply startsWith_app in Hs as [t Ht]. rewrite Ht in Hre.
  change (drop 1 (lit "!" ++ t)) with t in Hre.
  destruct (md_body t) as [[g n]|] eqn:Hw; [|done].
  simpl in Hre. injection Hre as -> <-.
  apply md_body_spec in Hw as (rest & -> & -> & Hin & Hne & Hin2).
  unfold compose. set (r := md_ref MdEmbed content _). cbv beta.
  destruct (ref_range_intro content r
              (lit "![" ++ text ++ lit "](" ++ dest ++ lit ")") rest)
    as [Hrange Hraw]; try done.
  { change (start r) with i. rewrite Ht, <- ?app_assoc. reflexivity. }
  split; [done|]. unfold ref_syntax. change (kind r) with MdEmbed.
  exists text, dest. split; [done|]. split; [done|]. split; [done|].
  split; [done|]. split; [done|].
  subst r. simpl. by destruct (parseMarkdownDest dest).
Qed.

Lemma md_link_sound (content : str) :
  Forall (fun r => ref_in_range content r /\ ref_syntax content r)
    (List.map (md_ref MdLink content)
       (exec_all re_md_link None 0 0 content)).
Proof.
  apply Forall_fmap.
  eapply Forall_impl; [apply (exec_all_sound re_md_link None 0 0)|].
  intros [[i len] [text dest]] (j & Hj & _ & Hlen & Hre).
  unfold m_index, m_length in *. simpl in Hj, Hre. subst j.
  unfold re_md_link in Hre.
  destruct (not_bang (prev_at None content i)) eqn:Hp; [|done].
  apply not_bang_spec in Hp.
  apply md_body_spec in Hre as (rest & Ht & -> & Hin & Hne & Hin2).
  unfold compose. set (r := md_ref MdLink content _). cbv beta.
  destruct (ref_range_intro content r
              (lit "[" ++ text ++ lit "](" ++ dest ++ lit ")") rest)
    as [Hrange Hraw]; try done.
  { change (start r) with i. rewrite Ht, <- ?app_assoc. reflexivity. }
  split; [done|]. unfold ref_syntax. change (kind r) with MdLink.
  exists text, dest. split; [done|]. split; [done|]. split; [done|].
  split; [done|]. split; [done|]. split; [|done].
  subst r. simpl. by destruct (parseMarkdownDest dest).
Qed.

(** Every reference of a scan is in range and has the syntax of its
    kind. *)
Lemma extractAttachmentRefs_sound (content : str) :
  Forall (fun r => ref_in_range content r /\ ref_syntax content r)
    (extractAttachmentRefs content).
Proof.
  unfold extractAttachmentRefs.
  rewrite (sort_perm by_start_asc).
  repeat (apply Forall_app; split);
    [apply obsidian_embed_sound | apply obsidian_link_sound
    | apply md_embed_sound | apply md_link_sound].
Qed.

(** The span of every reference that [extractAttachmentRefs] returns is a
    range of the text scanned that is not empty, and [raw] is the text of
    that range. *)
Theorem extractAttachmentRefs_in_range (content : str) :
  Forall (ref_in_range content) (extractAttachmentRefs content).
Proof.
  eapply Forall_impl; [apply extractAttachmentRefs_sound|]. by intros r [? _].
Qed.

(** Every reference has the syntax of its kind: its text is made of the
    brackets of the kind around the groups, its target, label and suffix
    are those the parsers give for the groups, and no exclamation mark
    stands before a link. *)
Theorem extractAttachmentRefs_syntax (content : str) :
  Forall (ref_syntax content) (extractAttachmentRefs content).
Proof.
  eapply Forall_impl; [apply extractAttachmentRefs_sound|]. by intros r [_ ?].
Qed.

(** A text without an opening bracket has no reference. *)
Theorem extractAttachmentRefs_plain (content : str) :
  ch "[" ∉ content -> extractAttachmentRefs content = [].
Proof.
  intros Hno. pose proof (extractAttachmentRefs_sound content) as Hs.
  destruct (extractAttachmentRefs content) as [|r l]; [done|].
  inversion Hs as [|? ? [[_ Hc] Hsyn] _]; subst. exfalso. apply Hno.
  rewrite Hc. apply elem_of_app. right. apply elem_of_app. left.
  unfold ref_syntax in Hsyn.
  destruct (kind r);
    [destruct Hsyn as (inner & -> & _)|destruct Hsyn as (inner & -> & _)
    |destruct Hsyn as (text & dest & -> & _)
    |destruct Hsyn as (text & dest & -> & _)];
    change (lit "![[" ++ inner ++ lit "]]")
      with (ch "!" :: ch "[" :: ch "[" :: inner ++ lit "]]") ||
    change (lit "[[" ++ inner ++ lit "]]")
      with (ch "[" :: ch "[" :: inner ++ lit "]]") ||
    change (lit "![" ++ text ++ lit "](" ++ dest ++ lit ")")
      with (ch "!" :: ch "[" :: text ++ lit "](" ++ dest ++ lit ")") ||
    change (lit "[" ++ text ++ lit "](" ++ dest ++ lit ")")
      with (ch "[" :: text ++ lit "](" ++ dest ++ lit ")");
    rewrite ?elem_of_cons; tauto.
Qed.

Lemma extractAttachmentRefs_plain_witness :
  extractAttachmentRefs (lit "no link, only words (and brackets)") = [].
Proof.
  apply extractAttachmentRefs_plain. apply (bool_decide_unpack _).
  by vm_compute.
Defined.

(* ===================================================================== *)
(** ** convertAttachments.ts: folders, rendering and backups *)
(* ===================================================================== *)

Lemma span_snd_prefix (p : N -> bool) (ws s : str) :
  Forall (fun c => p c = true) ws -> snd (span p (ws ++ s)) = snd (span p s).
Proof.
  induction 1 as [|c ws Hc _ IH]; [done|]. simpl. rewrite Hc.
  by destruct (span p (ws ++ s)).
Qed.

Lemma strip_slashes_slashes (s : str) (n : nat) :
  strip_slashes (s ++ repeat (ch "/") n) = strip_slashes s.
Proof.
  unfold strip_slashes. rewrite rev_app_distr. f_equal.
  apply span_snd_prefix. apply Forall_rev, Forall_forall.
  intros c Hc%list_elem_of_In%repeat_spec. subst. apply N.eqb_refl.
Qed.

Lemma filter_sublist {A} (f : A -> bool) (l : list A) :
  sublist (List.filter f l) l.
Proof.
  induction l as [|x l IH]; simpl; [constructor|].
  destruct (f x); by constructor.
Qed.

Section Folders.
Context {W : Type} `{Host W}.

(** [listMarkdownFilesInFolder] does not depend on slashes at the end of
    the folder path.  It lists exactly the markdown files of the vault
    whose path goes on after the folder and a slash, in the order of the
    vault: the files of sub-folders are listed too, and no file of a
    folder whose name only begins like this one is. *)
Theorem listMarkdownFilesInFolder_slashes (w : W) (folder : str) (n : nat) :
  listMarkdownFilesInFolder w (folder ++ repeat (ch "/") n)
  = listMarkdownFilesInFolder w folder
  /\ Forall (fun f => f ∈ getMarkdownFiles w
                      /\ exists rest,
                           path f = strip_slashes folder ++ lit "/" ++ rest)
       (listMarkdownFilesInFolder w folder)
  /\ (forall f,
        f ∈ listMarkdownFilesInFolder w folder
        <-> f ∈ getMarkdownFiles w
            /\ exists rest,
                 path f = strip_slashes folder ++ lit "/" ++ rest)
  /\ (forall f sub rest,
        f ∈ getMarkdownFiles w ->
        path f = strip_slashes folder ++ lit "/" ++ sub ++ lit "/" ++ rest ->
        f ∈ listMarkdownFilesInFolder w folder)
  /\ (forall f c rest,
        c <> ch "/" -> path f = strip_slashes folder ++ c :: rest ->
        f ∉ listMarkdownFilesInFolder w folder)
  /\ sublist (listMarkdownFilesInFolder w folder) (getMarkdownFiles w).
Proof.
  assert (Hiff : forall f,
            f ∈ listMarkdownFilesInFolder w folder
            <-> f ∈ getMarkdownFiles w
                /\ exists rest,
                     path f = strip_slashes folder ++ lit "/" ++ rest).
  { intros f. unfold listMarkdownFilesInFolder. fold (strip_slashes folder).
    rewrite list_elem_of_In, List.filter_In, <- list_elem_of_In.
    rewrite startsWith_app. split; intros [Hin [rest Hr]]; (split; [done|]);
      exists rest; by rewrite Hr, <- ?app_assoc, ?app_assoc. }
  split; [|split; [|split; [done|split; [|split]]]].
  - unfold listMarkdownFilesInFolder.
    fold (strip_slashes (folder ++ repeat (ch "/") n)).
    fold (strip_slashes folder). by rewrite strip_slashes_slashes.
  - apply Forall_forall. intros f Hf. by apply Hiff.
  - intros f sub rest Hin Hp. apply Hiff. split; [done|].
    by exists (sub ++ lit "/" ++ rest).
  - intros f c rest Hc Hp Hf. apply Hiff in Hf as [_ [rest' Hr]].
    rewrite Hp in Hr. apply app_inv_head in Hr.
    injection Hr as Hr _. done.
  - unfold listMarkdownFilesInFolder. apply filter_sublist.
Qed.

(** The folder at the root of a vault has the path [/]; when the paths of
    the files do not begin with a slash, as paths relative to the root do
    not, the list for that folder is empty, and so is the scope
    [current-folder] of a note at the root. *)
Theorem listMarkdownFilesInFolder_root (w : W) (a : TFile) :
  Forall (fun f => startsWith (lit "/") (path f) = false)
    (getMarkdownFiles w) ->
  getActiveFile w = Some a -> parent a = Some (lit "/") ->
  listMarkdownFilesInFolder w (lit "/") = []
  /\ getScopeFiles w CurrentFolder = [].
Proof.
  intros Hall Ha Hp.
  assert (Hl : listMarkdownFilesInFolder w (lit "/") = []).
  { unfold listMarkdownFilesInFolder.
    change (rev (snd (span (fun c => (c =? ch "/")%N) (rev (lit "/")))))
      with (@nil N).
    induction Hall as [|f l Hf _ IH]; [done|]. cbn [List.filter].
    change ([] ++ lit "/") with (lit "/") in *. by rewrite Hf. }
  split; [done|]. unfold getScopeFiles. by rewrite Ha, Hp.
Qed.

(** Whatever the method and the kind, the replacement text has the URL in
    it, followed by the suffix of the reference, both as they are. *)
Theorem buildReplacement_carries_url (ref : AttachmentRef) (url : str)
    (resolved : TFile) :
  exists a b,
    buildReplacement ref url resolved
    = a ++ (url ++ default [] (suffix ref)) ++ b.
Proof.
  unfold buildReplacement.
  set (u := url ++ default [] (suffix ref)).
  destruct (getMethodForFile resolved).
  - exists (lit "![" ++ (if decide (kind ref = MdEmbed)
                         then default [] (label ref) else []) ++ lit "]("),
      (lit ")").
    by rewrite <- !app_assoc.
  - exists (lit "<iframe src=" ++ dq),
      (dq ++ lit " alt=" ++ dq ++ name resolved ++ dq ++ lit " style=" ++ dq
       ++ lit "overflow:hidden;height:400;width:100%" ++ dq
       ++ lit " allowfullscreen></iframe>").
    by rewrite <- !app_assoc.
  - repeat case_decide.
    + exists (lit "[" ++ link_label ref resolved ++ lit "]("), (lit ")").
      by rewrite <- !app_assoc.
    + exists (lit "[" ++ link_label ref resolved ++ lit "]("), (lit ")").
      by rewrite <- !app_assoc.
    + exists [], []. by rewrite app_nil_r.
Qed.

(** The name that the loop of [ensureBackup] stops at names no file, and
    every name tried before it names one. *)
Lemma backup_target_from (fuel : nat) (w : W) (base : str) (n : N) (t : str) :
  backup_target fuel w base n (backup_name base n) = Some t ->
  exists k,
    (n <= k)%N /\ N.to_nat k < N.to_nat n + fuel
    /\ t = backup_name base k
    /\ getAbstractFileByPath t w = false
    /\ forall j, (n <= j < k)%N ->
         getAbstractFileByPath (backup_name base j) w = true.
Proof.
  revert n. induction fuel as [|fuel IH]; intros n; cbn [backup_target];
    [done|].
  destruct (getAbstractFileByPath (backup_name base n) w) eqn:Hn.
  - replace (base ++ lit "." ++ of_N (n + 1)) with (backup_name base (n + 1)).
    2:{ unfold backup_name. destruct (N.eqb_spec (n + 1) 0); [lia|done]. }
    intros Hb. destruct (IH _ Hb) as (k & Hk & Hf & -> & Hfree & Hbefore).
    exists k. split; [lia|]. split; [lia|]. split; [done|]. split; [done|].
    intros j Hj. destruct (N.eq_dec j n) as [->|Hne]; [done|].
    apply Hbefore. lia.
  - intros [= <-]. exists n. split; [lia|]. split; [lia|].
    split; [done|]. split; [done|]. intros j Hj. lia.
Qed.

Lemma backup_target_enough (fuel : nat) (w : W) (base : str) (n k : N) :
  (n <= k)%N -> getAbstractFileByPath (backup_name base k) w = false ->
  N.to_nat k < N.to_nat n + fuel ->
  is_Some (backup_target fuel w base n (backup_name base n)).
Proof.
  revert n. induction fuel as [|fuel IH]; intros n Hk Hfree Hfuel;
    cbn [backup_target].
  { assert (n = k) by lia. lia. }
  destruct (getAbstractFileByPath (backup_name base n) w) eqn:Hn; [|done].
  replace (base ++ lit "." ++ of_N (n + 1)) with (backup_name base (n + 1)).
  2:{ unfold backup_name. destruct (N.eqb_spec (n + 1) 0); [lia|done]. }
  apply IH; [|done|lia].
  destruct (N.eq_dec n k) as [->|Hne]; [congruence|lia].
Qed.

(** [ensureBackup] copies the note to the first of [path.bak],
    [path.bak.1], [path.bak.2], ... that names no file: it never copies
    over a file. *)
Theorem ensureBackup_first_free (fuel : nat) (note : TFile) (st : Run W)
    (r : Res unit) (st' : Run W) :
  ensureBackup fuel note st = Some (r, st') ->
  exists k,
    trace st'
    = trace st ++ [EvCopy note (backup_name (path note ++ lit ".bak") k) r]
    /\ getAbstractFileByPath (backup_name (path note ++ lit ".bak") k)
         (world st) = false
    /\ forall j, (j < k)%N ->
         getAbstractFileByPath (backup_name (path note ++ lit ".bak") j)
           (world st) = true.
Proof.
  unfold ensureBackup. set (base := path note ++ lit ".bak").
  destruct (backup_target fuel (world st) base 0 base) as [t|] eqn:Hb; [|done].
  apply (backup_target_from fuel (world st) base 0) in Hb
    as (k & _ & _ & -> & Hfree & Hbefore).
  unfold call. destruct (vault_copy note _ (world st)) as [r' w'].
  intros [= <- <-]. exists k. split; [done|]. split; [done|].
  intros j Hj. apply Hbefore. lia.
Qed.

(** When one of the names is free, fuel beyond its number is enough for
    [ensureBackup] to make its copy. *)
Theorem ensureBackup_enough_fuel (fuel : nat) (note : TFile) (st : Run W)
    (k : N) :
  getAbstractFileByPath (backup_name (path note ++ lit ".bak") k) (world st)
  = false ->
  N.to_nat k < fuel ->
  exists r st' dest,
    ensureBackup fuel note st = Some (r, st')
    /\ trace st' = trace st ++ [EvCopy note dest r].
Proof.
  intros Hfree Hfuel. unfold ensureBackup.
  destruct (backup_target_enough fuel (world st) (path note ++ lit ".bak") 0 k)
    as [t Ht]; [lia|done|lia|].
  change (backup_name (path note ++ lit ".bak") 0)
    with (path note ++ lit ".bak") in Ht.
  rewrite Ht. unfold call.
  destruct (vault_copy note t (world st)) as [r w'].
  by exists r, (emit (EvCopy note t r) (set_world w' st)), t.
Qed.

End Folders.

(* ===================================================================== *)
(** ** convertAttachments.ts: the ledger of a run *)
(* ===================================================================== *)

(** A list cut at one of its elements, when the list is made of two. *)
Lemma app_eq_mid {A} (a b pre post : list A) (e : A) :
  a ++ b = pre ++ e :: post ->
  (exists post', a = pre ++ e :: post' /\ post = post' ++ b)
  \/ (exists pre', b = pre' ++ e :: post /\ pre = a ++ pre').
Proof.
  revert pre. induction a as [|x a IH]; intros pre Hab; simpl in *.
  { right. by exists pre. }
  destruct pre as [|y pre]; simpl in *.
  - injection Hab as -> <-. left. by exists a.
  - injection Hab as -> Hab. destruct (IH _ Hab) as [(p & -> & ->)|(p & -> & ->)].
    + left. by exists p.
    + right. by exists p.
Qed.

Lemma take_mem {A} (x : A) (n : nat) (l : list A) : x ∈ take n l -> x ∈ l.
Proof. intros Hx. rewrite <- (take_drop n l). apply elem_of_app. by left. Qed.

Section LedgerFacts.
Context {W : Type} `{Host W}.
Variable opts : ConvertAttachmentsOptions.

Lemma found_app (a b : list Event) : found (a ++ b) = found a + found b.
Proof.
  induction a as [|e a IH]; simpl; [done|].
  destruct e as [|n [c|x]| | | | | | |]; simpl; lia.
Qed.

Lemma found_none (d : list Event) : count is_read d = 0 -> found d = 0.
Proof.
  unfold count. induction d as [|e d IH]; simpl; [done|].
  destruct e; simpl; auto. discriminate.
Qed.

Lemma reads_app (a b : list Event) : reads (a ++ b) = reads a ++ reads b.
Proof. apply omap_app. Qed.

Lemma count_reads (d : list Event) : count is_read d = length (reads d).
Proof.
  unfold count, reads. induction d as [|e d IH]; [done|].
  destruct e; simpl; auto.
Qed.

Lemma reads_none (d : list Event) :
  Forall (fun e => ref_event e = true) d -> reads d = [].
Proof.
  induction 1 as [|e d He _ IH]; [done|]. unfold reads in *.
  destruct e; try done; simpl; exact IH.
Qed.

Lemma ledger_refl (st : Run W) : Ledger opts st [] 0 st.
Proof. split; simpl; rewrite ?app_nil_r; try done; try lia. Qed.

Lemma ledger_trans (st st1 st2 : Run W) (d1 d2 : list Event) (k1 k2 : nat) :
  Ledger opts st d1 k1 st1 -> Ledger opts st1 d2 k2 st2 ->
  Ledger opts st (d1 ++ d2) (k1 + k2) st2.
Proof.
  intros A B. split; rewrite ?count_app, ?found_app.
  - by rewrite (led_trace _ _ _ _ _ B), (led_trace _ _ _ _ _ A), app_assoc.
  - rewrite (led_scanned _ _ _ _ _ B), (led_scanned _ _ _ _ _ A). lia.
  - rewrite (led_found _ _ _ _ _ B), (led_found _ _ _ _ _ A). lia.
  - pose proof (led_refs _ _ _ _ _ A). pose proof (led_refs _ _ _ _ _ B). lia.
  - rewrite (led_unresolved _ _ _ _ _ B), (led_unresolved _ _ _ _ _ A). lia.
  - rewrite (led_unsupported _ _ _ _ _ B), (led_unsupported _ _ _ _ _ A). lia.
  - rewrite (led_present _ _ _ _ _ B), (led_present _ _ _ _ _ A). lia.
  - pose proof (led_preview _ _ _ _ _ A). pose proof (led_preview _ _ _ _ _ B).
    lia.
  - pose proof (led_errors _ _ _ _ _ A). pose proof (led_errors _ _ _ _ _ B).
    lia.
  - pose proof (led_uploads _ _ _ _ _ A). pose proof (led_uploads _ _ _ _ _ B).
    lia.
  - intros Hd. pose proof (led_attempts _ _ _ _ _ A Hd).
    pose proof (led_attempts _ _ _ _ _ B Hd). lia.
  - intros Hb. rewrite (led_nocopy _ _ _ _ _ A Hb), (led_nocopy _ _ _ _ _ B Hb).
    done.
  - intros Hb. pose proof (led_backup _ _ _ _ _ A Hb).
    pose proof (led_backup _ _ _ _ _ B Hb). lia.
  - pose proof (led_rewritten _ _ _ _ _ A).
    pose proof (led_rewritten _ _ _ _ _ B). lia.
  - rewrite (led_changed _ _ _ _ _ B), (led_changed _ _ _ _ _ A). lia.
  - rewrite (led_copies _ _ _ _ _ B), (led_copies _ _ _ _ _ A). lia.
Qed.

Lemma uploads_guarded_nil : uploads_guarded [].
Proof. intros pre f obj n r post Hd. by destruct pre. Qed.

Lemma uploads_guarded_app (a b : list Event) :
  uploads_guarded a -> uploads_guarded b -> uploads_guarded (a ++ b).
Proof.
  intros Ha Hb pre f obj n r post Hd.
  apply app_eq_mid in Hd as [(post' & Hd & _)|(pre' & Hd & ->)].
  - apply (Ha _ _ _ _ _ _ Hd).
  - destruct (Hb _ _ _ _ _ _ Hd) as (Hs & pre0 & l & s & win & Hp & Hw).
    split; [done|]. exists (a ++ pre0), l, s, win. split; [|done].
    by rewrite <- !app_assoc, Hp.
Qed.

Lemma uploads_guarded_none (d : list Event) :
  Forall (fun e => is_upload e = false) d -> uploads_guarded d.
Proof.
  intros Hd pre f obj n r post ->. apply Forall_app in Hd as [_ Hd].
  by inversion Hd.
Qed.

Lemma writes_guarded_app (a b : list Event) :
  writes_guarded opts a -> writes_guarded opts b ->
  writes_guarded opts (a ++ b).
Proof.
  intros Ha Hb pre note data r post Hd.
  apply app_eq_mid in Hd as [(post' & Hd & _)|(pre' & Hd & ->)].
  - apply (Ha _ _ _ _ _ Hd).
  - destruct (Hb _ _ _ _ _ Hd)
      as (Hdry & pre0 & content & mid & backup & reps & Hp & Hrest).
    split; [done|]. exists (a ++ pre0), content, mid, backup, reps.
    split; [|done]. by rewrite <- !app_assoc, Hp.
Qed.

Lemma writes_guarded_none (d : list Event) :
  Forall (fun e => match e with EvModify _ _ _ => False | _ => True end) d ->
  writes_guarded opts d.
Proof.
  intros Hd pre note data r post ->. apply Forall_app in Hd as [_ Hd].
  by inversion Hd.
Qed.

End LedgerFacts.

(** The obligations of [Ledger] for a part of a run given by its calls. *)
Ltac led_field :=
  unfold count, settled; simpl;
  repeat match goal with
         | Hs : unsupported_file _ = _ |- _ => rewrite Hs
         end;
  rewrite ?length_app; simpl;
  first [ lia | reflexivity
        | intros; first [ lia | reflexivity | congruence ] ].

Ltac led_record :=
  split;
  [ simpl; rewrite <- ?app_assoc; simpl;
    first [ reflexivity | by rewrite app_nil_r ]
  | led_field.. ].

(** A concrete record of calls cut at an upload: the cases of the place
    of the cut. *)
Ltac cut_at Hd pre :=
  repeat (destruct pre as [|? pre];
          [ try discriminate Hd
          | simpl in Hd; injection Hd as ? Hd; subst ]);
  try (by destruct pre).

Ltac window_tail Hd :=
  injection Hd as <- <- <- <- <-;
  split; [reflexivity|]; split; [reflexivity|];
  first
    [ eexists _, _, [], _; split; [reflexivity|];
      split; [constructor|]; split; reflexivity
    | eexists _, _, [_], _; split; [reflexivity|];
      split; [repeat constructor|]; split; reflexivity ].

Ltac step_leaf :=
  eexists; split; [led_record|];
  split; [led_field|];
  split; [first [ led_field | by intros [? [=]] ]|];
  split; [led_field|];
  split; [repeat constructor|];
  let pre := fresh "pre" in
  let Hd := fresh "Hd" in
  intros pre ? ? ? ? ? Hd; cut_at Hd pre; window_tail Hd.

(** The first six obligations of a leaf of [persist]. *)
Ltac pleaf L d :=
  apply (L d);
  [ first [ apply ledger_refl | led_record ]
  | led_field | led_field | led_field | led_field
  | by repeat constructor
  | ].

Section LedgerSteps.
Context {W : Type} `{Host W}.
Variable opts : ConvertAttachmentsOptions.

(** The hashing and upload step. *)
Lemma upload_step_ledger (resolved : TFile) (st st' : Run W)
    (r : option str) :
  upload_step opts resolved st = (r, st') ->
  exists d,
    Ledger opts st d 0 st'
    /\ settled (report st') <= settled (report st) + 1
    /\ (is_Some r -> settled (report st') = settled (report st))
    /\ linksRewritten (report st') = linksRewritten (report st)
    /\ Forall (fun e => ref_event e = true /\ is_resolve e = false) d
    /\ forall pre f obj fileName rr post,
         d = pre ++ EvUpload f obj fileName rr :: post ->
         f = resolved /\ post = []
         /\ upload_window f obj fileName rr
              (pre ++ [EvUpload f obj fileName rr]).
Proof.
  unfold upload_step, buildS3FileNameForVaultFile, sha1Hex, buildTargetUrl,
    call, remember, upload_failed, no_target_url.
  destruct (vault_readBinary resolved (world st)) as [[bytes|e] w1] eqn:E1;
    simpl.
  2:{ intros [= <- <-]. step_leaf. }
  destruct (digest_sha1 bytes w1) as [[hashBuf|e] w2] eqn:E2; simpl.
  2:{ intros [= <- <-]. step_leaf. }
  set (fileName := generateResourceName _ _ _ _).
  destruct (linkMode opts);
    [|destruct (truthy_opt (createPublicURL fileName (publicBaseUrl w2) w2))
        eqn:Hpub];
    [destruct (createObjURL (server_url w2) fileName w2) as [targetUrl|]
    |destruct (createPublicURL fileName (publicBaseUrl w2) w2)
       as [targetUrl|]
    |destruct (createObjURL (server_url w2) fileName w2) as [targetUrl|]];
    simpl.
  all: try (intros [= <- <-]; step_leaf).
  all: destruct (truthy targetUrl) eqn:Htruthy; simpl;
    try (intros [= <- <-]; step_leaf).
  all: destruct (objectExists fileName w2) as [[[|]|e] w3] eqn:E3; simpl;
    try (intros [= <- <-]; step_leaf).
  all: destruct (dryRun opts) eqn:Hdry; simpl;
    try (intros [= <- <-]; step_leaf).
  all: destruct (upload _ fileName w3) as [[u|e] w4] eqn:E4; simpl;
    intros [= <- <-]; step_leaf.
Qed.

Lemma rewrite_ref_ledger (note : TFile) (ref : AttachmentRef) (url : str)
    (resolved : TFile) (st st' : Run W) (reps reps' : list Replacement) :
  rewrite_ref note ref url resolved (st, reps) = (st', reps') ->
  Ledger opts st [] 0 st'
  /\ settled (report st') <= settled (report st) + 1
  /\ length reps' + linksRewritten (report st)
     = length reps + linksRewritten (report st')
  /\ exists new, reps' = reps ++ new /\ Forall (replaces [ref]) new.
Proof.
  unfold rewrite_ref.
  destruct (negb (str_eqb (buildReplacement ref url resolved) (raw ref)))
    eqn:Hne; intros [= <- <-].
  - split; [led_record|]. split; [led_field|]. split; [led_field|].
    eexists. split; [reflexivity|]. constructor; [|constructor].
    exists ref, url, resolved. split; [by left|]. split; [done|].
    split; [done|]. split; [done|]. simpl.
    apply negb_true_iff in Hne. by apply str_eqb_neq.
  - split; [apply ledger_refl|]. split; [lia|]. split; [lia|].
    exists []. by rewrite app_nil_r.
Qed.

(** One reference whose target is not blank. *)
Lemma process_ref_ledger (note : TFile) (ref : AttachmentRef)
    (st st' : Run W) (reps reps' : list Replacement) :
  blank_target ref = false ->
  process_ref opts note (st, reps) ref = (st', reps') ->
  exists d,
    Ledger opts st d 1 st'
    /\ settled (report st') <= settled (report st) + count is_resolve d
    /\ length reps' + linksRewritten (report st)
       = length reps + linksRewritten (report st')
    /\ (exists new, reps' = reps ++ new /\ Forall (replaces [ref]) new)
    /\ Forall (fun e => ref_event e = true) d
    /\ uploads_guarded d.
Proof.
  intros Hb. unfold process_ref. rewrite Hb.
  destruct (isProbablyRemoteLink (target ref)) eqn:Hr.
  { intros [= <- <-]. exists []. split; [led_record|]. split; [led_field|].
    split; [done|]. split; [by exists []; rewrite app_nil_r|].
    split; [constructor|apply uploads_guarded_nil]. }
  destruct (getFirstLinkpathDest (target ref) (path note) (world st))
    as [resolved|] eqn:Eres.
  2:{ intros [= <- <-]. eexists. split; [led_record|].
      split; [led_field|]. split; [done|].
      split; [by exists []; rewrite app_nil_r|].
      split; [by repeat constructor|].
      apply uploads_guarded_none. by repeat constructor. }
  fold (unsupported_file resolved).
  destruct (unsupported_file resolved) eqn:Hsup.
  { intros [= <- <-]. eexists. split; [led_record|].
    split; [led_field|]. split; [done|].
    split; [by exists []; rewrite app_nil_r|].
    split; [by repeat constructor|].
    apply uploads_guarded_none. by repeat constructor. }
  set (ev := EvResolve (target ref) (path note) (Some resolved)).
  set (st1 := emit ev st).
  assert (L1 : Ledger opts st [ev] 1 st1) by (subst st1 ev; led_record).
  assert (G1 : uploads_guarded [ev])
    by (apply uploads_guarded_none; by repeat constructor).
  assert (S1 : settled (report st1) = settled (report st)) by done.
  assert (R1 : linksRewritten (report st1) = linksRewritten (report st))
    by done.
  unfold url_for.
  destruct (truthy_opt (resolvedUrlByVaultPath st1 !! path resolved)) eqn:Hhit.
  { destruct (resolvedUrlByVaultPath st1 !! path resolved) as [url|]; [|done].
    intros Hrw.
    destruct (rewrite_ref_ledger _ _ _ _ _ _ _ _ Hrw) as (L2 & S2 & R2 & N2).
    exists ([ev] ++ []). split; [apply (ledger_trans _ _ _ _ _ _ 1 0 L1 L2)|].
    rewrite app_nil_r.
    split; [change (count is_resolve [ev]) with 1; lia|].
    split; [lia|]. split; [exact N2|].
    split; [by repeat constructor|done]. }
  destruct (upload_step opts resolved st1) as [r st2] eqn:Eu.
  destruct (upload_step_ledger _ _ _ _ Eu)
    as (d & L2 & S2 & S2' & R2 & E2 & U2).
  assert (Hd : Forall (fun e => ref_event e = true) ([ev] ++ d)).
  { constructor; [done|]. eapply Forall_impl; [exact E2|]. by intros e []. }
  assert (Hres : count is_resolve ([ev] ++ d) = 1).
  { rewrite count_app. replace (count is_resolve d) with 0; [done|].
    symmetry. apply count_zero. eapply Forall_impl; [exact E2|].
    by intros e []. }
  assert (G2 : uploads_guarded ([ev] ++ d)).
  { intros pre f obj n rr post Hcut. destruct pre as [|x pre]; [done|].
    simpl in Hcut. injection Hcut as <- Hcut.
    destruct (U2 _ _ _ _ _ _ Hcut) as (-> & -> & Hwin).
    split; [done|].
    exists [], (target ref), (path note), (pre ++ [EvUpload resolved obj n rr]).
    split; [done|done]. }
  destruct r as [url|].
  - intros Hrw.
    destruct (rewrite_ref_ledger _ _ _ _ _ _ _ _ Hrw) as (L3 & S3 & R3 & N3).
    exists ([ev] ++ d ++ []). split.
    { apply (ledger_trans _ _ _ _ _ _ 1 (0 + 0) L1).
      apply (ledger_trans _ _ _ _ _ _ _ _ L2 L3). }
    rewrite app_nil_r, Hres.
    specialize (S2' ltac:(by eexists)).
    split; [lia|]. split; [lia|]. split; [exact N3|]. split; [done|done].
  - intros [= <- <-]. exists ([ev] ++ d). split.
    { apply (ledger_trans _ _ _ _ _ _ 1 0 L1 L2). }
    rewrite Hres. split; [lia|]. split; [lia|].
    split; [by exists []; rewrite app_nil_r|]. split; [done|done].
Qed.

Lemma replaces_mono (l1 l2 : list AttachmentRef) (rp : Replacement) :
  (forall x, x ∈ l1 -> x ∈ l2) -> replaces l1 rp -> replaces l2 rp.
Proof.
  intros Hsub (ref & url & resolved & Hin & Hrest).
  exists ref, url, resolved. split; [by apply Hsub|done].
Qed.

(** The references of a note, one after the other. *)
Lemma fold_process_ref_ledger (note : TFile) (refs : list AttachmentRef)
    (st st' : Run W) (reps reps' : list Replacement) :
  Forall (fun r => blank_target r = false) refs ->
  fold_left (process_ref opts note) refs (st, reps) = (st', reps') ->
  exists d,
    Ledger opts st d (length refs) st'
    /\ settled (report st') <= settled (report st) + count is_resolve d
    /\ length reps' + linksRewritten (report st)
       = length reps + linksRewritten (report st')
    /\ (exists new, reps' = reps ++ new /\ Forall (replaces refs) new)
    /\ Forall (fun e => ref_event e = true) d
    /\ uploads_guarded d.
Proof.
  intros Hnb. revert st reps.
  induction Hnb as [|ref refs Hb _ IH]; intros st reps; cbn [fold_left].
  { intros [= <- <-]. exists []. split; [apply ledger_refl|].
    split; [unfold count; simpl; lia|]. split; [done|].
    split; [by exists []; rewrite app_nil_r|].
    split; [constructor|apply uploads_guarded_nil]. }
  destruct (process_ref opts note (st, reps) ref) as [st1 reps1] eqn:E1.
  intros Hfold.
  destruct (process_ref_ledger _ _ _ _ _ _ Hb E1)
    as (d1 & L1 & S1 & R1 & (new1 & -> & N1) & F1 & G1).
  destruct (IH _ _ Hfold) as (d2 & L2 & S2 & R2 & (new2 & -> & N2) & F2 & G2).
  exists (d1 ++ d2). split; [apply (ledger_trans _ _ _ _ _ _ 1 _ L1 L2)|].
  rewrite count_app. split; [lia|]. split; [lia|]. split.
  { exists (new1 ++ new2). split; [by rewrite app_assoc|].
    apply Forall_app. split.
    - eapply Forall_impl; [exact N1|]. intros rp. apply replaces_mono.
      intros x Hx%list_elem_of_singleton. subst. by left.
    - eapply Forall_impl; [exact N2|]. intros rp. apply replaces_mono.
      intros x Hx. by right. }
  split; [by apply Forall_app|by apply uploads_guarded_app].
Qed.

(** The backup and the write of a note. *)
Lemma persist_ledger (fuel : nat) (note : TFile) (next : str)
    (st st' : Run W) (a : option Abort) :
  persist fuel opts note next st = (st', a) ->
  exists d,
    Ledger opts st d 0 st'
    /\ settled (report st') = settled (report st)
    /\ linksRewritten (report st') = linksRewritten (report st)
    /\ notesChanged (report st') <= notesChanged (report st) + 1
    /\ (a = None -> makeBackup opts = true ->
        notesChanged (report st') + backupCreated (report st)
        = notesChanged (report st) + backupCreated (report st'))
    /\ Forall (fun e => is_read e = false /\ is_upload e = false
                        /\ is_resolve e = false) d
    /\ forall pre n data r post,
         d = pre ++ EvModify n data r :: post ->
         n = note /\ data = next /\ dryRun opts = false
         /\ if makeBackup opts
            then exists dest, pre = [EvCopy note dest (Ok tt)]
            else pre = [].
Proof.
  unfold persist, ensureBackup, call.
  assert (Leaf : forall (d : list Event) (st0 : Run W) (a0 : option Abort) P,
            Ledger opts st d 0 st0 ->
            settled (report st0) = settled (report st) ->
            linksRewritten (report st0) = linksRewritten (report st) ->
            notesChanged (report st0) <= notesChanged (report st) + 1 ->
            (a0 = None -> makeBackup opts = true ->
             notesChanged (report st0) + backupCreated (report st)
             = notesChanged (report st) + backupCreated (report st0)) ->
            Forall (fun e => is_read e = false /\ is_upload e = false
                             /\ is_resolve e = false) d ->
            P d ->
            exists d',
              Ledger opts st d' 0 st0
              /\ settled (report st0) = settled (report st)
              /\ linksRewritten (report st0) = linksRewritten (report st)
              /\ notesChanged (report st0) <= notesChanged (report st) + 1
              /\ (a0 = None -> makeBackup opts = true ->
                  notesChanged (report st0) + backupCreated (report st)
                  = notesChanged (report st) + backupCreated (report st0))
              /\ Forall (fun e => is_read e = false /\ is_upload e = false
                                  /\ is_resolve e = false) d'
              /\ P d').
  { intros d st0 a0 P ? ? ? ? ? ? ?. by exists d. }
  destruct (dryRun opts) eqn:Hdry.
  { intros [= <- <-]. pleaf Leaf (@nil Event).
    intros pre n data r post Hd. by destruct pre. }
  destruct (makeBackup opts) eqn:Hmb.
  - destruct (backup_target _ _ _ _ _) as [dest|].
    2:{ intros [= <- <-]. pleaf Leaf (@nil Event).
        intros pre n data r post Hd. by destruct pre. }
    destruct (vault_copy note dest (world st)) as [[[]|e] w1]; simpl.
    2:{ intros [= <- <-]. pleaf Leaf ([EvCopy note dest (Err e)]).
        intros pre n data r post Hd. cut_at Hd pre. }
    destruct (vault_modify note next w1) as [[[]|e] w2]; simpl;
      intros [= <- <-].
    + pleaf Leaf ([EvCopy note dest (Ok tt); EvModify note next (Ok tt)]).
      intros pre n data r post Hd. cut_at Hd pre.
      injection Hd as <- <- <- <-. repeat split; try done. by exists dest.
    + pleaf Leaf ([EvCopy note dest (Ok tt); EvModify note next (Err e)]).
      intros pre n data r post Hd. cut_at Hd pre.
      injection Hd as <- <- <- <-. repeat split; try done. by exists dest.
  - destruct (vault_modify note next (world st)) as [[[]|e] w2]; simpl;
      intros [= <- <-].
    + pleaf Leaf ([EvModify note next (Ok tt)]).
      intros pre n data r post Hd. cut_at Hd pre.
      injection Hd as <- <- <- <-. done.
    + pleaf Leaf ([EvModify note next (Err e)]).
      intros pre n data r post Hd. cut_at Hd pre.
      injection Hd as <- <- <- <-. done.
Qed.

Lemma reads_quiet (d : list Event) :
  Forall (fun e => is_read e = false /\ is_upload e = false
                   /\ is_resolve e = false) d ->
  reads d = [] /\ uploads_guarded d /\ count is_resolve d = 0.
Proof.
  intros Hd. split; [|split].
  - induction Hd as [|e d (He & _) _ IH]; [done|]. unfold reads in *.
    destruct e; try done; simpl; exact IH.
  - apply uploads_guarded_none. eapply Forall_impl; [exact Hd|].
    by intros e (_ & ? & _).
  - apply count_zero. eapply Forall_impl; [exact Hd|]. by intros e (_ & _ & ?).
Qed.

(** One note. *)
Lemma process_note_ledger (fuel : nat) (note : TFile) (st st' : Run W)
    (a : option Abort) :
  process_note fuel opts st note = (st', a) ->
  exists d,
    Ledger opts st d (found d) st'
    /\ settled (report st') <= settled (report st) + count is_resolve d
    /\ reads d = [note]
    /\ notesChanged (report st') <= notesChanged (report st) + 1
    /\ notesChanged (report st') + linksRewritten (report st)
       <= notesChanged (report st) + linksRewritten (report st')
    /\ (a = None -> makeBackup opts = true ->
        notesChanged (report st') + backupCreated (report st)
        = notesChanged (report st) + backupCreated (report st'))
    /\ uploads_guarded d /\ writes_guarded opts d.
Proof.
  unfold process_note, call. simpl.
  destruct (vault_read note (world st)) as [[content|e] w1] eqn:Er.
  2:{ intros [= <- <-]. exists [EvRead note (Err e)].
      split; [led_record|]. split; [led_field|]. split; [done|].
      split; [led_field|]. split; [led_field|]. split; [done|].
      split; [apply uploads_guarded_none; by repeat constructor|].
      apply writes_guarded_none. by repeat constructor. }
  set (ev := EvRead note (Ok content)).
  set (st1 := upd_report _ _).
  assert (L1 : Ledger opts st [ev] 0 st1) by (subst st1 ev; led_record).
  assert (S1 : settled (report st1) = settled (report st)) by done.
  assert (R1 : linksRewritten (report st1) = linksRewritten (report st))
    by done.
  assert (C1 : notesChanged (report st1) = notesChanged (report st)) by done.
  assert (B1 : backupCreated (report st1) = backupCreated (report st)) by done.
  destruct (fold_left (process_ref opts note) (candidate_refs content)
              (st1, [])) as [st2 reps] eqn:Ef.
  destruct (fold_process_ref_ledger _ _ _ _ _ _
              (candidate_refs_not_blank content) Ef)
    as (d2 & L2 & S2 & R2 & (new & Hnew & N2) & F2 & G2).
  simpl in Hnew, R2. subst new.
  pose proof (ledger_trans _ _ _ _ _ _ _ _ L1 L2) as L12.
  assert (K2 : found ([ev] ++ d2) = 0 + length (candidate_refs content)).
  { rewrite found_app. replace (found d2) with 0; [simpl; lia|].
    symmetry. apply found_none, count_zero.
    eapply Forall_impl; [exact F2|]. by intros []. }
  assert (Rd : reads ([ev] ++ d2) = [note]).
  { rewrite reads_app, (reads_none d2 F2). done. }
  assert (Gd : uploads_guarded ([ev] ++ d2)).
  { apply uploads_guarded_app; [|done].
    apply uploads_guarded_none. by repeat constructor. }
  assert (Cn : count is_resolve ([ev] ++ d2) = count is_resolve d2)
    by (by rewrite count_app).
  assert (Zm : count modify_ok d2 = 0 /\ count copy_ok d2 = 0).
  { split; apply count_zero; (eapply Forall_impl; [exact F2|]); by intros []. }
  destruct Zm as [Zm Zc].
  assert (C2 : notesChanged (report st2) = notesChanged (report st)).
  { rewrite (led_changed _ _ _ _ _ L2), Zm. lia. }
  assert (B2 : backupCreated (report st2) = backupCreated (report st)).
  { rewrite (led_copies _ _ _ _ _ L2), Zc. lia. }
  assert (Wd : writes_guarded opts ([ev] ++ d2)).
  { apply writes_guarded_none. constructor; [done|].
    eapply Forall_impl; [exact F2|]. by intros []. }
  destruct (length reps =? 0) eqn:Hlen.
  { intros [= <- <-]. exists ([ev] ++ d2). rewrite K2, Cn.
    split; [done|]. split; [lia|]. split; [done|]. split; [lia|].
    split; [lia|]. split; [intros _ _; lia|]. done. }
  intros Hp.
  destruct (persist_ledger _ _ _ _ _ _ Hp)
    as (d3 & L3 & S3 & R3 & C3 & B3 & F3 & M3).
  destruct (reads_quiet d3 F3) as (Rd3 & Gd3 & Zr3).
  pose proof (ledger_trans _ _ _ _ _ _ _ _ L12 L3) as L.
  exists (([ev] ++ d2) ++ d3).
  assert (K3 : found (([ev] ++ d2) ++ d3)
               = 0 + length (candidate_refs content) + 0).
  { rewrite found_app, K2. replace (found d3) with 0; [lia|].
    symmetry. apply found_none. apply count_zero.
    eapply Forall_impl; [exact F3|]. by intros e []. }
  rewrite K3. split; [done|].
  rewrite (count_app _ ([ev] ++ d2)), Cn, Zr3.
  split; [lia|]. split; [by rewrite reads_app, Rd, Rd3|].
  split; [lia|]. split.
  { assert (Hone : 1 <= length reps)
      by (destruct reps; [done|simpl; lia]).
    lia. }
  split; [intros Ha Hm; specialize (B3 Ha Hm); lia|].
  split; [by apply uploads_guarded_app|].
  intros pre n data r post Hcut.
  apply app_eq_mid in Hcut as [(post' & Hcut & _)|(pre' & Hcut & ->)].
  { by apply (Wd _ _ _ _ _ Hcut). }
  destruct (M3 _ _ _ _ _ Hcut) as (-> & -> & Hdry & Hbk).
  split; [done|].
  exists [], content, d2, pre', reps.
  split; [by rewrite <- app_assoc|]. split; [done|]. split; [done|].
  split; [by destruct reps|]. done.
Qed.

(** The notes of the scope, one after the other. *)
Lemma process_notes_ledger (fuel : nat) (notes : list TFile)
    (st st' : Run W) (a : option Abort) :
  process_notes fuel opts notes st = (st', a) ->
  exists d,
    Ledger opts st d (found d) st'
    /\ settled (report st') <= settled (report st) + count is_resolve d
    /\ (exists n, reads d = take n notes)
    /\ (a = None -> reads d = notes)
    /\ notesChanged (report st') + notesScanned (report st)
       <= notesChanged (report st) + notesScanned (report st')
    /\ notesChanged (report st') + linksRewritten (report st)
       <= notesChanged (report st) + linksRewritten (report st')
    /\ (a = None -> makeBackup opts = true ->
        notesChanged (report st') + backupCreated (report st)
        = notesChanged (report st) + backupCreated (report st'))
    /\ uploads_guarded d /\ writes_guarded opts d.
Proof.
  revert st. induction notes as [|note notes IH]; intros st; simpl.
  { intros [= <- <-]. exists []. split; [apply ledger_refl|].
    split; [unfold count; simpl; lia|]. split; [by exists 0|].
    split; [done|]. split; [lia|]. split; [lia|]. split; [lia|].
    split; [apply uploads_guarded_nil|].
    apply writes_guarded_none. constructor. }
  destruct (process_note fuel opts st note) as [st1 a1] eqn:E1.
  destruct (process_note_ledger _ _ _ _ _ E1)
    as (d1 & L1 & S1 & R1 & C1 & W1 & B1 & G1 & M1).
  assert (Sc1 : notesScanned (report st1) = notesScanned (report st) + 1).
  { by rewrite (led_scanned _ _ _ _ _ L1), count_reads, R1. }
  destruct a1 as [a1|].
  { intros [= <- <-]. exists d1. split; [done|]. split; [done|].
    split; [by exists 1; rewrite R1; destruct notes|]. split; [done|].
    split; [lia|]. split; [done|]. split; [done|]. done. }
  intros E2.
  destruct (IH _ E2) as (d2 & L2 & S2 & (n & R2) & Ra2 & C2 & W2 & B2 & G2 & M2).
  exists (d1 ++ d2). rewrite found_app, count_app, reads_app, R1.
  split; [by apply (ledger_trans _ _ _ _ _ _ _ _ L1 L2)|].
  split; [lia|]. split; [exists (S n); by rewrite R2|].
  split; [by intros Ha; rewrite (Ra2 Ha)|].
  split; [lia|]. split; [lia|].
  split; [intros Ha Hm; specialize (B1 eq_refl Hm); specialize (B2 Ha Hm); lia|].
  split; [by apply uploads_guarded_app|by apply writes_guarded_app].
Qed.

End LedgerSteps.

Section LedgerRun.
Context {W : Type} `{Host W}.
Variable opts : ConvertAttachmentsOptions.

(** A whole run. *)
Lemma run_ledger (fuel : nat) (w : W) (out : Outcome) (st : Run W) :
  convertAttachments fuel opts w = (out, st) ->
  Ledger opts (mkRun w empty_report ∅ []) (trace st) (found (trace st)) st
  /\ settled (report st) <= count is_resolve (trace st)
  /\ (exists n, reads (trace st) = take n (getScopeFiles w (scope opts)))
  /\ (forall r, out = Returned r ->
      r = report st
      /\ (has_s3 w = true ->
          reads (trace st) = getScopeFiles w (scope opts)))
  /\ notesChanged (report st) <= notesScanned (report st)
  /\ notesChanged (report st) <= linksRewritten (report st)
  /\ (forall r, out = Returned r -> makeBackup opts = true ->
      notesChanged (report st) = backupCreated (report st))
  /\ uploads_guarded (trace st) /\ writes_guarded opts (trace st).
Proof.
  unfold convertAttachments.
  set (st0 := mkRun w empty_report ∅ []).
  assert (Quiet : forall msg (Q : Prop),
            Q ->
            Ledger opts st0 (trace (emit (EvNotice msg) st0))
              (found (trace (emit (EvNotice msg) st0)))
              (emit (EvNotice msg) st0)
            /\ settled (report (emit (EvNotice msg) st0))
               <= count is_resolve (trace (emit (EvNotice msg) st0))
            /\ Q
            /\ notesChanged (report (emit (EvNotice msg) st0))
               <= notesScanned (report (emit (EvNotice msg) st0))
            /\ notesChanged (report (emit (EvNotice msg) st0))
               <= linksRewritten (report (emit (EvNotice msg) st0))
            /\ uploads_guarded (trace (emit (EvNotice msg) st0))
            /\ writes_guarded opts (trace (emit (EvNotice msg) st0))).
  { intros msg Q HQ. split; [subst st0; led_record|].
    split; [unfold count, settled; simpl; lia|]. split; [done|].
    split; [simpl; lia|]. split; [simpl; lia|].
    split; [apply uploads_guarded_none; by repeat constructor|].
    apply writes_guarded_none. by repeat constructor. }
  destruct (has_s3 w) eqn:Hs3; simpl.
  2:{ intros [= <- <-].
      destruct (Quiet (lit "S3: No active S3 client. Check your settings.")
                  True I) as (Q1 & Q2 & _ & Q4 & Q5 & Q6 & Q7).
      split; [done|]. split; [done|]. split; [by exists 0|].
      split; [by intros r [= <-]|]. split; [done|]. split; [done|].
      split; [by intros r [= <-] _|]. done. }
  destruct (length (getScopeFiles w (scope opts)) =? 0) eqn:Hlen.
  { intros [= <- <-].
    destruct (Quiet (lit "S3: No notes found for the chosen scope.")
                True I) as (Q1 & Q2 & _ & Q4 & Q5 & Q6 & Q7).
    assert (Hnil : getScopeFiles w (scope opts) = []).
    { apply Nat.eqb_eq in Hlen. by destruct (getScopeFiles w (scope opts)). }
    split; [done|]. split; [done|]. split; [by exists 0|].
    split; [intros r [= <-]; by rewrite Hnil|]. split; [done|].
    split; [done|]. split; [by intros r [= <-] _|]. done. }
  destruct (process_notes fuel opts _ st0) as [st1 a] eqn:E.
  destruct (process_notes_ledger _ _ _ _ _ _ E)
    as (d & L & S & Rn & Ra & C & Rw & B & G & M).
  assert (Ht : trace st1 = d) by (by rewrite (led_trace _ _ _ _ _ L)).
  simpl in S, C, Rw, B.
  destruct a as [[e|]|].
  - intros [= <- <-]. rewrite Ht. split; [done|]. split; [lia|].
    split; [done|]. split; [done|]. split; [lia|]. split; [lia|]. done.
  - intros [= <- <-]. rewrite Ht. split; [done|]. split; [lia|].
    split; [done|]. split; [done|]. split; [lia|]. split; [lia|]. done.
  - intros [= <- <-].
    set (ev := EvNotice (final_notice opts (report st1))).
    assert (Ln : Ledger opts st1 [ev] 0 (emit ev st1)) by led_record.
    pose proof (ledger_trans _ _ _ _ _ _ _ _ L Ln) as L'.
    assert (Hf : found (d ++ [ev]) = found d + 0)
      by (by rewrite found_app).
    assert (Hc : count is_resolve (d ++ [ev]) = count is_resolve d)
      by (rewrite count_app; unfold count; simpl; lia).
    assert (Hr : reads (d ++ [ev]) = reads d)
      by (rewrite reads_app; simpl; by rewrite app_nil_r).
    simpl. rewrite Ht, Hf, Hc, Hr.
    split; [done|]. split; [lia|]. split; [done|].
    split; [intros r [= <-]; split; [done|]; intros _; by apply Ra|].
    split; [lia|]. split; [lia|].
    split; [intros r _ Hm; specialize (B eq_refl Hm); lia|].
    split.
    + apply uploads_guarded_app; [done|].
      apply uploads_guarded_none. by repeat constructor.
    + apply writes_guarded_app; [done|].
      apply writes_guarded_none. by repeat constructor.
Qed.

End LedgerRun.

(* ===================================================================== *)
(** ** convertAttachments.ts: what a run reads, writes and counts *)
(* ===================================================================== *)

Section RunFacts.
Context {W : Type} `{Host W}.
Variable opts : ConvertAttachmentsOptions.

(** The notes that a run reads are the notes of the scope, in their
    order and each once, up to the note where the run stops;
    [notesScanned] is their number, and a run that returns its report with
    an S3 client has read them all. *)
Theorem run_reads_scope (fuel : nat) (w : W) (out : Outcome) (st : Run W) :
  convertAttachments fuel opts w = (out, st) ->
  (exists n, reads (trace st) = take n (getScopeFiles w (scope opts)))
  /\ notesScanned (report st) = length (reads (trace st))
  /\ (forall r, out = Returned r -> has_s3 w = true ->
      reads (trace st) = getScopeFiles w (scope opts)
      /\ notesScanned r = length (getScopeFiles w (scope opts))).
Proof.
  intros Hrun. destruct (run_ledger opts _ _ _ _ Hrun) as (L & _ & Rn & Rr & _).
  assert (Hs : notesScanned (report st) = length (reads (trace st))).
  { rewrite (led_scanned _ _ _ _ _ L), count_reads. done. }
  split; [done|]. split; [done|]. intros r Hr Hs3.
  destruct (Rr r Hr) as [-> Hall]. specialize (Hall Hs3).
  split; [done|]. by rewrite Hs, Hall.
Qed.

(** A run writes a note only after it has read that note, a note of the
    scope, with nothing but the calls for its references and, when backups
    are made, the successful copy of the note in between; the text written
    is the text read with at least one replacement, each made for a
    candidate reference of that text.  A dry run writes nothing. *)
Theorem run_writes_guarded (fuel : nat) (w : W) (out : Outcome) (st : Run W) :
  convertAttachments fuel opts w = (out, st) ->
  writes_guarded opts (trace st)
  /\ forall note data r,
       EvModify note data r ∈ trace st ->
       note ∈ getScopeFiles w (scope opts).
Proof.
  intros Hrun.
  destruct (run_ledger opts _ _ _ _ Hrun) as (_ & _ & (n & Rn) & _ & _ & _ & _ & _ & M).
  split; [done|]. intros note data r Hin.
  apply list_elem_of_split in Hin as (pre & post & Ht).
  destruct (M _ _ _ _ _ Ht) as (_ & pre0 & content & mid & bk & reps & Hp & _).
  assert (Hr : note ∈ reads (trace st)).
  { rewrite Ht, Hp, <- !app_assoc, !reads_app. simpl.
    apply elem_of_app. right. by left. }
  rewrite Rn in Hr. by apply take_mem in Hr.
Qed.

(** Every upload of a run sends the bytes just read from a file that the
    resolver has just returned and that is neither a note nor of an
    unsupported type, under the name made of the digest of those bytes,
    and right after the bucket has answered that it has no object of that
    name. *)
Theorem run_uploads_guarded (fuel : nat) (w : W) (out : Outcome)
    (st : Run W) :
  convertAttachments fuel opts w = (out, st) -> uploads_guarded (trace st).
Proof.
  intros Hrun.
  by destruct (run_ledger opts _ _ _ _ Hrun) as (_ & _ & _ & _ & _ & _ & _ & G & _).
Qed.

(** Every candidate reference of the notes read is either skipped as
    remote or given to the resolver, once; of those given to the resolver,
    the unresolved, the unsupported, the failed and the rewritten are
    counted apart. *)
Theorem run_refs_partition (fuel : nat) (w : W) (out : Outcome) (st : Run W) :
  convertAttachments fuel opts w = (out, st) ->
  refsFound (report st)
  = refsRemoteSkipped (report st) + count is_resolve (trace st)
  /\ refsUnresolved (report st) = count unresolved (trace st)
  /\ attachmentsUnsupported (report st) = count unsupported (trace st)
  /\ refsRemoteSkipped (report st) + refsUnresolved (report st)
     + attachmentsUnsupported (report st) + length (errors (report st))
     + linksRewritten (report st)
     <= refsFound (report st).
Proof.
  intros Hrun. destruct (run_ledger opts _ _ _ _ Hrun) as (L & S & _).
  pose proof (led_found _ _ _ _ _ L) as Hf.
  pose proof (led_refs _ _ _ _ _ L) as Hr.
  pose proof (led_unresolved _ _ _ _ _ L) as Hu.
  pose proof (led_unsupported _ _ _ _ _ L) as Hn.
  simpl in Hf, Hr, Hu, Hn. unfold settled in S.
  split; [lia|]. split; [done|]. split; [done|]. lia.
Qed.

(** The preview has one line for every unresolved reference and one for
    every rewritten link, and the list of errors has an entry for every
    failed upload. *)
Theorem run_preview_lines (fuel : nat) (w : W) (out : Outcome) (st : Run W) :
  convertAttachments fuel opts w = (out, st) ->
  length (previewLines (report st))
  = refsUnresolved (report st) + linksRewritten (report st)
  /\ uploadsFailed (report st) <= length (errors (report st)).
Proof.
  intros Hrun. destruct (run_ledger opts _ _ _ _ Hrun) as (L & _).
  pose proof (led_preview _ _ _ _ _ L) as Hp.
  pose proof (led_errors _ _ _ _ _ L) as He.
  simpl in Hp, He. split; lia.
Qed.

(** No more uploads succeed than are attempted; outside a dry run every
    attempt either succeeds or fails; and the uploads skipped are the
    answers of the bucket that it has the object. *)
Theorem run_upload_counters (fuel : nat) (w : W) (out : Outcome)
    (st : Run W) :
  convertAttachments fuel opts w = (out, st) ->
  uploadsSucceeded (report st) <= uploadsAttempted (report st)
  /\ (dryRun opts = false ->
      uploadsAttempted (report st)
      <= uploadsSucceeded (report st) + uploadsFailed (report st))
  /\ uploadsSkippedAlreadyExists (report st)
     = count present_answer (trace st).
Proof.
  intros Hrun. destruct (run_ledger opts _ _ _ _ Hrun) as (L & _).
  pose proof (led_uploads _ _ _ _ _ L) as Hu.
  pose proof (led_attempts _ _ _ _ _ L) as Ha.
  pose proof (led_present _ _ _ _ _ L) as Hp.
  simpl in Hu, Ha, Hp. split; [lia|]. split; [|done].
  intros Hd. specialize (Ha Hd). lia.
Qed.

(** No more notes are changed than are scanned or than links are
    rewritten.  With backups, every changed note has its copy, and a run
    that returns has made no other copy; without backups no copy is
    made. *)
Theorem run_note_counters (fuel : nat) (w : W) (out : Outcome) (st : Run W) :
  convertAttachments fuel opts w = (out, st) ->
  notesChanged (report st) <= notesScanned (report st)
  /\ notesChanged (report st) <= linksRewritten (report st)
  /\ (makeBackup opts = true ->
      notesChanged (report st) <= backupCreated (report st))
  /\ (forall r, out = Returned r -> makeBackup opts = true ->
      backupCreated r = notesChanged r)
  /\ (makeBackup opts = false ->
      backupCreated (report st) = 0 /\ count is_copy (trace st) = 0).
Proof.
  intros Hrun.
  destruct (run_ledger opts _ _ _ _ Hrun)
    as (L & _ & _ & Rr & C & Rw & B & _).
  pose proof (led_backup _ _ _ _ _ L) as Hb.
  pose proof (led_nocopy _ _ _ _ _ L) as Hn.
  pose proof (led_copies _ _ _ _ _ L) as Hc.
  simpl in Hb, Hc.
  split; [done|]. split; [done|].
  split; [intros Hm; specialize (Hb Hm); lia|].
  split.
  { intros r Hr Hm. destruct (Rr r Hr) as [-> _]. by rewrite (B _ Hr Hm). }
  intros Hm. specialize (Hn Hm). split; [|done].
  rewrite Hc. replace (count copy_ok (trace st)) with 0; [done|].
  symmetry. apply count_zero. apply count_zero in Hn.
  eapply Forall_impl; [exact Hn|]. by intros [].
Qed.

End RunFacts.

(* ===================================================================== *)
(** ** Runs of the model on the small host *)
(* ===================================================================== *)

Lemma listMarkdownFilesInFolder_root_witness :
  listMarkdownFilesInFolder vault_root (lit "/") = []
  /\ getScopeFiles vault_root CurrentFolder = [].
Proof.
  apply (listMarkdownFilesInFolder_root vault_root root_note);
    [by repeat constructor|reflexivity|reflexivity].
Defined.

(** The run on the folder of a note at the root finds no note. *)
Example run_root_folder :
  fst (convertAttachments 5 opts_folder vault_root) = Returned empty_report
  /\ trace (snd (convertAttachments 5 opts_folder vault_root))
     = [EvNotice (lit "S3: No notes found for the chosen scope.")].
Proof. split; vm_compute; reflexivity. Qed.

Lemma ensureBackup_first_free_witness :
  exists r st',
    ensureBackup 3 note1 (start_of (vault_two 0)) = Some (r, st')
    /\ exists k,
         trace st'
         = trace (start_of (vault_two 0))
           ++ [EvCopy note1 (backup_name (path note1 ++ lit ".bak") k) r]
         /\ getAbstractFileByPath (backup_name (path note1 ++ lit ".bak") k)
              (world (start_of (vault_two 0))) = false
         /\ forall j, (j < k)%N ->
              getAbstractFileByPath (backup_name (path note1 ++ lit ".bak") j)
                (world (start_of (vault_two 0))) = true.
Proof.
  destruct (ensureBackup 3 note1 (start_of (vault_two 0))) as [[r st']|] eqn:E;
    [|vm_compute in E; discriminate E].
  exists r, st'. split; [reflexivity|].
  exact (ensureBackup_first_free 3 note1 (start_of (vault_two 0)) r st' E).
Defined.

Lemma ensureBackup_enough_fuel_witness :
  exists r st' dest,
    ensureBackup 1 note1 (start_of (vault_two 0)) = Some (r, st')
    /\ trace st' = trace (start_of (vault_two 0)) ++ [EvCopy note1 dest r].
Proof.
  apply (ensureBackup_enough_fuel 1 note1 (start_of (vault_two 0)) 0);
    [vm_compute; reflexivity|simpl; lia].
Defined.

Lemma run_reads_scope_witness :
  exists rep st,
    convertAttachments 5 Demo.opts_run (vault_two 0) = (Returned rep, st)
    /\ reads (trace st) = [note1]
    /\ notesScanned (report st) = length (reads (trace st)).
Proof.
  set (run := convertAttachments 5 Demo.opts_run (vault_two 0)).
  destruct (run_reads_scope Demo.opts_run 5 (vault_two 0) (fst run) (snd run)
              (surjective_pairing run)) as (_ & H2 & _).
  exists (report (snd run)), (snd run).
  split; [vm_compute; reflexivity|]. split; [vm_compute; reflexivity|].
  exact H2.
Defined.

Lemma run_writes_guarded_witness :
  exists rep st,
    convertAttachments 5 Demo.opts_run (vault_two 0) = (Returned rep, st)
    /\ notesChanged rep = 1
    /\ writes_guarded Demo.opts_run (trace st).
Proof.
  set (run := convertAttachments 5 Demo.opts_run (vault_two 0)).
  destruct (run_writes_guarded Demo.opts_run 5 (vault_two 0) (fst run)
              (snd run) (surjective_pairing run)) as (H1 & _).
  exists (report (snd run)), (snd run).
  split; [vm_compute; reflexivity|]. split; [vm_compute; reflexivity|].
  exact H1.
Defined.

Lemma run_uploads_guarded_witness :
  exists rep st,
    convertAttachments 5 Demo.opts_run (vault_two 0) = (Returned rep, st)
    /\ uploadsSucceeded rep = 1
    /\ uploads_guarded (trace st).
Proof.
  set (run := convertAttachments 5 Demo.opts_run (vault_two 0)).
  pose proof (run_uploads_guarded Demo.opts_run 5 (vault_two 0) (fst run)
                (snd run) (surjective_pairing run)) as H1.
  exists (report (snd run)), (snd run).
  split; [vm_compute; reflexivity|]. split; [vm_compute; reflexivity|].
  exact H1.
Defined.

Lemma run_refs_partition_witness :
  exists rep st,
    convertAttachments 5 Demo.opts_run vault_mixed = (Returned rep, st)
    /\ (refsFound rep, refsRemoteSkipped rep, linksRewritten rep) = (2, 1, 1)
    /\ refsFound (report st)
       = refsRemoteSkipped (report st) + count is_resolve (trace st).
Proof.
  set (run := convertAttachments 5 Demo.opts_run vault_mixed).
  destruct (run_refs_partition Demo.opts_run 5 vault_mixed (fst run)
              (snd run) (surjective_pairing run)) as (H1 & _).
  exists (report (snd run)), (snd run).
  split; [vm_compute; reflexivity|]. split; [vm_compute; reflexivity|].
  exact H1.
Defined.

Lemma run_preview_lines_witness :
  exists rep st,
    convertAttachments 5 Demo.opts_run (vault_two 1) = (Returned rep, st)
    /\ (uploadsFailed rep, linksRewritten rep) = (1, 1)
    /\ length (previewLines (report st))
       = refsUnresolved (report st) + linksRewritten (report st)
    /\ uploadsFailed (report st) <= length (errors (report st)).
Proof.
  set (run := convertAttachments 5 Demo.opts_run (vault_two 1)).
  destruct (run_preview_lines Demo.opts_run 5 (vault_two 1) (fst run)
              (snd run) (surjective_pairing run)) as (H1 & H2).
  exists (report (snd run)), (snd run).
  split; [vm_compute; reflexivity|]. split; [vm_compute; reflexivity|].
  split; [exact H1|exact H2].
Defined.

Lemma run_upload_counters_witness :
  exists rep st,
    convertAttachments 5 Demo.opts_run (vault_two 1) = (Returned rep, st)
    /\ (uploadsAttempted rep, uploadsSucceeded rep, uploadsFailed rep)
       = (2, 1, 1)
    /\ uploadsSucceeded (report st) <= uploadsAttempted (report st).
Proof.
  set (run := convertAttachments 5 Demo.opts_run (vault_two 1)).
  destruct (run_upload_counters Demo.opts_run 5 (vault_two 1) (fst run)
              (snd run) (surjective_pairing run)) as (H1 & _).
  exists (report (snd run)), (snd run).
  split; [vm_compute; reflexivity|]. split; [vm_compute; reflexivity|].
  exact H1.
Defined.

Lemma run_note_counters_witness :
  exists rep st,
    convertAttachments 5 Demo.opts_run (vault_two 0) = (Returned rep, st)
    /\ (notesChanged rep, backupCreated rep) = (1, 1)
    /\ notesChanged (report st) <= notesScanned (report st)
    /\ notesChanged (report st) <= linksRewritten (report st).
Proof.
  set (run := convertAttachments 5 Demo.opts_run (vault_two 0)).
  destruct (run_note_counters Demo.opts_run 5 (vault_two 0) (fst run)
              (snd run) (surjective_pairing run)) as (H1 & H2 & _).
  exists (report (snd run)), (snd run).
  split; [vm_compute; reflexivity|]. split; [vm_compute; reflexivity|].
  split; [exact H1|exact H2].
Defined.
